(** * Sorted ranges, disjoint composites, partition and merge (merge.go)

    A shallow embedding of package [tsl]'s merge.go.  Elements are integers
    under their numeric order; a Go [Element] interface value that may be nil
    is an [option Z].  Code that can panic returns a [result].

    The first part gives the program: ranges as values, with [Partition],
    [flatten], [merge] and the selection helpers; the cursors, with [Next]
    and [Fill]; the predicates used to state properties; and, in module
    [Store], the slices and backing arrays on which the Go code works, with
    [Partition] run on the store.  The second part proves properties of
    it. *)

From Stdlib Require Import String ZArith List Bool Lia Permutation.

Import ListNotations.

Open Scope Z_scope.

(** ** Results of code that may panic *)

Inductive result (A : Type) : Type :=
| Ok (a : A)
| Panic (msg : string).

Arguments Ok {A} a.

Arguments Panic {A} msg.

Definition bind {A B : Type} (m : result A) (k : A -> result B) : result B :=
  match m with
  | Ok a => k a
  | Panic msg => Panic msg
  end.

Notation "x <- m ;; k" := (bind m (fun x => k))
  (at level 61, m at next level, right associativity).

Notation "' pat <- m ;; k" := (bind m (fun x => match x with pat => k end))
  (at level 61, pat pattern, m at next level, right associativity).

(** ** Elements and orders *)

(** A Go [Element]: [None] is the nil interface value. *)
Definition Element : Type := option Z.

Definition isNil (e : Element) : bool :=
  match e with
  | None => true
  | Some _ => false
  end.

(** Modelled from the spec: the type [Order] and the two orders [LessOrder]
    (strictly-before) and [LessOrEqualOrder] (before-or-equal) are declared
    outside merge.go.  The spec fixes them as the only two relations used. *)
Inductive Order : Type :=
| LessOrder
| LessOrEqualOrder.

Definition Less (a b : Z) : bool := a <? b.

Definition holds (o : Order) (a b : Z) : bool :=
  match o with
  | LessOrder => Less a b
  | LessOrEqualOrder => negb (Less b a)
  end.

Definition nilDeref : string := "invalid memory address or nil pointer dereference"%string.

(** [o(a, b)]: comparing a nil element is a nil dereference. *)
Definition callOrder (o : Order) (a b : Element) : result bool :=
  match a, b with
  | Some x, Some y => Ok (holds o x y)
  | _, _ => Panic nilDeref
  end.

(** [a.Less(b)] on interface values. *)
Definition callLess (a b : Element) : result bool := callOrder LessOrder a b.

(** ** Ranges *)

(** [disjointRanges] is the struct of merge.go.  [EmptyRange] and [Leaf]
    stand for the ranges implemented outside merge.go.

    Modelled from the spec: [EmptyRange] is the shared empty sentinel;
    [Leaf first last elems] is any other range that is not a
    [*disjointRanges] (a primitive range, or the result of the overlap-merge
    primitive): it reports the bounds it was built with and produces
    [elems]. *)
#[warnings="-register-all"] Inductive SortedRange : Type :=
| EmptyRange
| Leaf (first last : Element) (elems : list Z)
| disjointRanges (first last : Element) (segments : list SortedRange).

Definition First (r : SortedRange) : Element :=
  match r with
  | EmptyRange => None
  | Leaf first _ _ => first
  | disjointRanges first _ _ => first
  end.

Definition Last (r : SortedRange) : Element :=
  match r with
  | EmptyRange => None
  | Leaf _ last _ => last
  | disjointRanges _ last _ => last
  end.

(** [Limit]: the sum over the segments for a composite.  Go's [int] is
    modelled without wrap-around: a limit counts elements held in memory. *)
Fixpoint Limit (r : SortedRange) : Z :=
  match r with
  | EmptyRange => 0
  | Leaf _ _ elems => Z.of_nat (length elems)
  | disjointRanges _ _ segments =>
      (fix sum (limit : Z) (rs : list SortedRange) {struct rs} : Z :=
         match rs with
         | [] => limit
         | r' :: rs' => sum (limit + Limit r') rs'
         end) 0 segments
  end.

(** The element sequence a range stands for: the concatenation of its
    segments' sequences.  (The cursor of merge.go is shown below to produce
    exactly this sequence.) *)
Fixpoint elements (r : SortedRange) : list Z :=
  match r with
  | EmptyRange => []
  | Leaf _ _ elems => elems
  | disjointRanges _ _ segments => flat_map elements segments
  end.

Definition isDisjoint (r : SortedRange) : bool :=
  match r with
  | disjointRanges _ _ _ => true
  | _ => false
  end.

(** Modelled from the spec: a range with no element is replaced by the
    sentinel ([useEmptyRangeIfEmpty] is declared outside merge.go). *)
Definition useEmptyRangeIfEmpty (r : SortedRange) : SortedRange :=
  if Limit r =? 0 then EmptyRange else r.

(** Modelled from the spec: a leaf over the elements [es], with its true
    bounds. *)
Definition leafOf (es : list Z) : SortedRange :=
  match es with
  | [] => EmptyRange
  | h :: _ => Leaf (Some h) (Some (last es h)) es
  end.

(** Modelled from the spec: [Partition] of a range that is not a composite
    sends the elements for which [order(element, pivot)] holds to the left
    and the remainder to the right, keeping their relative order. *)
Definition leafPartition (elems : list Z) (e : Element) (o : Order)
  : result (SortedRange * SortedRange) :=
  match e with
  | None => Panic nilDeref
  | Some p =>
      Ok (leafOf (filter (fun x => holds o x p) elems),
          leafOf (filter (fun x => negb (holds o x p)) elems))
  end.

Definition indexOutOfRange : string := "index out of range"%string.

(** [o(e, r.First()) && !o(r.First(), e)], given [r.First()] *)
Definition boundaryMatch (o : Order) (e first : Element) : result bool :=
  c1 <- callOrder o e first ;;
  if c1 then c2 <- callOrder o first e ;; Ok (negb c2) else Ok false.

(** [o(r.First(), e) && o(e, r.Last())], given [r.First()] and [r.Last()] *)
Definition insideMatch (o : Order) (e first last : Element) : result bool :=
  c1 <- callOrder o first e ;;
  if c1 then callOrder o e last else Ok false.

(** The rebuilding step of [Partition] once segment [i] has been split into
    [(p1, p2)] (merge.go lines 67-103).  [append(d.segments[0:i], p1)] is
    [firstn i segments ++ [p1]] as a value. *)
Definition rebuild (first last : Element) (segments : list SortedRange)
    (i : nat) (p1 p2 : SortedRange) : result (SortedRange * SortedRange) :=
  if Limit p2 =? 0 then
    if isNil (Last p1) then Panic "p1.Last() is nil!"%string else
    let r1 := disjointRanges first (Last p1) (firstn i segments ++ [p1]) in
    if (Z.of_nat i + 1 <? Z.of_nat (length segments)) then
      Ok (r1, disjointRanges (First (nth (S i) segments EmptyRange)) last
                (skipn (S i) segments))
    else Ok (r1, EmptyRange)
  else
    if isNil (Last p1) then Panic "p1.Last() is nil!"%string else
    if isNil (First p2) then Panic "p2.First() is nil!"%string else
    Ok (disjointRanges first (Last p1) (firstn i segments ++ [p1]),
        disjointRanges (First p2) last ([p2] ++ skipn (S i) segments)).

(** The split of the segment list at a boundary (merge.go lines 54-63);
    [d.segments[i-1]] is out of range for [i = 0]. *)
Definition splitAt (first last : Element) (segments : list SortedRange)
    (i : nat) (r : SortedRange) : result (SortedRange * SortedRange) :=
  match i with
  | O => Panic indexOutOfRange
  | S j =>
      Ok (disjointRanges first (Last (nth j segments EmptyRange)) (firstn i segments),
          disjointRanges (First r) last (skipn i segments))
  end.

(** [Partition]: the method of [*disjointRanges], and the modelled ones of
    the other ranges.  The inner [scan] is the [for i, r := range d.segments]
    loop, at index [i] with [rest = d.segments[i:]]. *)
Fixpoint Partition (d : SortedRange) (e : Element) (o : Order) {struct d}
  : result (SortedRange * SortedRange) :=
  match d with
  | EmptyRange => Ok (EmptyRange, EmptyRange)
  | Leaf _ _ elems => leafPartition elems e o
  | disjointRanges first last segments =>
      c <- callOrder o first e ;;
      if negb c then Ok (EmptyRange, d) else
      (fix scan (i : nat) (rest : list SortedRange) {struct rest}
         : result (SortedRange * SortedRange) :=
         match rest with
         | [] => Ok (d, EmptyRange)
         | r :: rest' =>
             if isNil (First r) then Panic "r.First() is nil!"%string else
             if isNil (Last r) then Panic "r.Last() is nil!"%string else
             bm <- boundaryMatch o e (First r) ;;
             if bm then splitAt first last segments i r else
             im <- insideMatch o e (First r) (Last r) ;;
             if im then
               '(p1, p2) <- Partition r e o ;;
               rebuild first last segments i p1 p2
             else scan (S i) rest'
         end) O segments
  end.

(** ** Selection helpers *)

(** [selectFirst] and [selectLast] look at their operands only through
    [First()], [Last()] and the [Less] method of the bounds.  In Go an
    [Element] is an interface value: two elements may be different values
    and yet neither be less than the other.  The two functions are therefore
    embedded over any type of elements [E] with its [less]; the functions of
    the core are their instances at the integer elements of this file. *)
Section Select.
Context {E : Type} (less : E -> E -> bool).

(** merge.go lines 155-164, given [a.First()] and [b.First()] *)
Definition selectFirstOf (aFirst bFirst : option E) : option E :=
  match aFirst, bFirst with
  | None, _ => bFirst
  | Some _, None => aFirst
  | Some x, Some y => if less x y then aFirst else bFirst
  end.

(** merge.go lines 170-179, given [a.Last()] and [b.Last()] *)
Definition selectLastOf (aLast bLast : option E) : option E :=
  match aLast, bLast with
  | None, _ => bLast
  | Some _, None => aLast
  | Some x, Some y => if negb (less y x) then bLast else aLast
  end.

End Select.

Definition selectFirst (a b : SortedRange) : Element :=
  selectFirstOf Less (First a) (First b).

Definition selectLast (a b : SortedRange) : Element :=
  selectLastOf Less (Last a) (Last b).

(** Elements that carry a payload beside the key they are ordered by: two of
    them with the same key are different values, neither less than the
    other. *)
Definition keyLess (x y : Z * string) : bool := Less (fst x) (fst y).

(** ** Flatten *)

(** [flatten]: the [for] loop of the last branch is [run]; its first
    iteration, where [segments[0]] is known to be a composite, is unrolled. *)
Fixpoint flatten (segments : list SortedRange) : list SortedRange :=
  match segments with
  | [] => segments
  | s0 :: tl =>
      match s0 with
      | disjointRanges _ _ segs0 =>
          (fix run (tmp : list SortedRange) (rs : list SortedRange) {struct rs}
             : list SortedRange :=
             match rs with
             | [] => tmp
             | r :: rs' =>
                 match r with
                 | disjointRanges _ _ dsegs => run (tmp ++ dsegs) rs'
                 | _ => tmp ++ flatten rs
                 end
             end) ([] ++ segs0) tl
      | _ => [s0] ++ flatten tl
      end
  end.

(** ** Merge *)

Section Merge.

(** Modelled from the spec: the overlap-merge primitive
    ([newMergeableRange], declared outside merge.go) is a black box that
    combines the elements of two interleaving ranges; [combine] is its
    policy on element sequences.  The range it builds reports the bounds
    it is given. *)
Variable combine : list Z -> list Z -> list Z.

Definition newMergeableRange (first last : Element) (a b : SortedRange)
  : SortedRange :=
  Leaf first last (combine (elements a) (elements b)).

(** The parts [p1, m23, p4] of the overlapping case, with the empty ones
    dropped (merge.go lines 217-238). *)
Definition assemble (a b : SortedRange) : result (list SortedRange) :=
  '(p1, p2) <- Partition a (First b) LessOrder ;;
  '(p3, p4) <- Partition b (Last a) LessOrEqualOrder ;;
  let m23 :=
    if Limit p2 =? 0 then p3
    else if Limit p3 =? 0 then p2
    else useEmptyRangeIfEmpty
           (newMergeableRange (selectFirst p2 p3) (selectLast p2 p3) p2 p3) in
  Ok (filter (fun r => 0 <? Limit r) [p1; m23; p4]).

Definition merge (a b : SortedRange) : result SortedRange :=
  if Limit a =? 0 then Ok b
  else if Limit b =? 0 then Ok a
  else
    c <- callLess (Last a) (First b) ;;
    if c then
      Ok (disjointRanges (First a) (selectLast a b) [a; b])
    else
      let first := selectFirst a b in
      let last := selectLast a b in
      segments <- assemble a b ;;
      match segments with
      | [] => Panic "unexpected"%string
      | [s] => Ok s
      | _ => Ok (disjointRanges first last (flatten segments))
      end.

End Merge.

(** A policy that keeps every element of both operands: the two-way merge of
    two sequences. *)
Fixpoint mergeLists (l1 : list Z) : list Z -> list Z :=
  fix inner (l2 : list Z) : list Z :=
    match l1, l2 with
    | [], _ => l2
    | _, [] => l1
    | x :: l1', y :: l2' =>
        if Less y x then y :: inner l2' else x :: mergeLists l1' l2
    end.

(** ** Cursors *)

(** [disjointCursor] is the struct of merge.go; [leafCursor] is the cursor
    of a range implemented outside merge.go.

    Modelled from the spec: a [leafCursor] holds the elements it has yet to
    produce; [Next] yields them one at a time and nil at the end, [Fill]
    writes as many as fit at the front of the buffer. *)
#[warnings="-register-all"] Inductive Cursor : Type :=
| leafCursor (rest : list Z)
| disjointCursor (next : nat) (cursor : option Cursor) (segments : list SortedRange).

Fixpoint Open (r : SortedRange) : result Cursor :=
  match r with
  | EmptyRange => Ok (leafCursor [])
  | Leaf _ _ elems => Ok (leafCursor elems)
  | disjointRanges _ _ segments =>
      match segments with
      | [] => Panic indexOutOfRange
      | s0 :: _ =>
          c <- Open s0 ;;
          Ok (disjointCursor 0 (Some c) segments)
      end
  end.

(** [nextCursor]: the incremented [c.next] and the cursor returned. *)
Definition nextCursor (next : nat) (segments : list SortedRange)
  : result (nat * option Cursor) :=
  let next := S next in
  if Nat.ltb next (length segments) then
    c <- Open (nth next segments EmptyRange) ;; Ok (next, Some c)
  else Ok (next, None).

(** Loops that the Go code runs until a condition fails, and calls through
    the [Cursor] interface, are unfolded at most [fuel] times; [None] means
    that the fuel ran out. *)
Definition fueled (A : Type) : Type := option (result A).

Definition fbind {A B : Type} (m : fueled A) (k : A -> fueled B) : fueled B :=
  match m with
  | Some (Ok a) => k a
  | Some (Panic msg) => Some (Panic msg)
  | None => None
  end.

Definition lift {A : Type} (m : result A) : fueled A := Some m.

Notation "x <~ m ;; k" := (fbind m (fun x => k))
  (at level 61, m at next level, right associativity).

Notation "' pat <~ m ;; k" := (fbind m (fun x => match x with pat => k end))
  (at level 61, pat pattern, m at next level, right associativity).

Fixpoint NextFuel (fuel : nat) (c : Cursor) : fueled (Element * Cursor) :=
  match fuel with
  | O => None
  | S fuel' =>
      match c with
      | leafCursor [] => Some (Ok (None, c))
      | leafCursor (x :: rest) => Some (Ok (Some x, leafCursor rest))
      | disjointCursor n None segments => Some (Ok (None, c))
      | disjointCursor n (Some cur) segments =>
          '(next, cur') <~ NextFuel fuel' cur ;;
          if isNil next then
            '(n', cur'') <~ lift (nextCursor n segments) ;;
            NextFuel fuel' (disjointCursor n' cur'' segments)
          else Some (Ok (next, disjointCursor n (Some cur') segments))
      end
  end.

(** Writing [xs] at the front of [buffer]. *)
Definition writeFront (xs : list Z) (buffer : list Element) : list Element :=
  map Some xs ++ skipn (length xs) buffer.

(** [Fill]: the count, the buffer after the call and the cursor after the
    call.  [fillLoop] is the [for] loop of [disjointCursor.Fill], entered
    with the local [next]; the slice [buffer[next:max]] handed to the inner
    cursor shares the buffer, so what the inner cursor writes lands at
    offset [next]. *)
Fixpoint FillFuel (fuel : nat) (c : Cursor) (buffer : list Element)
  : fueled (nat * list Element * Cursor) :=
  match fuel with
  | O => None
  | S fuel' =>
      match c with
      | leafCursor rest =>
          let k := Nat.min (length buffer) (length rest) in
          Some (Ok (k, writeFront (firstn k rest) buffer, leafCursor (skipn k rest)))
      | disjointCursor _ _ _ => fillLoop fuel' c buffer 0
      end
  end
with fillLoop (fuel : nat) (c : Cursor) (buffer : list Element) (next : nat)
  : fueled (nat * list Element * Cursor) :=
  match c with
  | disjointCursor n (Some cur) segments =>
      if Nat.ltb next (length buffer) then
        match fuel with
        | O => None
        | S fuel' =>
            '(filled, sub, cur') <~ FillFuel fuel' cur (skipn next buffer) ;;
            let buffer' := firstn next buffer ++ sub in
            let next' := (next + filled)%nat in
            if Nat.ltb next' (length buffer) then
              '(n', cur'') <~ lift (nextCursor n segments) ;;
              fillLoop fuel' (disjointCursor n' cur'' segments) buffer' next'
            else
              fillLoop fuel' (disjointCursor n (Some cur') segments) buffer' next'
        end
      else Some (Ok (next, buffer, c))
  | _ => Some (Ok (next, buffer, c))
  end.

(** Fuel that always suffices: a bound on the cursors still to be opened. *)
Fixpoint openSize (r : SortedRange) : nat :=
  match r with
  | disjointRanges _ _ segments =>
      S (fold_right (fun s acc => (S (openSize s) + acc)%nat) O segments)
  | _ => 1%nat
  end.

Definition pending (n : nat) (segments : list SortedRange) : nat :=
  fold_right (fun s acc => (S (openSize s) + acc)%nat) O (skipn (S n) segments).

Fixpoint cursorSize (c : Cursor) : nat :=
  match c with
  | leafCursor _ => 1%nat
  | disjointCursor n cur segments =>
      S (match cur with Some cu => cursorSize cu | None => O end + pending n segments)
  end.

Definition cursorFuel (c : Cursor) : nat := (2 * cursorSize c)%nat.

Definition Next (c : Cursor) : fueled (Element * Cursor) :=
  NextFuel (cursorFuel c) c.

Definition Fill (c : Cursor) (buffer : list Element)
  : fueled (nat * list Element * Cursor) :=
  FillFuel (cursorFuel c) c buffer.

(** The elements a cursor has yet to produce. *)
Fixpoint remaining (c : Cursor) : list Z :=
  match c with
  | leafCursor rest => rest
  | disjointCursor n None _ => []
  | disjointCursor n (Some cur) segments =>
      remaining cur ++ flat_map elements (skipn (S n) segments)
  end.

(** Every composite, at any depth, has at least one segment. *)
Fixpoint segmentsOk (r : SortedRange) : bool :=
  match r with
  | disjointRanges _ _ segments =>
      negb (Nat.eqb (length segments) 0) && forallb segmentsOk segments
  | _ => true
  end.

Fixpoint cursorOk (c : Cursor) : bool :=
  match c with
  | leafCursor _ => true
  | disjointCursor n cur segments =>
      forallb segmentsOk (skipn (S n) segments)
      && match cur with Some cu => cursorOk cu | None => true end
  end.

(** ** Induction over ranges *)

Section RangeInd.
Variable P : SortedRange -> Prop.
Hypothesis HEmpty : P EmptyRange.
Hypothesis HLeaf : forall first last elems, P (Leaf first last elems).
Hypothesis HDisjoint : forall first last segments,
    Forall P segments -> P (disjointRanges first last segments).

Fixpoint SortedRange_nested_ind (r : SortedRange) : P r :=
  match r with
  | EmptyRange => HEmpty
  | Leaf first last elems => HLeaf first last elems
  | disjointRanges first last segments =>
      HDisjoint first last segments
        ((fix all (rs : list SortedRange) : Forall P rs :=
            match rs with
            | [] => Forall_nil P
            | r' :: rs' => Forall_cons r' (SortedRange_nested_ind r') (all rs')
            end) segments)
  end.
End RangeInd.

(** ** Sequences of calls *)

(** [n] successive calls of [Next], and successive calls of [Fill] with
    fresh buffers of the given sizes. *)
Fixpoint nextN (n : nat) (c : Cursor) : fueled (list Element * Cursor) :=
  match n with
  | O => Some (Ok ([], c))
  | S n' =>
      '(x, c') <~ Next c ;;
      '(xs, c'') <~ nextN n' c' ;;
      Some (Ok (x :: xs, c''))
  end.

Fixpoint fillAll (sizes : list nat) (c : Cursor)
  : fueled (list (nat * list Element) * Cursor) :=
  match sizes with
  | [] => Some (Ok ([], c))
  | size :: sizes' =>
      '(count, buffer, c') <~ Fill c (repeat None size) ;;
      '(outs, c'') <~ fillAll sizes' c' ;;
      Some (Ok ((count, buffer) :: outs, c''))
  end.

(** What a sequence of [Fill] calls has written: the first [count] slots of
    each buffer. *)
Definition written (outs : list (nat * list Element)) : list Element :=
  flat_map (fun out => firstn (fst out) (snd out)) outs.

Definition nonNil (xs : list Element) : list Element :=
  filter (fun x => negb (isNil x)) xs.

Definition totalSize (sizes : list nat) : nat := fold_right Nat.add O sizes.

(** ** The invariant of the core *)

(** What every range handled by the core satisfies, at any depth: a leaf has
    elements and non-nil bounds, and its first bound is not before its first
    element; a composite has non-nil bounds and at least one segment, its
    segments are non-empty, and its cached [first] is not before the first
    bound of its first segment.  Well-formed ranges (sorted, with exact
    bounds) satisfy it. *)
Fixpoint inv (r : SortedRange) : bool :=
  match r with
  | EmptyRange => true
  | Leaf first last elems =>
      match first, last, elems with
      | Some c, Some _, h :: _ => h <=? c
      | _, _, _ => false
      end
  | disjointRanges first last segments =>
      match first, last, segments with
      | Some c, Some _, s0 :: _ =>
          forallb (fun s => inv s && (0 <? Limit s)) segments
          && match First s0 with Some c0 => c0 <=? c | None => false end
      | _, _, _ => false
      end
  end.

Definition sumLimits (segments : list SortedRange) : Z :=
  fold_right (fun s acc => Limit s + acc) 0 segments.

Definition segOk (s : SortedRange) : bool := inv s && (0 <? Limit s).

(** ** The loop of [Partition], and what is proved of it *)

(** The loop of [Partition] over a composite, as a function of its own. *)
Fixpoint scan (d : SortedRange) (first last : Element)
    (segments : list SortedRange) (e : Element) (o : Order)
    (i : nat) (rest : list SortedRange) {struct rest}
  : result (SortedRange * SortedRange) :=
  match rest with
  | [] => Ok (d, EmptyRange)
  | r :: rest' =>
      if isNil (First r) then Panic "r.First() is nil!"%string else
      if isNil (Last r) then Panic "r.Last() is nil!"%string else
      bm <- boundaryMatch o e (First r) ;;
      if bm then splitAt first last segments i r else
      im <- insideMatch o e (First r) (Last r) ;;
      if im then
        '(p1, p2) <- Partition r e o ;;
        rebuild first last segments i p1 p2
      else scan d first last segments e o (S i) rest'
  end.

(** What the specification asks of the parts [(l, r)] of [d] at the pivot
    [p]: together they are the sequence of [d], in order; under the
    before-or-equal order the left part holds the elements at or before the
    pivot and the right part the others. *)
Definition splits (d : SortedRange) (o : Order) (p : Z) (l r : SortedRange) : Prop :=
  elements l ++ elements r = elements d
  /\ (o = LessOrEqualOrder ->
      Forall (fun x => holds o x p = true) (elements l)
      /\ Forall (fun x => holds o x p = false) (elements r)).

(** What [Partition] is proved to do on a range [d] of the core whose first
    bound is [c], at a pivot [p]: it returns, keeps the invariant and the
    limit, and the first bounds of its parts are related to [c] and [p]. *)
Definition partitionOk (d : SortedRange) (o : Order) (p c : Z) : Prop :=
  exists l r,
    Partition d (Some p) o = Ok (l, r)
    /\ inv l = true /\ inv r = true
    /\ Limit l + Limit r = Limit d
    /\ (holds o c p = true -> 0 < Limit l /\ exists x, First l = Some x /\ x <= c)
    /\ (0 < Limit l -> exists x, First l = Some x /\ holds o x p = true)
    /\ (Limit l = 0 -> exists y, First r = Some y /\ y <= c).

(** ** One level of flattening *)

Definition expand (s : SortedRange) : list SortedRange :=
  match s with
  | disjointRanges _ _ segs => segs
  | _ => [s]
  end.

(** ** Well-formed ranges and the invariants I1, I2, I3 of composites *)

Definition eqElement (a b : Element) : bool :=
  match a, b with
  | Some x, Some y => x =? y
  | None, None => true
  | _, _ => false
  end.

Definition ltElement (a b : Element) : bool :=
  match a, b with
  | Some x, Some y => Less x y
  | _, _ => false
  end.

Fixpoint sorted (l : list Z) : bool :=
  match l with
  | x :: (y :: _) as t => (x <=? y) && sorted t
  | _ => true
  end.

(** I1: the last bound of each segment is strictly before the first bound of
    the next one. *)
Fixpoint I1 (segments : list SortedRange) : bool :=
  match segments with
  | s :: (s' :: _) as t => ltElement (Last s) (First s') && I1 t
  | _ => true
  end.

(** I1 on elements: every element of a segment is strictly before every
    element of the next one. *)
Fixpoint I1elements (segments : list SortedRange) : bool :=
  match segments with
  | s :: (s' :: _) as t =>
      forallb (fun x => forallb (fun y => Less x y) (elements s')) (elements s)
      && I1elements t
  | _ => true
  end.

(** I2: the cached bounds are the first bound of the first segment and the
    last bound of the last segment. *)
Definition I2 (first last : Element) (segments : list SortedRange) : bool :=
  match segments with
  | [] => false
  | s0 :: _ =>
      eqElement first (First s0) && eqElement last (Last (List.last segments s0))
  end.

(** I3: no segment is a composite. *)
Definition I3 (segments : list SortedRange) : bool :=
  forallb (fun s => negb (isDisjoint s)) segments.

(** A well-formed range produces a sorted sequence consistent with its
    bounds: a leaf is non-empty, sorted, with exact bounds; a composite has
    non-empty well-formed segments and satisfies I1 and I2. *)
Fixpoint wellFormed (r : SortedRange) : bool :=
  match r with
  | EmptyRange => true
  | Leaf first last elems =>
      match elems with
      | [] => false
      | h :: _ =>
          eqElement first (Some h) && eqElement last (Some (List.last elems h))
          && sorted elems
      end
  | disjointRanges first last segments =>
      forallb (fun s => wellFormed s && (0 <? Limit s)) segments
      && I2 first last segments && I1 segments
  end.

(** The bounds of a non-empty well-formed range enclose its elements. *)
Definition enclosed (r : SortedRange) : Prop :=
  exists lo hi, First r = Some lo /\ Last r = Some hi /\ lo <= hi
                /\ Forall (fun x => lo <= x <= hi) (elements r).

(** * Slices and sharing: [Partition] on the store

    The functions above compute on values.  In Go a composite is a pointer
    to a struct whose [segments] field is a slice: a window on a backing
    array that other slices may share.  This module models the store and
    runs [Partition] on it. *)
Module Store.

(** An interface value of type [SortedRange]: the sentinel, a range
    implemented outside merge.go (immutable), or a [*disjointRanges]. *)
Inductive iface : Type :=
| iEmpty
| iLeaf (first last : Element) (elems : list Z)
| iDisjoint (ptr : nat).

Record slice : Type := mkSlice { array : nat; offset : nat; len : nat; cap : nat }.

Record object : Type := mkObject { first : Element; last : Element; segments : slice }.

Record heap : Type := mkHeap { arrays : list (list iface); objects : list object }.

Definition emptyHeap : heap := mkHeap [] [].

Definition deref (h : heap) (p : nat) : result object :=
  match nth_error (objects h) p with
  | Some obj => Ok obj
  | None => Panic nilDeref
  end.

(** [s[i]] *)
Definition index (h : heap) (s : slice) (i : nat) : result iface :=
  if Nat.ltb i (len s) then
    match nth_error (nth (array s) (arrays h) []) (offset s + i) with
    | Some x => Ok x
    | None => Panic indexOutOfRange
    end
  else Panic indexOutOfRange.

(** [s[lo:hi]]: the same backing array; the capacity runs to its end. *)
Definition reslice (s : slice) (lo hi : nat) : result slice :=
  if Nat.leb lo hi && Nat.leb hi (cap s) then
    Ok (mkSlice (array s) (offset s + lo) (hi - lo) (cap s - lo))
  else Panic "slice bounds out of range"%string.

(** The elements a slice shows. *)
Definition contents (h : heap) (s : slice) : list iface :=
  firstn (len s) (skipn (offset s) (nth (array s) (arrays h) [])).

Fixpoint setNth {A : Type} (n : nat) (x : A) (l : list A) : list A :=
  match n, l with
  | _, [] => []
  | O, _ :: l' => x :: l'
  | S n', y :: l' => y :: setNth n' x l'
  end.

Fixpoint writeAt (at_ : nat) (xs : list iface) (arr : list iface) : list iface :=
  match xs with
  | [] => arr
  | x :: xs' => writeAt (S at_) xs' (setNth at_ x arr)
  end.

(** A composite literal [[]SortedRange{...}]: a new backing array. *)
Definition makeSlice (h : heap) (xs : list iface) : slice * heap :=
  (mkSlice (length (arrays h)) 0 (length xs) (length xs),
   mkHeap (arrays h ++ [xs]) (objects h)).

(** [append(s, xs...)]: when the capacity suffices the elements are
    written into the backing array of [s], behind its length; otherwise a
    new array is allocated (its capacity, left open by Go, is taken to be
    the length needed). *)
Definition append (h : heap) (s : slice) (xs : list iface) : slice * heap :=
  if Nat.leb (len s + length xs) (cap s) then
    (mkSlice (array s) (offset s) (len s + length xs) (cap s),
     mkHeap (setNth (array s)
               (writeAt (offset s + len s) xs (nth (array s) (arrays h) []))
               (arrays h))
            (objects h))
  else makeSlice h (contents h s ++ xs).

(** [&disjointRanges{first, last, segments}] *)
Definition new (h : heap) (obj : object) : iface * heap :=
  (iDisjoint (length (objects h)), mkHeap (arrays h) (objects h ++ [obj])).

Definition First (h : heap) (r : iface) : result Element :=
  match r with
  | iEmpty => Ok None
  | iLeaf first _ _ => Ok first
  | iDisjoint p => obj <- deref h p ;; Ok (first obj)
  end.

Definition Last (h : heap) (r : iface) : result Element :=
  match r with
  | iEmpty => Ok None
  | iLeaf _ last _ => Ok last
  | iDisjoint p => obj <- deref h p ;; Ok (last obj)
  end.

Definition ofLeaf (r : SortedRange) : iface :=
  match r with
  | Leaf first last elems => iLeaf first last elems
  | _ => iEmpty
  end.

(** [Limit]; calls through the interface are unfolded at most [fuel]
    times. *)
Fixpoint Limit (fuel : nat) (h : heap) (r : iface) : fueled Z :=
  match fuel with
  | O => None
  | S fuel' =>
      match r with
      | iEmpty => Some (Ok 0)
      | iLeaf _ _ elems => Some (Ok (Z.of_nat (length elems)))
      | iDisjoint p =>
          obj <~ lift (deref h p) ;;
          (fix sum (limit : Z) (rs : list iface) {struct rs} : fueled Z :=
             match rs with
             | [] => Some (Ok limit)
             | r' :: rs' => n <~ Limit fuel' h r' ;; sum (limit + n) rs'
             end) 0 (contents h (segments obj))
      end
  end.

(** The value a reference stands for in a store. *)
Fixpoint value (fuel : nat) (h : heap) (r : iface) : fueled SortedRange :=
  match fuel with
  | O => None
  | S fuel' =>
      match r with
      | iEmpty => Some (Ok EmptyRange)
      | iLeaf first last elems => Some (Ok (Leaf first last elems))
      | iDisjoint p =>
          obj <~ lift (deref h p) ;;
          segs <~ (fix all (rs : list iface) {struct rs} : fueled (list SortedRange) :=
                     match rs with
                     | [] => Some (Ok [])
                     | r' :: rs' =>
                         v <~ value fuel' h r' ;;
                         vs <~ all rs' ;;
                         Some (Ok (v :: vs))
                     end) (contents h (segments obj)) ;;
          Some (Ok (disjointRanges (first obj) (last obj) segs))
      end
  end.

(** merge.go lines 54-63 *)
Definition splitAt (h : heap) (d : object) (i : nat) (fr : Element)
  : result (iface * iface * heap) :=
  match i with
  | O => Panic indexOutOfRange
  | S j =>
      rj <- index h (segments d) j ;;
      lj <- Last h rj ;;
      s1 <- reslice (segments d) 0 i ;;
      let (r1, h1) := new h (mkObject (first d) lj s1) in
      s2 <- reslice (segments d) i (len (segments d)) ;;
      let (r2, h2) := new h1 (mkObject fr (last d) s2) in
      Ok (r1, r2, h2)
  end.

(** merge.go lines 67-103, after [p1, p2 := r.Partition(e, o)] and with
    [limit2 = p2.Limit()]. *)
Definition rebuild (h : heap) (d : object) (i : nat) (p1 p2 : iface) (limit2 : Z)
  : result (iface * iface * heap) :=
  if limit2 =? 0 then
    l1 <- Last h p1 ;;
    if isNil l1 then Panic "p1.Last() is nil!"%string else
    s0i <- reslice (segments d) 0 i ;;
    let (s1, h1) := append h s0i [p1] in
    let (r1, h2) := new h1 (mkObject (first d) l1 s1) in
    if Nat.ltb (i + 1) (len (segments d)) then
      rn <- index h2 (segments d) (i + 1) ;;
      fn <- First h2 rn ;;
      s2 <- reslice (segments d) (i + 1) (len (segments d)) ;;
      let (r2, h3) := new h2 (mkObject fn (last d) s2) in
      Ok (r1, r2, h3)
    else Ok (r1, iEmpty, h2)
  else
    l1 <- Last h p1 ;;
    if isNil l1 then Panic "p1.Last() is nil!"%string else
    f2 <- First h p2 ;;
    if isNil f2 then Panic "p2.First() is nil!"%string else
    s0i <- reslice (segments d) 0 i ;;
    let (s1, h1) := append h s0i [p1] in
    let (r1, h2) := new h1 (mkObject (first d) l1 s1) in
    let (lit, h3) := makeSlice h2 [p2] in
    tail <- reslice (segments d) (i + 1) (len (segments d)) ;;
    let (s2, h4) := append h3 lit (contents h3 tail) in
    let (r2, h5) := new h4 (mkObject f2 (last d) s2) in
    Ok (r1, r2, h5).

(** [Partition] on the store; [scan k i] is the [for] loop at index [i]
    with [k] segments left to visit. *)
Fixpoint Partition (fuel : nat) (h : heap) (d : iface) (e : Element) (o : Order)
  : fueled (iface * iface * heap) :=
  match fuel with
  | O => None
  | S fuel' =>
      match d with
      | iEmpty => Some (Ok (iEmpty, iEmpty, h))
      | iLeaf _ _ elems =>
          '(l, r) <~ lift (leafPartition elems e o) ;;
          Some (Ok (ofLeaf l, ofLeaf r, h))
      | iDisjoint p =>
          obj <~ lift (deref h p) ;;
          c <~ lift (callOrder o (first obj) e) ;;
          if negb c then Some (Ok (iEmpty, d, h)) else
          (fix scan (k i : nat) {struct k} : fueled (iface * iface * heap) :=
             match k with
             | O => Some (Ok (d, iEmpty, h))
             | S k' =>
                 r <~ lift (index h (segments obj) i) ;;
                 fr <~ lift (First h r) ;;
                 lr <~ lift (Last h r) ;;
                 if isNil fr then Some (Panic "r.First() is nil!"%string) else
                 if isNil lr then Some (Panic "r.Last() is nil!"%string) else
                 bm <~ lift (boundaryMatch o e fr) ;;
                 if bm then lift (splitAt h obj i fr) else
                 im <~ lift (insideMatch o e fr lr) ;;
                 if im then
                   '(p1, p2, h1) <~ Partition fuel' h r e o ;;
                   limit2 <~ Limit fuel' h1 p2 ;;
                   lift (rebuild h1 obj i p1 p2 limit2)
                 else scan k' (S i)
             end) (len (segments obj)) O
      end
  end.

End Store.

(** The composite that the disjoint case of [merge] allocates for the leaves
    [{1,2,3}] and [{5,6}]: the literal [[]SortedRange{a, b}] and the struct. *)
Definition publishedHeap : Store.iface * Store.heap :=
  let a := Store.iLeaf (Some 1) (Some 3) [1; 2; 3] in
  let b := Store.iLeaf (Some 5) (Some 6) [5; 6] in
  let (segments, h) := Store.makeSlice Store.emptyHeap [a; b] in
  Store.new h (Store.mkObject (Some 1) (Some 6) segments).

(** ** Predicates and drivers for the further properties *)

(** A segment that [flatten] leaves without nesting: not a composite, or a
    composite none of whose segments is a composite. *)
Definition flatSegment (s : SortedRange) : bool :=
  match s with
  | disjointRanges _ _ segs => I3 segs
  | _ => true
  end.

(** A call on a cursor: [Next()], or [Fill] with a fresh buffer of the given
    length. *)
Inductive call : Type :=
| CallNext
| CallFill (size : nat).

(** The number of elements a call asks for. *)
Definition demand (calls : list call) : nat :=
  fold_right (fun k acc => (match k with CallNext => 1 | CallFill size => size end + acc)%nat)
             O calls.

(** The calls run in turn on one cursor; the result is what they produced, in
    order: the element returned by [Next] unless it is nil, the first [count]
    slots of the buffer for [Fill]. *)
Fixpoint runCalls (calls : list call) (c : Cursor) : fueled (list Element * Cursor) :=
  match calls with
  | [] => Some (Ok ([], c))
  | CallNext :: calls' =>
      '(x, c') <~ Next c ;;
      '(out, c'') <~ runCalls calls' c' ;;
      Some (Ok ((if isNil x then [] else [x]) ++ out, c''))
  | CallFill size :: calls' =>
      '(count, buffer, c') <~ Fill c (repeat None size) ;;
      '(out, c'') <~ runCalls calls' c' ;;
      Some (Ok (firstn count buffer ++ out, c''))
  end.

(** No segment of a composite of [r], at any depth, has the pivot [p] as its
    first or last bound. *)
Fixpoint boundsAvoid (p : Z) (r : SortedRange) : bool :=
  match r with
  | disjointRanges _ _ segments =>
      forallb (fun s => negb (eqElement (First s) (Some p))
                        && negb (eqElement (Last s) (Some p))
                        && boundsAvoid p s) segments
  | _ => true
  end.

(** The pivot can be compared with the bounds of the segments without
    meeting one of them: the order is before-or-equal, or no segment bound is
    the pivot. *)
Definition clearOf (o : Order) (p : Z) (d : SortedRange) : Prop :=
  o = LessOrEqualOrder \/ boundsAvoid p d = true.

(** The parts [(l, r)] of a well-formed range [d] keep its form: both are
    well-formed, a non-empty left part starts at the first bound of [d] and a
    non-empty right part ends at its last bound. *)
Definition keepsForm (d l r : SortedRange) : Prop :=
  wellFormed l = true /\ wellFormed r = true
  /\ (0 < Limit l -> First l = First d)
  /\ (0 < Limit r -> Last r = Last d).

(** The value of a reference that is not a [*disjointRanges]. *)
Definition ofIface (x : Store.iface) : SortedRange :=
  match x with
  | Store.iLeaf first last elems => Leaf first last elems
  | _ => EmptyRange
  end.

Definition leafy (x : Store.iface) : bool :=
  match x with
  | Store.iDisjoint _ => false
  | _ => true
  end.

(** A slice lies within its backing array. *)
Definition sliceOk (h : Store.heap) (s : Store.slice) : Prop :=
  (Store.array s < length (Store.arrays h))%nat
  /\ (Store.len s <= Store.cap s)%nat
  /\ (Store.offset s + Store.cap s
      <= length (nth (Store.array s) (Store.arrays h) []))%nat.

(** The outcome [m] of code run on the store is the outcome [v] of the same
    code run on values: the same panic, or references that stand, in the
    store they come with, for the values returned. *)
Definition refines (m : fueled (Store.iface * Store.iface * Store.heap))
    (v : result (SortedRange * SortedRange)) : Prop :=
  match v with
  | Ok (vl, vr) =>
      exists l r h', m = Some (Ok (l, r, h'))
                     /\ Store.value 2 h' l = Some (Ok vl)
                     /\ Store.value 2 h' r = Some (Ok vr)
  | Panic msg => m = Some (Panic msg)
  end.

(** ** The limit of a composite as a Go [int] *)

(** The least and the greatest 64-bit [int]. *)
Definition minInt : Z := - 2 ^ 63.
Definition maxInt : Z := 2 ^ 63 - 1.

(** The [int] left by an operation whose result on the integers is [z]:
    signed arithmetic wraps around in Go. *)
Definition wrapInt (z : Z) : Z := (z - minInt) mod 2 ^ 64 + minInt.

(** [disjointRanges.Limit] (merge.go lines 33-39) in [int] arithmetic:
    [limit := 0], then [limit += r.Limit()] for each segment in turn, over
    the values [limits] that the calls [r.Limit()] return. *)
Definition limitLoop (limits : list Z) : Z :=
  fold_left (fun limit n => wrapInt (limit + n)) limits 0.

Definition sumZ (l : list Z) : Z := fold_right Z.add 0 l.

(** * Properties *)

(** ** The cursor produces the element sequence *)

Lemma pending_step n segments :
  (S n < length segments)%nat ->
  pending n segments =
  (S (openSize (nth (S n) segments EmptyRange)) + pending (S n) segments)%nat.
Proof.
  unfold pending. revert n. induction segments as [|s segs IH]; intros n Hn.
  - simpl in Hn. lia.
  - destruct n as [|n].
    + destruct segs as [|s1 segs]; simpl in *; [lia|reflexivity].
    + simpl in Hn. change (skipn (S (S n)) (s :: segs)) with (skipn (S n) segs).
      change (skipn (S (S (S n))) (s :: segs)) with (skipn (S (S n)) segs).
      change (nth (S (S n)) (s :: segs) EmptyRange) with (nth (S n) segs EmptyRange).
      apply IH. lia.
Qed.

Lemma skipn_step {A} (d : A) n (l : list A) :
  (n < length l)%nat -> skipn n l = nth n l d :: skipn (S n) l.
Proof.
  revert n. induction l as [|x l IH]; intros n Hn; simpl in Hn; [lia|].
  destruct n as [|n]; [reflexivity|]. simpl. apply IH. lia.
Qed.

Lemma Open_ok r :
  segmentsOk r = true ->
  exists c, Open r = Ok c /\ remaining c = elements r /\ cursorOk c = true
            /\ (cursorSize c <= openSize r)%nat /\ (1 <= cursorSize c)%nat.
Proof.
  induction r as [| first last elems | first last segments IH]
    using SortedRange_nested_ind; intros Hok.
  - exists (leafCursor []). simpl. repeat split; lia.
  - exists (leafCursor elems). simpl. repeat split; lia.
  - simpl in Hok. apply andb_true_iff in Hok as [Hlen Hall].
    destruct segments as [|s0 segs]; [discriminate|].
    simpl in Hall. apply andb_true_iff in Hall as [H0 Hrest].
    inversion IH as [|? ? IH0 _]; subst.
    destruct (IH0 H0) as (c & Ho & Hr & Hc & Hs & H1).
    exists (disjointCursor 0 (Some c) (s0 :: segs)).
    simpl. rewrite Ho. simpl. repeat split.
    + now rewrite Hr.
    + now rewrite Hrest, Hc.
    + unfold pending. simpl. lia.
    + lia.
Qed.

Lemma flat_map_skipn_short n (segments : list SortedRange) :
  (length segments <= n)%nat -> flat_map elements (skipn n segments) = [].
Proof. intros H. now rewrite skipn_all2. Qed.

Lemma cursorSize_pos c : (1 <= cursorSize c)%nat.
Proof. destruct c; simpl; lia. Qed.

(** What [nextCursor] returns on a cursor whose pending segments are sound. *)
Lemma nextCursor_ok n segments :
  forallb segmentsOk (skipn (S n) segments) = true ->
  exists cu, nextCursor n segments = Ok (S n, cu)
    /\ remaining (disjointCursor (S n) cu segments)
       = flat_map elements (skipn (S n) segments)
    /\ cursorOk (disjointCursor (S n) cu segments) = true
    /\ (cursorSize (disjointCursor (S n) cu segments) <= S (pending n segments))%nat.
Proof.
  intros Hall. unfold nextCursor.
  destruct (Nat.ltb (S n) (length segments)) eqn:Hlt.
  - apply Nat.ltb_lt in Hlt.
    pose proof (skipn_step EmptyRange (S n) segments Hlt) as Hsk.
    rewrite Hsk in Hall.
    cbn [forallb] in Hall. apply andb_true_iff in Hall as [Hs Hrest].
    destruct (Open_ok _ Hs) as (c & Ho & Hr & Hc & Hsz & _).
    rewrite Ho. simpl bind.
    exists (Some c). repeat split.
    + cbn [remaining]. rewrite Hr, Hsk. reflexivity.
    + cbn [cursorOk]. now rewrite Hrest, Hc.
    + rewrite (pending_step n segments Hlt). cbn [cursorSize]. lia.
  - apply Nat.ltb_ge in Hlt.
    exists None. repeat split.
    + cbn [remaining]. now rewrite flat_map_skipn_short.
    + cbn [cursorOk]. rewrite skipn_all2 by lia. reflexivity.
    + cbn [cursorSize]. unfold pending.
      rewrite (skipn_all2 (n:=S (S n))) by lia. simpl. lia.
Qed.

Lemma NextFuel_spec fuel :
  forall c, (cursorSize c <= fuel)%nat -> cursorOk c = true ->
  exists c', NextFuel fuel c = Some (Ok (hd_error (remaining c), c'))
    /\ remaining c' = tl (remaining c)
    /\ cursorOk c' = true
    /\ (cursorSize c' <= cursorSize c)%nat.
Proof.
  induction fuel as [|fuel IH]; intros c Hfuel Hok.
  - pose proof (cursorSize_pos c). lia.
  - destruct c as [rest | n [cur|] segments].
    + destruct rest as [|x rest].
      * exists (leafCursor []). simpl. repeat split; lia.
      * exists (leafCursor rest). simpl. repeat split; lia.
    + cbn [cursorOk] in Hok. apply andb_true_iff in Hok as [Hsegs Hcur].
      cbn [cursorSize] in Hfuel.
      destruct (IH cur) as (cur' & Hn & Hr & Hc & Hs); [lia|assumption|].
      cbn [NextFuel]. rewrite Hn. cbn [fbind].
      destruct (remaining cur) as [|x xs] eqn:Hrem.
      * cbn [hd_error isNil].
        destruct (nextCursor_ok n segments Hsegs) as (cu & Hnc & Hr2 & Hc2 & Hs2).
        rewrite Hnc. cbn [lift fbind].
        destruct (IH (disjointCursor (S n) cu segments)) as (c' & Hn' & Hr' & Hc' & Hs');
          [pose proof (cursorSize_pos cur); lia | assumption |].
        exists c'. rewrite Hn', Hr2. cbn [remaining]. rewrite Hrem. cbn [app].
        repeat split; try assumption.
        -- now rewrite Hr', Hr2.
        -- cbn [cursorSize]. pose proof (cursorSize_pos cur). lia.
      * cbn [hd_error isNil].
        exists (disjointCursor n (Some cur') segments).
        cbn [remaining cursorOk cursorSize]. rewrite Hrem, Hr, Hsegs, Hc.
        repeat split. lia.
    + exists (disjointCursor n None segments). simpl. repeat split; try lia.
      exact Hok.
Qed.

Lemma writeFront_nil buffer : writeFront [] buffer = buffer.
Proof. reflexivity. Qed.

Lemma writeFront_length xs buffer :
  (length xs <= length buffer)%nat -> length (writeFront xs buffer) = length buffer.
Proof.
  intros H. unfold writeFront.
  rewrite length_app, length_map, length_skipn. lia.
Qed.

(** Two successive writes into a buffer, the second one behind the first. *)
Lemma write_twice next (xs ys : list Z) (buffer : list Element) :
  (next + length xs <= length buffer)%nat ->
  let buffer' := firstn next buffer ++ writeFront xs (skipn next buffer) in
  firstn (next + length xs) buffer' ++ writeFront ys (skipn (next + length xs) buffer')
  = firstn next buffer ++ writeFront (xs ++ ys) (skipn next buffer).
Proof.
  intros H buffer'.
  assert (Hn : length (firstn next buffer) = next) by (rewrite length_firstn; lia).
  assert (Hf : firstn (next + length xs) buffer' = firstn next buffer ++ map Some xs).
  { unfold buffer', writeFront.
    rewrite firstn_app, Hn.
    rewrite (firstn_all2 (n:=next + length xs)) by lia.
    replace (next + length xs - next)%nat with (length (map Some xs))
      by (rewrite length_map; lia).
    rewrite firstn_app, Nat.sub_diag, firstn_all. simpl. now rewrite app_nil_r. }
  assert (Hs : skipn (next + length xs) buffer' = skipn (length xs) (skipn next buffer)).
  { unfold buffer', writeFront.
    rewrite skipn_app, Hn.
    rewrite (skipn_all2 (n:=next + length xs)) by lia.
    replace (next + length xs - next)%nat with (length (map Some xs))
      by (rewrite length_map; lia).
    rewrite skipn_app, Nat.sub_diag, skipn_all. reflexivity. }
  rewrite Hf, Hs. unfold writeFront.
  rewrite map_app, length_app, skipn_skipn, <- !app_assoc.
  now rewrite (Nat.add_comm (length ys)).
Qed.

Lemma fillLoop_full fuel c buffer next :
  (length buffer <= next)%nat -> fillLoop fuel c buffer next = Some (Ok (next, buffer, c)).
Proof.
  intros H. apply Nat.ltb_ge in H.
  destruct fuel, c as [|n [cur|] segments]; cbn [fillLoop]; now rewrite ?H.
Qed.

Lemma fillLoop_exhausted fuel n segments buffer next :
  fillLoop fuel (disjointCursor n None segments) buffer next
  = Some (Ok (next, buffer, disjointCursor n None segments)).
Proof. destruct fuel; reflexivity. Qed.

Lemma min_split (next k1 size l r : nat) :
  (next + k1 < size)%nat -> k1 = l ->
  Nat.min (size - next) (l + r) = (k1 + Nat.min (size - (next + k1)) r)%nat.
Proof. intros. lia. Qed.

Lemma FillFuel_spec fuel :
  (forall c buffer, (2 * cursorSize c <= fuel)%nat -> cursorOk c = true ->
     let k := Nat.min (length buffer) (length (remaining c)) in
     exists c', FillFuel fuel c buffer
                = Some (Ok (k, writeFront (firstn k (remaining c)) buffer, c'))
       /\ remaining c' = skipn k (remaining c)
       /\ cursorOk c' = true
       /\ (cursorSize c' <= cursorSize c)%nat)
  /\
  (forall n cur segments buffer next,
     let c := disjointCursor n cur segments in
     (2 * cursorSize c <= S fuel)%nat -> cursorOk c = true ->
     (next <= length buffer)%nat ->
     let k := Nat.min (length buffer - next) (length (remaining c)) in
     exists c', fillLoop fuel c buffer next
                = Some (Ok ((next + k)%nat,
                            firstn next buffer
                              ++ writeFront (firstn k (remaining c)) (skipn next buffer),
                            c'))
       /\ remaining c' = skipn k (remaining c)
       /\ cursorOk c' = true
       /\ (cursorSize c' <= cursorSize c)%nat).
Proof.
  induction fuel as [|fuel [IH1 IH2]].
  - split.
    + intros c buffer Hf. pose proof (cursorSize_pos c). lia.
    + intros n cur segments buffer next c Hf. pose proof (cursorSize_pos c). lia.
  - split.
    + intros c buffer Hf Hok k.
      destruct c as [rest | n cur segments].
      * exists (leafCursor (skipn k rest)). cbn. repeat split; lia.
      * cbn [FillFuel].
        destruct (IH2 n cur segments buffer O Hf Hok) as (c' & Hl & Hr & Hc & Hs); [lia|].
        rewrite Nat.sub_0_r in Hl, Hr. cbn in Hl.
        exists c'. rewrite Hl. cbn. repeat split; assumption.
    + intros n cur segments buffer next c Hf Hok Hnext k.
      destruct cur as [cur|].
      2:{ exists c. subst k c. rewrite fillLoop_exhausted.
          cbn [remaining length]. rewrite Nat.min_0_r.
          cbn [firstn skipn]. rewrite Nat.add_0_r, writeFront_nil, firstn_skipn.
          repeat split; [assumption | lia]. }
      destruct (Nat.ltb next (length buffer)) eqn:Hlt.
      2:{ apply Nat.ltb_ge in Hlt. exists c. subst k.
          rewrite fillLoop_full by assumption.
          replace (length buffer - next)%nat with O by lia.
          cbn [Nat.min firstn skipn].
          rewrite Nat.add_0_r, writeFront_nil, firstn_skipn.
          repeat split; [assumption | lia]. }
      subst c. cbn [fillLoop]. rewrite Hlt.
      apply Nat.ltb_lt in Hlt. cbn [cursorOk] in Hok. apply andb_true_iff in Hok as [Hsegs Hcur].
      cbn [cursorSize] in Hf.
      destruct (IH1 cur (skipn next buffer)) as (cur' & Hfill & Hr1 & Hc1 & Hs1);
        [lia | assumption |].
      rewrite length_skipn in Hfill, Hr1.
      set (k1 := Nat.min (length buffer - next) (length (remaining cur))) in *.
      rewrite Hfill. cbn [fbind].
      set (rest := flat_map elements (skipn (S n) segments)).
      assert (Hk1 : length (firstn k1 (remaining cur)) = k1)
        by (rewrite length_firstn; lia).
      destruct (Nat.ltb (next + k1) (length buffer)) eqn:Hlt2.
      * apply Nat.ltb_lt in Hlt2.
        assert (Hk1' : k1 = length (remaining cur)) by lia.
        destruct (nextCursor_ok n segments Hsegs) as (cu & Hnc & Hr2 & Hc2 & Hs2).
        rewrite Hnc. cbn [lift fbind].
        set (buffer' := firstn next buffer
                          ++ writeFront (firstn k1 (remaining cur)) (skipn next buffer)).
        assert (Hlen' : length buffer' = length buffer).
        { unfold buffer'. rewrite length_app, writeFront_length, length_firstn, length_skipn;
            [lia | rewrite length_skipn; lia]. }
        destruct (IH2 (S n) cu segments buffer' (next + k1)%nat)
          as (c' & Hl & Hr' & Hc' & Hs');
          [ pose proof (cursorSize_pos cur); lia | assumption | lia |].
        rewrite Hlen', Hr2 in Hl, Hr'. fold rest in Hl, Hr'.
        set (k2 := Nat.min (length buffer - (next + k1)) (length rest)) in *.
        exists c'. rewrite Hl.
        assert (Hk : k = (k1 + k2)%nat).
        { subst k. unfold k2. cbn [remaining]. fold rest. rewrite length_app.
          now apply min_split. }
        rewrite Hk. cbn [remaining]. fold rest.
        assert (Hk2 : (k2 <= length rest)%nat) by (unfold k2; clear; lia).
        assert (Hfn : firstn (k1 + k2) (remaining cur ++ rest)
                      = firstn k1 (remaining cur) ++ firstn k2 rest).
        { rewrite firstn_app. rewrite (firstn_all2 (n:=k1 + k2)) by lia.
          rewrite (firstn_all2 (n:=k1)) by lia. do 2 f_equal. lia. }
        rewrite Hfn.
        pose proof (write_twice next (firstn k1 (remaining cur)) (firstn k2 rest) buffer)
          as Hw.
        rewrite Hk1 in Hw. cbv zeta in Hw. fold buffer' in Hw.
        rewrite Hw by lia. rewrite Nat.add_assoc.
        repeat split.
        -- rewrite Hr'. rewrite skipn_app.
           rewrite (skipn_all2 (n:=k1 + k2)) by lia. cbn [app]. f_equal. lia.
        -- assumption.
        -- cbn [cursorSize]. pose proof (cursorSize_pos cur). lia.
      * apply Nat.ltb_ge in Hlt2.
        assert (Hk1' : k1 = (length buffer - next)%nat) by lia.
        assert (Hle : (k1 <= length (remaining cur))%nat) by lia.
        set (buffer' := firstn next buffer
                          ++ writeFront (firstn k1 (remaining cur)) (skipn next buffer)).
        assert (Hlen' : length buffer' = length buffer).
        { unfold buffer'.
          rewrite length_app, writeFront_length, length_firstn, length_skipn;
            [lia | rewrite length_skipn; lia]. }
        rewrite fillLoop_full by lia.
        exists (disjointCursor n (Some cur') segments).
        assert (Hk : k = k1).
        { subst k. cbn [remaining]. rewrite length_app. lia. }
        rewrite Hk. cbn [remaining]. fold rest.
        rewrite firstn_app. replace (k1 - length (remaining cur))%nat with O by lia.
        cbn [firstn]. rewrite app_nil_r. fold buffer'.
        repeat split.
        -- rewrite Hr1, skipn_app.
           replace (k1 - length (remaining cur))%nat with O by lia. reflexivity.
        -- cbn [cursorOk]. now rewrite Hsegs, Hc1.
        -- cbn [cursorSize]. lia.
Qed.

Lemma skipn_repeat_same {A} (x : A) k n : skipn k (repeat x n) = repeat x (n - k).
Proof.
  revert k. induction n as [|n IH]; intros [|k]; cbn; try reflexivity. apply IH.
Qed.

Lemma Next_spec c :
  cursorOk c = true ->
  exists c', Next c = Some (Ok (hd_error (remaining c), c'))
    /\ remaining c' = tl (remaining c) /\ cursorOk c' = true.
Proof.
  intros Hok. unfold Next, cursorFuel.
  destruct (NextFuel_spec (2 * cursorSize c) c) as (c' & H1 & H2 & H3 & _);
    [lia | assumption |].
  now exists c'.
Qed.

Lemma Fill_spec c buffer :
  cursorOk c = true ->
  let k := Nat.min (length buffer) (length (remaining c)) in
  exists c', Fill c buffer = Some (Ok (k, writeFront (firstn k (remaining c)) buffer, c'))
    /\ remaining c' = skipn k (remaining c) /\ cursorOk c' = true.
Proof.
  intros Hok k. unfold Fill, cursorFuel.
  destruct (proj1 (FillFuel_spec (2 * cursorSize c)) c buffer) as (c' & H1 & H2 & H3 & _);
    [lia | assumption |].
  now exists c'.
Qed.

Lemma nextN_spec n :
  forall c, cursorOk c = true ->
  exists c', nextN n c
             = Some (Ok (map Some (firstn n (remaining c))
                           ++ repeat None (n - length (remaining c)), c'))
    /\ remaining c' = skipn n (remaining c) /\ cursorOk c' = true.
Proof.
  induction n as [|n IH]; intros c Hok.
  - exists c. cbn. repeat split; assumption.
  - destruct (Next_spec c Hok) as (c1 & Hn & Hr & Hc).
    destruct (IH c1 Hc) as (c2 & Hn2 & Hr2 & Hc2).
    exists c2. cbn [nextN]. rewrite Hn. cbn [fbind]. rewrite Hn2. cbn [fbind].
    rewrite Hr2, Hr.
    destruct (remaining c) as [|x xs]; cbn.
    + rewrite firstn_nil, skipn_nil, Nat.sub_0_r. cbn. repeat split; assumption.
    + repeat split; assumption.
Qed.

Lemma fillAll_spec sizes :
  forall c, cursorOk c = true ->
  exists outs c', fillAll sizes c = Some (Ok (outs, c'))
    /\ written outs = map Some (firstn (totalSize sizes) (remaining c))
    /\ Forall2 (fun size out =>
                  (fst out <= size)%nat
                  /\ snd out = firstn (fst out) (snd out) ++ repeat None (size - fst out))
               sizes outs
    /\ remaining c' = skipn (totalSize sizes) (remaining c)
    /\ cursorOk c' = true.
Proof.
  induction sizes as [|size sizes IH]; intros c Hok.
  - exists [], c. cbn. repeat split; [constructor | assumption].
  - destruct (Fill_spec c (repeat None size) Hok) as (c1 & Hf & Hr & Hc).
    rewrite repeat_length in Hf, Hr.
    set (k := Nat.min size (length (remaining c))) in *.
    destruct (IH c1 Hc) as (outs & c2 & Hf2 & Hw & Hall & Hr2 & Hc2).
    assert (Hk : length (firstn k (remaining c)) = k)
      by (rewrite length_firstn; unfold k; lia).
    assert (Hfront : firstn k (writeFront (firstn k (remaining c)) (repeat None size))
                     = map Some (firstn k (remaining c))).
    { unfold writeFront. rewrite firstn_app, length_map, Hk, Nat.sub_diag.
      cbn [firstn]. rewrite app_nil_r. apply firstn_all2. rewrite length_map. lia. }
    exists ((k, writeFront (firstn k (remaining c)) (repeat None size)) :: outs), c2.
    cbn [fillAll]. rewrite Hf. cbn [fbind]. rewrite Hf2. cbn [fbind].
    split; [reflexivity|]. repeat split.
    + unfold written in *. cbn [flat_map fst snd]. rewrite Hw, Hr, Hfront, <- map_app.
      f_equal. cbn [totalSize fold_right]. fold (totalSize sizes).
      destruct (Nat.le_gt_cases size (length (remaining c))) as [Hle|Hgt].
      * replace k with size by (unfold k; lia).
        rewrite <- (firstn_skipn size (firstn (size + totalSize sizes) (remaining c))).
        rewrite firstn_firstn. replace (Nat.min size (size + totalSize sizes)) with size by lia.
        f_equal. rewrite skipn_firstn_comm. f_equal. lia.
      * replace k with (length (remaining c)) by (unfold k; lia).
        rewrite firstn_all, skipn_all, firstn_nil, app_nil_r.
        symmetry. apply firstn_all2. lia.
    + constructor; [|assumption]. cbn [fst snd]. split; [unfold k; lia|].
      unfold Element in *. rewrite Hfront. unfold writeFront at 1. rewrite Hk. f_equal.
      rewrite skipn_repeat_same. reflexivity.
    + rewrite Hr2, Hr, skipn_skipn. cbn [totalSize fold_right]. fold (totalSize sizes).
      destruct (Nat.le_gt_cases size (length (remaining c))) as [Hle|Hgt].
      * f_equal. unfold k. lia.
      * rewrite !skipn_all2; [reflexivity | lia | unfold k; lia].
    + assumption.
Qed.

Lemma nonNil_prefix (l : list Z) m : nonNil (map Some l ++ repeat None m) = map Some l.
Proof.
  unfold nonNil. rewrite filter_app.
  assert (H1 : filter (fun x : Element => negb (isNil x)) (map Some l) = map Some l)
    by (induction l as [|x l IH]; cbn; [reflexivity | now f_equal]).
  assert (H2 : filter (fun x : Element => negb (isNil x)) (repeat None m) = [])
    by (induction m as [|m IH]; cbn; [reflexivity | assumption]).
  unfold Element in *. now rewrite H1, H2, app_nil_r.
Qed.

(** ** Limits and the invariant *)

Lemma Limit_disjoint first last segments :
  Limit (disjointRanges first last segments) = sumLimits segments.
Proof.
  cbn [Limit].
  enough (H : forall acc,
             (fix sum (limit : Z) (rs : list SortedRange) {struct rs} : Z :=
                match rs with
                | [] => limit
                | r' :: rs' => sum (limit + Limit r') rs'
                end) acc segments = acc + sumLimits segments) by now rewrite H.
  induction segments as [|s segs IH]; intros acc; cbn [sumLimits fold_right].
  - lia.
  - rewrite IH. unfold sumLimits. lia.
Qed.

Lemma sumLimits_app xs ys : sumLimits (xs ++ ys) = sumLimits xs + sumLimits ys.
Proof.
  unfold sumLimits. induction xs as [|x xs IH]; cbn [app fold_right]; lia.
Qed.

Lemma Limit_nonneg r : 0 <= Limit r.
Proof.
  induction r as [| first last elems | first last segments IH]
    using SortedRange_nested_ind.
  - reflexivity.
  - cbn. lia.
  - rewrite Limit_disjoint.
    induction IH as [|s segs Hs _ IHs]; cbn [sumLimits fold_right]; [lia|].
    fold (sumLimits segs). lia.
Qed.

Lemma sumLimits_nonneg segments : 0 <= sumLimits segments.
Proof.
  induction segments as [|s segs IH]; cbn; [lia|].
  fold (sumLimits segs). pose proof (Limit_nonneg s). lia.
Qed.

Lemma segOk_iff s : segOk s = true <-> inv s = true /\ 0 < Limit s.
Proof. unfold segOk. rewrite andb_true_iff, Z.ltb_lt. reflexivity. Qed.

Lemma inv_disjoint first last segments :
  inv (disjointRanges first last segments) = true <->
  exists c l s0 tl c0,
    first = Some c /\ last = Some l /\ segments = s0 :: tl
    /\ forallb segOk segments = true /\ First s0 = Some c0 /\ c0 <= c.
Proof.
  cbn [inv]. fold segOk. split.
  - destruct first as [c|]; [|discriminate]. destruct last as [l|]; [|discriminate].
    destruct segments as [|s0 tl]; [discriminate|].
    intros H. apply andb_true_iff in H as [Hall Hc].
    destruct (First s0) as [c0|] eqn:Hf; [|discriminate].
    apply Z.leb_le in Hc. exists c, l, s0, tl, c0. repeat split; assumption.
  - intros (c & l & s0 & tl & c0 & -> & -> & -> & Hall & Hf & Hc).
    rewrite Hall, Hf. apply Z.leb_le in Hc. now rewrite Hc.
Qed.

Lemma sumLimits_pos segments :
  segments <> [] -> forallb segOk segments = true -> 0 < sumLimits segments.
Proof.
  destruct segments as [|s segs]; [congruence|]. intros _ H.
  cbn [forallb] in H. apply andb_true_iff in H as [Hs _].
  apply segOk_iff in Hs as [_ Hs]. cbn. fold (sumLimits segs).
  pose proof (sumLimits_nonneg segs). lia.
Qed.

(** A range that satisfies the invariant and is not empty has non-nil
    bounds. *)
Lemma inv_bounds r :
  inv r = true -> 0 < Limit r -> exists c l, First r = Some c /\ Last r = Some l.
Proof.
  destruct r as [| first last elems | first last segments]; intros Hinv Hlim.
  - cbn in Hlim. lia.
  - cbn in Hinv. destruct first as [c|], last as [l|], elems; try discriminate.
    now exists c, l.
  - apply inv_disjoint in Hinv as (c & l & s0 & tl & c0 & -> & -> & _).
    now exists c, l.
Qed.

(** The first element of a non-empty range is not after its first bound. *)
Lemma head_le_First r :
  inv r = true -> 0 < Limit r ->
  exists h c, hd_error (elements r) = Some h /\ First r = Some c /\ h <= c.
Proof.
  induction r as [| first last elems | first last segments IH]
    using SortedRange_nested_ind; intros Hinv Hlim.
  - cbn in Hlim. lia.
  - cbn in Hinv. destruct first as [c|]; [|discriminate].
    destruct last as [l|]; [|discriminate]. destruct elems as [|h t]; [discriminate|].
    apply Z.leb_le in Hinv. exists h, c. now repeat split.
  - apply inv_disjoint in Hinv as (c & l & s0 & tl & c0 & -> & -> & -> & Hall & Hf & Hc).
    cbn [forallb] in Hall. apply andb_true_iff in Hall as [Hs0 _].
    apply segOk_iff in Hs0 as [Hi0 Hl0].
    inversion IH as [|? ? IH0 _]; subst.
    destruct (IH0 Hi0 Hl0) as (h & c0' & Hh & Hf' & Hle).
    rewrite Hf in Hf'. injection Hf' as <-.
    exists h, c. cbn [elements flat_map First]. repeat split; [|lia].
    destruct (elements s0); [discriminate|]. exact Hh.
Qed.

Lemma inv_segmentsOk r : inv r = true -> segmentsOk r = true.
Proof.
  induction r as [| first last elems | first last segments IH]
    using SortedRange_nested_ind; intros Hinv; try reflexivity.
  apply inv_disjoint in Hinv as (c & l & s0 & tl & c0 & -> & -> & -> & Hall & _).
  cbn [segmentsOk length Nat.eqb negb andb].
  apply forallb_forall. intros s Hs.
  rewrite Forall_forall in IH. apply IH; [assumption|].
  rewrite forallb_forall in Hall. now apply segOk_iff, Hall.
Qed.

(** ** Partition keeps the invariant *)

Lemma Partition_disjoint first last segments e o :
  Partition (disjointRanges first last segments) e o
  = (c <- callOrder o first e ;;
     if negb c then Ok (EmptyRange, disjointRanges first last segments)
     else scan (disjointRanges first last segments) first last segments e o O segments).
Proof.
  cbn [Partition]. destruct (callOrder o first e) as [c|]; [|reflexivity].
  cbn [bind]. destruct (negb c); [reflexivity|].
  match goal with
  | |- ?f O segments = _ =>
      enough (H : forall rest i,
                 f i rest
                 = scan (disjointRanges first last segments) first last segments e o i rest)
        by apply H
  end.
  induction rest as [|r rest IH]; intros i; [reflexivity|].
  cbn [scan]. rewrite <- IH. reflexivity.
Qed.

Lemma holds_mono o x y p : x <= y -> holds o y p = true -> holds o x p = true.
Proof.
  destruct o; unfold holds, Less; intros Hxy H.
  - apply Z.ltb_lt in H. apply Z.ltb_lt. lia.
  - apply negb_true_iff, Z.ltb_ge in H. apply negb_true_iff, Z.ltb_ge. lia.
Qed.

Lemma boundary_lt o p f : holds o p f && negb (holds o f p) = true -> p < f.
Proof.
  destruct o; unfold holds, Less; intros H; apply andb_true_iff in H as [H1 H2].
  - now apply Z.ltb_lt in H1.
  - apply negb_true_iff, negb_false_iff, Z.ltb_lt in H2. exact H2.
Qed.

Lemma holds_not_lt o c p : holds o c p = true -> ~ p < c.
Proof.
  destruct o; unfold holds, Less; intros H.
  - apply Z.ltb_lt in H. lia.
  - apply negb_true_iff, Z.ltb_ge in H. lia.
Qed.

Lemma leafOf_inv es : inv (leafOf es) = true.
Proof. destruct es as [|h t]; cbn; [reflexivity | apply Z.leb_refl]. Qed.

Lemma leafOf_Limit es : Limit (leafOf es) = Z.of_nat (length es).
Proof. destruct es; reflexivity. Qed.

Lemma leafOf_First es : First (leafOf es) = hd_error es.
Proof. destruct es; reflexivity. Qed.

Lemma filter_split_length {A} (f : A -> bool) (l : list A) :
  (length (filter f l) + length (filter (fun x => negb (f x)) l) = length l)%nat.
Proof.
  induction l as [|x l IH]; cbn; [reflexivity|]. destruct (f x); cbn; lia.
Qed.

Lemma filter_head_holds {A} (f : A -> bool) (l : list A) x :
  hd_error (filter f l) = Some x -> f x = true.
Proof.
  induction l as [|y l IH]; cbn; [discriminate|].
  destruct (f y) eqn:Hy; cbn; [|assumption]. now intros [= <-].
Qed.

Lemma filter_none {A} (f g : A -> bool) (l : list A) :
  filter f l = [] -> (forall x, g x = negb (f x)) -> filter g l = l.
Proof.
  intros H Hg. induction l as [|y l IH]; cbn in *; [reflexivity|].
  rewrite Hg. destruct (f y); [discriminate|]. cbn. f_equal. now apply IH.
Qed.

Lemma leafPartition_ok first last elems o p c :
  inv (Leaf first last elems) = true -> first = Some c ->
  partitionOk (Leaf first last elems) o p c.
Proof.
  intros Hinv ->. cbn in Hinv. destruct last as [l|]; [|discriminate].
  destruct elems as [|h t]; [discriminate|]. apply Z.leb_le in Hinv.
  set (es := h :: t) in *.
  exists (leafOf (filter (fun x => holds o x p) es)),
         (leafOf (filter (fun x => negb (holds o x p)) es)).
  split; [reflexivity|]. rewrite !leafOf_inv, !leafOf_Limit, !leafOf_First.
  split; [reflexivity|]. split; [reflexivity|]. split.
  { cbn [Limit]. pose proof (filter_split_length (fun x => holds o x p) es). lia. }
  split; [|split].
  - intros Hc. pose proof (holds_mono o h c p Hinv Hc) as Hh.
    unfold es. cbn [filter]. rewrite Hh. cbn [length hd_error]. split; [lia|].
    exists h. now split.
  - intros Hpos. destruct (filter (fun x => holds o x p) es) as [|x xs] eqn:Hf.
    + cbn in Hpos. lia.
    + exists x. split; [reflexivity|].
      apply (filter_head_holds (fun x => holds o x p) es). now rewrite Hf.
  - intros Hz. destruct (filter (fun x => holds o x p) es) as [|x xs] eqn:Hf.
    + rewrite (filter_none _ _ es Hf) by reflexivity. exists h. now split.
    + cbn in Hz. lia.
Qed.

Lemma boundaryMatch_eq o p f :
  boundaryMatch o (Some p) (Some f) = Ok (holds o p f && negb (holds o f p)).
Proof. unfold boundaryMatch. cbn. now destruct (holds o p f). Qed.

Lemma insideMatch_eq o p f l :
  insideMatch o (Some p) (Some f) (Some l) = Ok (holds o f p && holds o p l).
Proof. unfold insideMatch. cbn. now destruct (holds o f p). Qed.

Lemma firstn_pre {A} (pre rest : list A) : firstn (length pre) (pre ++ rest) = pre.
Proof. induction pre as [|x pre IH]; cbn; [now destruct rest | now f_equal]. Qed.

Lemma skipn_pre {A} (pre rest : list A) : skipn (length pre) (pre ++ rest) = rest.
Proof. induction pre as [|x pre IH]; cbn; [reflexivity | assumption]. Qed.

Lemma skipn_S_pre {A} (pre : list A) x rest :
  skipn (S (length pre)) (pre ++ x :: rest) = rest.
Proof. induction pre as [|y pre IH]; cbn; [reflexivity | assumption]. Qed.

Lemma nth_pre {A} (pre : list A) x rest d : nth (length pre) (pre ++ x :: rest) d = x.
Proof. induction pre as [|y pre IH]; cbn; [reflexivity | assumption]. Qed.

Lemma segOk_bounds s :
  segOk s = true -> exists f l, First s = Some f /\ Last s = Some l.
Proof. intros H. apply segOk_iff in H as [Hi Hl]. now apply inv_bounds. Qed.

Lemma sumLimits_cons s segs : sumLimits (s :: segs) = Limit s + sumLimits segs.
Proof. reflexivity. Qed.

Lemma eqElement_eq a b : eqElement a b = true -> a = b.
Proof.
  destruct a, b; cbn; try discriminate; [|reflexivity].
  intros H. apply Z.eqb_eq in H. now subst.
Qed.

(** ** Well-formed ranges lie between their bounds *)

Lemma last_default {A} (l : list A) (x d d' : A) : List.last (x :: l) d = List.last (x :: l) d'.
Proof.
  revert x. induction l as [|y l IH]; intros x; [reflexivity|].
  change (List.last (y :: l) d = List.last (y :: l) d'). apply IH.
Qed.

Lemma sorted_lower h t : sorted (h :: t) = true -> Forall (fun x => h <= x) (h :: t).
Proof.
  revert h. induction t as [|y t IH]; intros h Hs.
  - constructor; [lia | constructor].
  - cbn [sorted] in Hs. apply andb_true_iff in Hs as [Hle Hs]. apply Z.leb_le in Hle.
    constructor; [lia|]. specialize (IH y Hs).
    eapply Forall_impl; [|exact IH]. cbn. intros; lia.
Qed.

Lemma sorted_upper h t :
  sorted (h :: t) = true -> Forall (fun x => x <= List.last (h :: t) h) (h :: t).
Proof.
  revert h. induction t as [|y t IH]; intros h Hs.
  - constructor; [cbn; lia | constructor].
  - cbn [sorted] in Hs. apply andb_true_iff in Hs as [Hle Hs]. apply Z.leb_le in Hle.
    specialize (IH y Hs).
    change (List.last (h :: y :: t) h) with (List.last (y :: t) h).
    rewrite (last_default t y h y).
    constructor; [|exact IH]. inversion IH; subst. lia.
Qed.

Lemma sorted_filter_split (f : Z -> bool) es :
  sorted es = true ->
  (forall x y, x <= y -> f y = true -> f x = true) ->
  filter f es ++ filter (fun x => negb (f x)) es = es.
Proof.
  intros Hs Hf. induction es as [|x es IH]; [reflexivity|].
  assert (Hs' : sorted es = true).
  { destruct es as [|y es]; [reflexivity|]. cbn [sorted] in Hs.
    now apply andb_true_iff in Hs as [_ ?]. }
  cbn [filter]. destruct (f x) eqn:Hx; cbn [negb app].
  - f_equal. now apply IH.
  - pose proof (sorted_lower x es Hs) as Hlow. inversion Hlow as [|? ? _ Hrest]; subst.
    assert (Hnone : forall y, In y es -> f y = false).
    { intros y Hy. rewrite Forall_forall in Hrest. specialize (Hrest y Hy).
      destruct (f y) eqn:Hfy; [|reflexivity]. rewrite (Hf x y Hrest Hfy) in Hx. discriminate. }
    assert (H1 : filter f es = []).
    { clear -Hnone. induction es as [|y es IH]; [reflexivity|]. cbn [filter].
      rewrite (Hnone y (or_introl eq_refl)). apply IH. intros z Hz. apply Hnone. now right. }
    assert (H2 : filter (fun x => negb (f x)) es = es).
    { clear -Hnone. induction es as [|y es IH]; [reflexivity|]. cbn [filter].
      rewrite (Hnone y (or_introl eq_refl)). cbn. f_equal.
      apply IH. intros z Hz. apply Hnone. now right. }
    now rewrite H1, H2.
Qed.

Lemma I1_tail s segs : I1 (s :: segs) = true -> I1 segs = true.
Proof.
  destruct segs as [|s' segs]; [reflexivity|]. cbn [I1].
  intros H. now apply andb_true_iff in H as [_ ?].
Qed.

Lemma I1_suffix pre rest : I1 (pre ++ rest) = true -> I1 rest = true.
Proof.
  induction pre as [|s pre IH]; [trivial|]. cbn [app]. intros H.
  apply IH. now apply (I1_tail s).
Qed.

(** A chain of enclosed segments that satisfies I1 lies between the first
    bound of its first segment and the last bound of its last segment. *)
Lemma chain_enclosed s0 tl :
  Forall enclosed (s0 :: tl) -> I1 (s0 :: tl) = true ->
  exists lo hi, First s0 = Some lo /\ Last (List.last (s0 :: tl) s0) = Some hi /\ lo <= hi
                /\ Forall (fun x => lo <= x <= hi) (flat_map elements (s0 :: tl)).
Proof.
  revert s0. induction tl as [|s1 tl IH]; intros s0 Hall H1.
  - inversion Hall as [|? ? (lo & hi & Hf & Hl & Hle & Hel) _]; subst.
    exists lo, hi. cbn [flat_map List.last]. rewrite app_nil_r. now repeat split.
  - inversion Hall as [|? ? (lo & hi & Hf & Hl & Hle & Hel) Hrest]; subst.
    cbn [I1] in H1. apply andb_true_iff in H1 as [Hlt H1].
    destruct (IH s1 Hrest H1) as (lo1 & hi1 & Hf1 & Hl1 & Hle1 & Hel1).
    rewrite Hl, Hf1 in Hlt. cbn in Hlt. unfold Less in Hlt. apply Z.ltb_lt in Hlt.
    exists lo, hi1.
    change (List.last (s0 :: s1 :: tl) s0) with (List.last (s1 :: tl) s0).
    rewrite (last_default tl s1 s0 s1).
    repeat split; try assumption; [lia|].
    cbn [flat_map]. apply Forall_app. split.
    + eapply Forall_impl; [|exact Hel]. cbn. intros; lia.
    + eapply Forall_impl; [|exact Hel1]. cbn. intros; lia.
Qed.

Lemma wellFormed_segments first last segments :
  wellFormed (disjointRanges first last segments) = true ->
  forallb (fun s => wellFormed s && (0 <? Limit s)) segments = true
  /\ I2 first last segments = true /\ I1 segments = true.
Proof.
  cbn [wellFormed]. intros H. apply andb_true_iff in H as [H H1].
  now apply andb_true_iff in H as [Hall H2].
Qed.

Lemma wellFormed_enclosed r : wellFormed r = true -> 0 < Limit r -> enclosed r.
Proof.
  induction r as [| first last elems | first last segments IH]
    using SortedRange_nested_ind; intros Hwf Hlim.
  - cbn in Hlim. lia.
  - cbn in Hwf. destruct elems as [|h t]; [discriminate|].
    apply andb_true_iff in Hwf as [Hwf Hs]. apply andb_true_iff in Hwf as [Hf Hl].
    apply eqElement_eq in Hf, Hl. subst.
    pose proof (sorted_lower h t Hs) as Hlow. pose proof (sorted_upper h t Hs) as Hup.
    exists h, (List.last (h :: t) h). cbn [First Last elements].
    repeat split.
    + inversion Hup; subst. assumption.
    + rewrite Forall_forall in *. intros x Hx. split; [now apply Hlow | now apply Hup].
  - destruct (wellFormed_segments _ _ _ Hwf) as (Hall & H2 & H1).
    destruct segments as [|s0 tl]; [discriminate|].
    assert (Henc : Forall enclosed (s0 :: tl)).
    { rewrite Forall_forall in *. intros s Hs. rewrite forallb_forall in Hall.
      specialize (Hall s Hs). apply andb_true_iff in Hall as [Hw Hl].
      apply Z.ltb_lt in Hl. now apply IH. }
    destruct (chain_enclosed s0 tl Henc H1) as (lo & hi & Hf & Hl & Hle & Hel).
    unfold I2 in H2. apply andb_true_iff in H2 as [Hf' Hl'].
    apply eqElement_eq in Hf', Hl'. subst.
    exists lo, hi. cbn [First Last elements]. now repeat split.
Qed.

Lemma segments_enclosed segments :
  forallb (fun s => wellFormed s && (0 <? Limit s)) segments = true ->
  Forall enclosed segments.
Proof.
  intros Hall. rewrite Forall_forall. intros s Hs. rewrite forallb_forall in Hall.
  specialize (Hall s Hs). apply andb_true_iff in Hall as [Hw Hl].
  apply Z.ltb_lt in Hl. now apply wellFormed_enclosed.
Qed.

Section Scan.
Variables (c lst p : Z) (o : Order) (segments : list SortedRange).
Variables (s0 : SortedRange) (tl : list SortedRange) (c0 : Z).
Hypothesis Hsegs : segments = s0 :: tl.
Hypothesis Hall : forallb segOk segments = true.
Hypothesis Hf0 : First s0 = Some c0.
Hypothesis Hc0 : c0 <= c.
Hypothesis Hc : holds o c p = true.
Hypothesis IH :
  Forall (fun s => forall cs, inv s = true -> First s = Some cs -> partitionOk s o p cs)
         segments.

Lemma left_inv pre x rest' :
  segments = pre ++ rest' -> segOk x = true ->
  (pre = [] -> exists fx, First x = Some fx /\ fx <= c) ->
  forall l, inv (disjointRanges (Some c) (Some l) (pre ++ [x])) = true.
Proof using Hsegs Hall Hf0 Hc0.
  intros Heq Hx Hhead l. apply inv_disjoint.
  assert (Hpre : forallb segOk pre = true).
  { rewrite Heq, forallb_app in Hall. now apply andb_true_iff in Hall as [? _]. }
  destruct pre as [|y pre].
  - destruct (Hhead eq_refl) as (fx & Hfx & Hle).
    exists c, l, x, [], fx. cbn [app forallb]. rewrite Hx. now repeat split.
  - rewrite Hsegs in Heq. cbn [app] in Heq. injection Heq as <- _.
    exists c, l, s0, (pre ++ [x]), c0. cbn [app]. repeat split; try assumption.
    change (s0 :: pre ++ [x]) with ((s0 :: pre) ++ [x]).
    rewrite forallb_app, Hpre. cbn. now rewrite Hx.
Qed.

Lemma right_inv x rest' f :
  segOk x = true -> forallb segOk rest' = true -> First x = Some f ->
  inv (disjointRanges (Some f) (Some lst) (x :: rest')) = true.
Proof using Type.
  intros Hx Hrest Hf. apply inv_disjoint.
  exists f, lst, x, rest', f. cbn [forallb]. rewrite Hx, Hrest.
  repeat split; [assumption | lia].
Qed.

Lemma scan_ok rest :
  forall pre, segments = pre ++ rest ->
  exists l r,
    scan (disjointRanges (Some c) (Some lst) segments)
      (Some c) (Some lst) segments (Some p) o (length pre) rest = Ok (l, r)
    /\ inv l = true /\ inv r = true
    /\ Limit l + Limit r = sumLimits segments
    /\ 0 < Limit l /\ First l = Some c.
Proof using Hsegs Hall Hf0 Hc0 Hc IH.
  induction rest as [|r rest' IHrest]; intros pre Heq.
  - exists (disjointRanges (Some c) (Some lst) segments), EmptyRange.
    cbn [scan]. split; [reflexivity|].
    assert (Hd : inv (disjointRanges (Some c) (Some lst) segments) = true).
    { apply inv_disjoint. exists c, lst, s0, tl, c0. now repeat split. }
    rewrite Limit_disjoint. cbn [Limit First].
    repeat split; try assumption; try lia.
    apply sumLimits_pos; [rewrite Hsegs; discriminate | assumption].
  - assert (Hall' := Hall). rewrite Heq, forallb_app in Hall'.
    apply andb_true_iff in Hall' as [Hpre Hrr]. cbn [forallb] in Hrr.
    apply andb_true_iff in Hrr as [Hr Hrest'].
    destruct (segOk_bounds r Hr) as (fr & lr & Hfr & Hlr).
    cbn [scan]. rewrite Hfr, Hlr. cbn [isNil].
    rewrite (boundaryMatch_eq o p fr). cbn [bind].
    destruct (holds o p fr && negb (holds o fr p)) eqn:Hbm.
    + (* the pivot falls before segment [r] *)
      apply boundary_lt in Hbm.
      destruct pre as [|y pre].
      { exfalso. rewrite Hsegs in Heq. cbn [app] in Heq. injection Heq as <- _.
        rewrite Hf0 in Hfr. injection Hfr as <-.
        apply (holds_not_lt o c p Hc). lia. }
      cbn [length splitAt].
      change (S (length pre)) with (length (y :: pre)).
      rewrite Heq, firstn_pre, skipn_pre.
      assert (Hin : In (nth (length pre) ((y :: pre) ++ r :: rest') EmptyRange) (y :: pre)).
      { rewrite app_nth1 by (cbn; lia). apply nth_In. cbn. lia. }
      rewrite forallb_forall in Hpre.
      destruct (segOk_bounds _ (Hpre _ Hin)) as (fj & lj & _ & Hlj). rewrite Hlj, Hfr.
      rewrite <- forallb_forall in Hpre.
      eexists _, _. split; [reflexivity|].
      assert (Hy : y = s0)
        by (rewrite Hsegs in Heq; cbn [app] in Heq; now injection Heq).
      subst y. rewrite !Limit_disjoint, <- Heq, Heq, sumLimits_app. cbn [First].
      repeat split.
      * apply inv_disjoint. exists c, lj, s0, pre, c0. now repeat split.
      * now apply right_inv.
      * apply sumLimits_pos; [discriminate | assumption].
    + rewrite (insideMatch_eq o p fr lr). cbn [bind].
      destruct (holds o fr p && holds o p lr) eqn:Him.
      * (* the pivot falls inside segment [r] *)
        apply andb_true_iff in Him as [Hfp _].
        assert (Hinr : In r segments) by (rewrite Heq; apply in_elt).
        rewrite Forall_forall in IH.
        apply segOk_iff in Hr as [Hir Hlimr].
        destruct (IH r Hinr fr Hir Hfr)
          as (p1 & p2 & HP & Hi1 & Hi2 & Hlim & HA & _ & _).
        destruct (HA Hfp) as (Hl1 & x & Hx & Hxle).
        rewrite HP. cbn [bind].
        destruct (inv_bounds p1 Hi1 Hl1) as (f1 & l1 & _ & Hlast1).
        assert (Hs1 : segOk p1 = true) by (apply segOk_iff; now split).
        assert (Hhead : pre = [] -> exists fx, First p1 = Some fx /\ fx <= c).
        { intros ->. rewrite Hsegs in Heq. cbn [app] in Heq. injection Heq as <- _.
          rewrite Hf0 in Hfr. injection Hfr as <-. exists x. split; [assumption | lia]. }
        pose proof (left_inv pre p1 (r :: rest') Heq Hs1 Hhead l1) as Hleft.
        assert (Hsum : sumLimits segments
                       = sumLimits pre + Limit r + sumLimits rest').
        { rewrite Heq, sumLimits_app, sumLimits_cons. lia. }
        assert (Hleftlim : sumLimits (pre ++ [p1]) = sumLimits pre + Limit p1).
        { rewrite sumLimits_app, sumLimits_cons. cbn. lia. }
        pose proof (sumLimits_nonneg pre) as Hprenn.
        unfold rebuild. rewrite Hlast1. cbn [isNil].
        rewrite Heq, firstn_pre, skipn_S_pre, <- Heq.
        destruct (Limit p2 =? 0) eqn:Hp2.
        -- apply Z.eqb_eq in Hp2.
           destruct rest' as [|r2 rest''].
           ++ replace (Z.of_nat (length pre) + 1 <? Z.of_nat (length segments)) with false.
              2:{ symmetry. apply Z.ltb_ge. rewrite Heq, length_app. cbn. lia. }
              eexists _, _. split; [reflexivity|].
              rewrite Limit_disjoint, Hleftlim, Hsum. cbn [Limit First sumLimits fold_right].
              repeat split; try assumption; try reflexivity; lia.
           ++ replace (Z.of_nat (length pre) + 1 <? Z.of_nat (length segments)) with true.
              2:{ symmetry. apply Z.ltb_lt. rewrite Heq, length_app. cbn. lia. }
              assert (Hnth : nth (S (length pre)) segments EmptyRange = r2).
              { rewrite Heq.
                change (pre ++ r :: r2 :: rest'') with (pre ++ [r] ++ r2 :: rest'').
                rewrite app_assoc.
                replace (S (length pre)) with (length (pre ++ [r]))
                  by (rewrite length_app; cbn; lia).
                apply nth_pre. }
              rewrite Hnth. cbn [forallb] in Hrest'.
              apply andb_true_iff in Hrest' as [Hr2 Hrest''].
              destruct (segOk_bounds r2 Hr2) as (f2 & l2 & Hf2 & _). rewrite Hf2.
              eexists _, _. split; [reflexivity|].
              rewrite !Limit_disjoint, Hleftlim, Hsum. cbn [First].
              repeat split; try assumption; try lia.
              now apply right_inv.
        -- apply Z.eqb_neq in Hp2. pose proof (Limit_nonneg p2) as Hnn.
           destruct (inv_bounds p2 Hi2 ltac:(lia)) as (f2 & l2 & Hf2 & _).
           rewrite Hf2. cbn [isNil app].
           eexists _, _. split; [reflexivity|].
           rewrite !Limit_disjoint, Hleftlim, Hsum, sumLimits_cons. cbn [First].
           repeat split; try assumption; try lia.
           apply right_inv; try assumption. apply segOk_iff. split; [assumption | lia].
      * (* next segment *)
        destruct (IHrest (pre ++ [r])) as (l & r' & Hs & Hrest).
        { rewrite <- app_assoc. exact Heq. }
        rewrite length_app in Hs. cbn [length] in Hs. rewrite Nat.add_1_r in Hs.
        exists l, r'. split; assumption.
Qed.
End Scan.

(** [Partition] is total on the ranges of the core and keeps the
    invariant. *)
Lemma Partition_ok d :
  forall o p c, inv d = true -> First d = Some c -> partitionOk d o p c.
Proof.
  induction d as [| first last elems | first last segments IH]
    using SortedRange_nested_ind; intros o p c Hinv Hfirst.
  - discriminate.
  - now apply leafPartition_ok.
  - assert (Hinv' := Hinv).
    apply inv_disjoint in Hinv' as (c' & lst & s0 & tl & c0 & -> & -> & Hsegs & Hall & Hf0 & Hc0).
    cbn in Hfirst. injection Hfirst as ->.
    unfold partitionOk. rewrite Partition_disjoint. cbn [callOrder bind].
    destruct (holds o c p) eqn:Hc; cbn [negb].
    + assert (IH' : Forall (fun s => forall cs, inv s = true -> First s = Some cs ->
                                     partitionOk s o p cs) segments).
      { rewrite Forall_forall in *. intros s Hs cs. now apply IH. }
      destruct (scan_ok c lst p o segments s0 tl c0 Hsegs Hall Hf0 Hc0 Hc IH' segments [] eq_refl)
        as (l & r & Hs & Hil & Hir & Hlim & Hpos & Hfl).
      exists l, r. cbn [length] in Hs. rewrite Limit_disjoint.
      repeat split; try assumption.
      * exists c. split; [assumption | lia].
      * intros _. exists c. now split.
      * intros Hz. lia.
    + exists EmptyRange, (disjointRanges (Some c) (Some lst) segments).
      split; [reflexivity|]. split; [reflexivity|]. split; [assumption|].
      split; [reflexivity|]. split; [discriminate|]. split.
      * cbn. lia.
      * intros _. exists c. split; [reflexivity | lia].
Qed.

(** ** Flatten replaces each composite of the list by its segments *)

Lemma flatten_bounded n :
  forall segments, (length segments <= n)%nat -> flatten segments = flat_map expand segments.
Proof.
  induction n as [|n IH]; intros segments Hlen.
  - destruct segments; [reflexivity | cbn in Hlen; lia].
  - destruct segments as [|s0 tl]; [reflexivity|]. cbn [length] in Hlen.
    assert (Htl : flatten tl = flat_map expand tl) by (apply IH; lia).
    destruct s0 as [| f l es | f l segs0]; cbn [flatten flat_map expand app];
      try (now rewrite Htl).
    match goal with
    | |- ?run segs0 tl = _ =>
        enough (H : forall rs tmp, (length rs <= n)%nat ->
                                   run tmp rs = tmp ++ flat_map expand rs)
          by (apply H; lia)
    end.
    induction rs as [|r rs' IHrs]; intros tmp Hrs.
    + cbn. now rewrite app_nil_r.
    + destruct r as [| f' l' es' | f' l' dsegs].
      * rewrite (IH (EmptyRange :: rs') Hrs). reflexivity.
      * rewrite (IH (Leaf f' l' es' :: rs') Hrs). reflexivity.
      * cbn [length] in Hrs. rewrite IHrs by lia. cbn [flat_map expand].
        now rewrite app_assoc.
Qed.

Lemma flatten_expand segments : flatten segments = flat_map expand segments.
Proof. now apply (flatten_bounded (length segments)). Qed.

Lemma expand_segOk s : segOk s = true -> forallb segOk (expand s) = true.
Proof.
  intros Hs. destruct s as [| f l es | f l segs]; cbn [expand forallb];
    try (now rewrite Hs).
  apply segOk_iff in Hs as [Hi _].
  now apply inv_disjoint in Hi as (_ & _ & _ & _ & _ & _ & _ & _ & Hall & _).
Qed.

Lemma flatten_segOk segments :
  forallb segOk segments = true -> forallb segOk (flatten segments) = true.
Proof.
  rewrite flatten_expand. induction segments as [|s segs IH]; intros H; [reflexivity|].
  cbn [forallb flat_map] in *. apply andb_true_iff in H as [Hs Hrest].
  rewrite forallb_app, (expand_segOk s Hs). now apply IH.
Qed.

Lemma flatten_head s segs f :
  segOk s = true -> First s = Some f ->
  exists s' tl' f', flatten (s :: segs) = s' :: tl' /\ First s' = Some f' /\ f' <= f.
Proof.
  intros Hs Hf. rewrite flatten_expand. cbn [flat_map].
  destruct s as [| f0 l0 es | f0 l0 segs0]; cbn [expand app].
  - discriminate.
  - eexists _, _, f. repeat split; [exact Hf | lia].
  - apply segOk_iff in Hs as [Hi _].
    apply inv_disjoint in Hi as (c & l & s0 & tl & c0 & -> & -> & -> & _ & Hf0 & Hc0).
    cbn in Hf. injection Hf as <-.
    exists s0, (tl ++ flat_map expand segs), c0. now repeat split.
Qed.

Lemma mergeLists_head l1 l2 h1 h2 :
  hd_error l1 = Some h1 -> hd_error l2 = Some h2 ->
  exists h, hd_error (mergeLists l1 l2) = Some h /\ h <= h1 /\ h <= h2.
Proof.
  destruct l1 as [|x l1]; [discriminate|]. destruct l2 as [|y l2]; [discriminate|].
  intros [= ->] [= ->]. cbn. unfold Less.
  destruct (h2 <? h1) eqn:Hlt; [apply Z.ltb_lt in Hlt | apply Z.ltb_ge in Hlt].
  - exists h2. repeat split; lia.
  - exists h1. repeat split; lia.
Qed.

(** ** Merge keeps the invariant *)

Section MergeInv.
Variable combine : list Z -> list Z -> list Z.

(** The only assumption on the overlap-merge policy: combining two
    non-empty sequences gives a non-empty sequence that starts no later
    than either of them. *)
Hypothesis combine_head : forall l1 l2 h1 h2,
    hd_error l1 = Some h1 -> hd_error l2 = Some h2 ->
    exists h, hd_error (combine l1 l2) = Some h /\ h <= h1 /\ h <= h2.

Lemma selectFirst_eq a b ca cb :
  First a = Some ca -> First b = Some cb ->
  selectFirst a b = Some (if ca <? cb then ca else cb).
Proof using Type.
  intros Ha Hb. unfold selectFirst, selectFirstOf, Less. rewrite Ha, Hb.
  now destruct (ca <? cb).
Qed.

Lemma selectLast_some a b la lb :
  Last a = Some la -> Last b = Some lb -> exists l, selectLast a b = Some l.
Proof using Type.
  intros Ha Hb. unfold selectLast, selectLastOf. rewrite Ha, Hb.
  destruct (negb (Less lb la)); eauto.
Qed.

Lemma newMergeableRange_ok p2 p3 :
  inv p2 = true -> inv p3 = true -> 0 < Limit p2 -> 0 < Limit p3 ->
  let m := useEmptyRangeIfEmpty
             (newMergeableRange combine (selectFirst p2 p3) (selectLast p2 p3) p2 p3) in
  segOk m = true
  /\ exists f c2 c3, First m = Some f /\ First p2 = Some c2 /\ First p3 = Some c3
                     /\ f <= c2 /\ f <= c3.
Proof using combine_head.
  intros Hi2 Hi3 Hl2 Hl3.
  destruct (head_le_First p2 Hi2 Hl2) as (h2 & c2 & Hh2 & Hf2 & Hle2).
  destruct (head_le_First p3 Hi3 Hl3) as (h3 & c3 & Hh3 & Hf3 & Hle3).
  destruct (inv_bounds p2 Hi2 Hl2) as (_ & l2 & _ & Hlast2).
  destruct (inv_bounds p3 Hi3 Hl3) as (_ & l3 & _ & Hlast3).
  destruct (combine_head _ _ _ _ Hh2 Hh3) as (h & Hh & Hhle2 & Hhle3).
  destruct (selectLast_some p2 p3 l2 l3 Hlast2 Hlast3) as (l & Hl).
  unfold newMergeableRange, useEmptyRangeIfEmpty.
  rewrite (selectFirst_eq p2 p3 c2 c3 Hf2 Hf3), Hl.
  destruct (combine (elements p2) (elements p3)) as [|x xs] eqn:Hcomb; [discriminate|].
  cbn in Hh. injection Hh as ->.
  cbn [Limit length]. rewrite Nat2Z.inj_succ.
  replace (Z.succ (Z.of_nat (length xs)) =? 0) with false
    by (symmetry; apply Z.eqb_neq; lia).
  cbv zeta. split.
  - apply segOk_iff. cbn [inv Limit length]. rewrite Nat2Z.inj_succ. split; [|lia].
    apply Z.leb_le. destruct (c2 <? c3); lia.
  - exists (if c2 <? c3 then c2 else c3), c2, c3. cbn [First].
    repeat split; try assumption;
      destruct (c2 <? c3) eqn:Hlt;
      first [apply Z.ltb_lt in Hlt | apply Z.ltb_ge in Hlt]; lia.
Qed.

(** The overlapping case: both partitions succeed, the left part of [b] is
    not empty, and at least one part survives. *)
Lemma assemble_ok a b ca la cb lb :
  inv a = true -> inv b = true ->
  First a = Some ca -> Last a = Some la -> First b = Some cb -> Last b = Some lb ->
  Less la cb = false ->
  exists p1 p2 p3 p4 s tl f,
    Partition a (First b) LessOrder = Ok (p1, p2)
    /\ Partition b (Last a) LessOrEqualOrder = Ok (p3, p4)
    /\ 0 < Limit p3
    /\ assemble combine a b = Ok (s :: tl)
    /\ forallb segOk (s :: tl) = true
    /\ First s = Some f /\ f <= (if ca <? cb then ca else cb).
Proof using combine_head.
  intros Hia Hib Hfa Hla Hfb Hlb Hover.
  unfold Less in Hover. apply Z.ltb_ge in Hover.
  destruct (Partition_ok a LessOrder cb ca Hia Hfa)
    as (p1 & p2 & HP1 & Hi1 & Hi2 & Hlim12 & HA1 & HB1 & HC1).
  destruct (Partition_ok b LessOrEqualOrder la cb Hib Hfb)
    as (p3 & p4 & HP3 & Hi3 & Hi4 & Hlim34 & HA3 & _ & _).
  assert (Hle : holds LessOrEqualOrder cb la = true).
  { cbn. unfold Less. apply negb_true_iff, Z.ltb_ge. lia. }
  destruct (HA3 Hle) as (Hl3 & x3 & Hx3 & Hx3le).
  assert (Hla_pos : 0 < Limit a).
  { destruct a as [| ? ? es | ? ? ?]; [discriminate | |].
    - cbn in Hia. destruct first, last, es; try discriminate. cbn. lia.
    - apply inv_disjoint in Hia as (? & ? & ? & ? & ? & _ & _ & -> & Hall & _).
      rewrite Limit_disjoint. apply sumLimits_pos; [discriminate | assumption]. }
  exists p1, p2, p3, p4.
  unfold assemble. rewrite Hfb, Hla, HP1, HP3. cbn [bind].
  pose proof (Limit_nonneg p1) as Hnn1. pose proof (Limit_nonneg p2) as Hnn2.
  pose proof (Limit_nonneg p4) as Hnn4.
  set (m23 := if Limit p2 =? 0 then p3
              else if Limit p3 =? 0 then p2
                   else useEmptyRangeIfEmpty
                          (newMergeableRange combine (selectFirst p2 p3)
                             (selectLast p2 p3) p2 p3)).
  assert (Hm : segOk m23 = true
               /\ exists fm, First m23 = Some fm /\ fm <= cb
                             /\ (Limit p1 = 0 -> fm <= ca)).
  { unfold m23. destruct (Limit p2 =? 0) eqn:H2.
    - apply Z.eqb_eq in H2. split; [apply segOk_iff; now split|].
      exists x3. repeat split; try assumption. intros H1. lia.
    - apply Z.eqb_neq in H2.
      replace (Limit p3 =? 0) with false by (symmetry; apply Z.eqb_neq; lia).
      destruct (newMergeableRange_ok p2 p3 Hi2 Hi3 ltac:(lia) Hl3)
        as (Hok & f & c2 & c3 & Hf & Hf2 & Hf3 & Hle2 & Hle3).
      split; [assumption|]. exists f. rewrite Hx3 in Hf3. injection Hf3 as <-.
      repeat split; [assumption | lia |].
      intros H1. destruct (HC1 H1) as (y & Hy & Hyle).
      rewrite Hf2 in Hy. injection Hy as <-. lia. }
  destruct Hm as (Hmok & fm & Hfm & Hfmb & Hfma).
  assert (Hmpos : (0 <? Limit m23) = true)
    by (apply segOk_iff in Hmok as [_ ?]; now apply Z.ltb_lt).
  assert (Hrest : forallb segOk (filter (fun r => 0 <? Limit r) [p4]) = true).
  { cbn [filter]. destruct (0 <? Limit p4) eqn:H4; [|reflexivity].
    cbn [forallb]. unfold segOk. now rewrite Hi4, H4. }
  cbn [filter]. rewrite Hmpos.
  destruct (0 <? Limit p1) eqn:H1.
  - apply Z.ltb_lt in H1. destruct (HB1 H1) as (x1 & Hx1 & Hx1lt).
    cbn in Hx1lt. unfold Less in Hx1lt. apply Z.ltb_lt in Hx1lt.
    eexists p1, _, x1. repeat split; try assumption.
    + cbn [forallb]. cbn [filter] in Hrest. rewrite Hmok, Hrest.
      unfold segOk at 1. rewrite Hi1. apply Z.ltb_lt in H1. now rewrite H1.
    + destruct (ca <? cb) eqn:Hlt; [|lia].
      apply Z.ltb_lt in Hlt.
      assert (Hh : holds LessOrder ca cb = true) by (cbn; unfold Less; now apply Z.ltb_lt).
      destruct (HA1 Hh) as (_ & x & Hx & Hxle). rewrite Hx1 in Hx. injection Hx as <-.
      exact Hxle.
  - apply Z.ltb_ge in H1.
    eexists m23, _, fm. repeat split; try assumption.
    + cbn [forallb]. cbn [filter] in Hrest. now rewrite Hmok, Hrest.
    + destruct (ca <? cb); [apply Hfma; lia | assumption].
Qed.

(** [merge] is total on the ranges of the core and keeps the invariant. *)
Lemma merge_ok a b :
  inv a = true -> inv b = true -> exists r, merge combine a b = Ok r /\ inv r = true.
Proof using combine_head.
  intros Hia Hib. unfold merge.
  destruct (Limit a =? 0) eqn:Ha; [now exists b|].
  destruct (Limit b =? 0) eqn:Hb; [now exists a|].
  apply Z.eqb_neq in Ha, Hb.
  pose proof (Limit_nonneg a). pose proof (Limit_nonneg b).
  destruct (inv_bounds a Hia ltac:(lia)) as (ca & la & Hfa & Hla).
  destruct (inv_bounds b Hib ltac:(lia)) as (cb & lb & Hfb & Hlb).
  destruct (selectLast_some a b la lb Hla Hlb) as (l & Hl).
  unfold callLess. rewrite Hla, Hfb. cbn [callOrder holds bind].
  destruct (Less la cb) eqn:Hover.
  - eexists. split; [reflexivity|]. rewrite Hfa, Hl. apply inv_disjoint.
    exists ca, l, a, [b], ca. cbn [forallb]. unfold segOk.
    rewrite Hia, Hib.
    replace (0 <? Limit a) with true by (symmetry; apply Z.ltb_lt; lia).
    replace (0 <? Limit b) with true by (symmetry; apply Z.ltb_lt; lia).
    repeat split; [assumption | lia].
  - destruct (assemble_ok a b ca la cb lb Hia Hib Hfa Hla Hfb Hlb Hover)
      as (p1 & p2 & p3 & p4 & s & tl & f & _ & _ & _ & Hasm & Hall & Hf & Hfle).
    rewrite Hasm. cbn [bind].
    destruct tl as [|s' tl].
    + exists s. split; [reflexivity|]. cbn [forallb] in Hall.
      apply andb_true_iff in Hall as [Hs _]. now apply segOk_iff in Hs as [? _].
    + eexists. split; [reflexivity|].
      rewrite (selectFirst_eq a b ca cb Hfa Hfb), Hl.
      assert (Hs : segOk s = true)
        by (cbn [forallb] in Hall; now apply andb_true_iff in Hall as [? _]).
      destruct (flatten_head s (s' :: tl) f Hs Hf) as (s1 & tl1 & f1 & Hfl & Hf1 & Hf1le).
      apply inv_disjoint.
      exists (if ca <? cb then ca else cb), l, s1, tl1, f1.
      repeat split; try assumption; try lia.
      now apply flatten_segOk.
Qed.
End MergeInv.

Lemma wellFormed_bounds r :
  wellFormed r = true -> 0 < Limit r -> exists c l, First r = Some c /\ Last r = Some l.
Proof.
  induction r as [| first last elems | first last segments IH]
    using SortedRange_nested_ind; intros Hwf Hlim.
  - cbn in Hlim. lia.
  - cbn in Hwf. destruct elems as [|h t]; [discriminate|].
    apply andb_true_iff in Hwf as [Hwf _]. apply andb_true_iff in Hwf as [Hf Hl].
    apply eqElement_eq in Hf, Hl. subst. cbn. eauto.
  - cbn [wellFormed] in Hwf. apply andb_true_iff in Hwf as [Hwf _].
    apply andb_true_iff in Hwf as [Hall H2].
    unfold I2 in H2. destruct segments as [|s0 tl]; [discriminate|].
    apply andb_true_iff in H2 as [Hf Hl]. apply eqElement_eq in Hf, Hl. subst.
    rewrite Forall_forall in IH. rewrite forallb_forall in Hall.
    assert (H0 : In s0 (s0 :: tl)) by now left.
    assert (Hlast : In (List.last (s0 :: tl) s0) (s0 :: tl)).
    { clear. generalize s0 at 1 3. induction tl as [|t tl IHtl]; intros d.
      - now left.
      - right. destruct tl as [|t' tl]; [now left|]. apply (IHtl t). }
    pose proof (Hall _ H0) as Ha0. pose proof (Hall _ Hlast) as Hal.
    apply andb_true_iff in Ha0 as [Hw0 Hl0]. apply andb_true_iff in Hal as [Hwl Hll].
    apply Z.ltb_lt in Hl0, Hll.
    destruct (IH _ H0 Hw0 Hl0) as (c & _ & Hc & _).
    destruct (IH _ Hlast Hwl Hll) as (_ & l & _ & Hl).
    cbn [First Last]. rewrite Hc, Hl. eauto.
Qed.

(** Well-formed ranges satisfy the invariant of the core. *)
Lemma wellFormed_inv r : wellFormed r = true -> inv r = true.
Proof.
  induction r as [| first last elems | first last segments IH]
    using SortedRange_nested_ind; intros Hwf.
  - reflexivity.
  - cbn in Hwf. destruct elems as [|h t]; [discriminate|].
    apply andb_true_iff in Hwf as [Hwf _]. apply andb_true_iff in Hwf as [Hf Hl].
    apply eqElement_eq in Hf, Hl. subst. cbn. apply Z.leb_refl.
  - assert (Hlim : 0 < Limit (disjointRanges first last segments)).
    { cbn [wellFormed] in Hwf. apply andb_true_iff in Hwf as [Hwf _].
      apply andb_true_iff in Hwf as [Hall H2]. rewrite Limit_disjoint.
      destruct segments as [|s0 tl]; [discriminate|].
      cbn [forallb] in Hall. apply andb_true_iff in Hall as [Hs0 _].
      apply andb_true_iff in Hs0 as [_ Hs0]. apply Z.ltb_lt in Hs0.
      rewrite sumLimits_cons. pose proof (sumLimits_nonneg tl). lia. }
    destruct (wellFormed_bounds _ Hwf Hlim) as (c & l & Hc & Hl).
    cbn in Hc, Hl. subst.
    cbn [wellFormed] in Hwf. apply andb_true_iff in Hwf as [Hwf _].
    apply andb_true_iff in Hwf as [Hall H2].
    destruct segments as [|s0 tl]; [discriminate|].
    unfold I2 in H2. apply andb_true_iff in H2 as [Hf _]. apply eqElement_eq in Hf.
    apply inv_disjoint. exists c, l, s0, tl, c. repeat split; try lia; [|now symmetry].
    apply forallb_forall. intros s Hs. rewrite forallb_forall in Hall.
    specialize (Hall s Hs). apply andb_true_iff in Hall as [Hw Hl].
    rewrite Forall_forall in IH. unfold segOk. now rewrite (IH s Hs Hw), Hl.
Qed.

Lemma Partition_total a o p :
  inv a = true ->
  exists l r, Partition a (Some p) o = Ok (l, r) /\ inv l = true /\ inv r = true.
Proof.
  intros Hinv. destruct (First a) as [c|] eqn:Hf.
  - destruct (Partition_ok a o p c Hinv Hf) as (l & r & HP & Hl & Hr & _).
    now exists l, r.
  - destruct a as [| first last elems | first last segments].
    + now exists EmptyRange, EmptyRange.
    + cbn in Hf. subst. discriminate.
    + apply inv_disjoint in Hinv as (c & ? & ? & ? & ? & -> & _). discriminate.
Qed.

Lemma Limit_zero_elements r : Limit r = 0 -> elements r = [].
Proof.
  induction r as [| first last elems | first last segments IH]
    using SortedRange_nested_ind; intros Hlim.
  - reflexivity.
  - cbn in *. destruct elems; [reflexivity | discriminate].
  - rewrite Limit_disjoint in Hlim. cbn [elements].
    induction IH as [|s segs Hs _ IHsegs]; [reflexivity|].
    rewrite sumLimits_cons in Hlim. cbn [flat_map].
    pose proof (Limit_nonneg s). pose proof (sumLimits_nonneg segs).
    rewrite Hs, IHsegs by lia. reflexivity.
Qed.

(** ** Partition splits the sequence of a well-formed range *)

Lemma holdsLE_true x p : holds LessOrEqualOrder x p = true <-> x <= p.
Proof. cbn. unfold Less. rewrite negb_true_iff, Z.ltb_ge. reflexivity. Qed.

Lemma holdsLE_false x p : holds LessOrEqualOrder x p = false <-> p < x.
Proof. cbn. unfold Less. rewrite negb_false_iff, Z.ltb_lt. reflexivity. Qed.

Lemma leafOf_elements es : elements (leafOf es) = es.
Proof. destruct es; reflexivity. Qed.

Lemma filter_Forall {A} (f : A -> bool) (b : bool) (g : A -> bool) (l : list A) :
  (forall x, g x = true -> f x = b) -> Forall (fun x => f x = b) (filter g l).
Proof.
  intros H. apply Forall_forall. intros x Hx. apply filter_In in Hx as [_ Hx]. now apply H.
Qed.

Lemma leafPartition_splits first last elems o p l r :
  wellFormed (Leaf first last elems) = true ->
  Partition (Leaf first last elems) (Some p) o = Ok (l, r) ->
  splits (Leaf first last elems) o p l r.
Proof.
  intros Hwf HP. cbn in HP. injection HP as <- <-.
  cbn in Hwf. destruct elems as [|h t]; [discriminate|].
  apply andb_true_iff in Hwf as [_ Hs].
  unfold splits. rewrite !leafOf_elements. cbn [elements]. split.
  - apply sorted_filter_split; [assumption|]. intros x y. apply holds_mono.
  - intros _. split.
    + apply filter_Forall. trivial.
    + apply filter_Forall. intros x Hx. now apply negb_true_iff in Hx.
Qed.

Section ScanSplits.
Variables (c lst p : Z) (o : Order) (segments : list SortedRange).
Hypothesis Hwf : forallb (fun s => wellFormed s && (0 <? Limit s)) segments = true.
Hypothesis HI1 : I1 segments = true.
Hypothesis IH :
  Forall (fun s => wellFormed s = true ->
                   forall l r, Partition s (Some p) o = Ok (l, r) -> splits s o p l r)
         segments.

(** The segments from a given one on lie at or after its first bound. *)
Lemma suffix_lower pre r rest' fr :
  segments = pre ++ r :: rest' -> First r = Some fr ->
  Forall (fun x => fr <= x) (flat_map elements (r :: rest')).
Proof using Hwf HI1.
  intros Heq Hfr. pose proof (segments_enclosed segments Hwf) as Henc.
  rewrite Heq in Henc, HI1. apply Forall_app in Henc as [_ Henc].
  apply I1_suffix in HI1.
  destruct (chain_enclosed r rest' Henc HI1) as (lo & hi & Hf & _ & _ & Hel).
  rewrite Hfr in Hf. injection Hf as <-.
  eapply Forall_impl; [|exact Hel]. cbn. intros; lia.
Qed.

(** The segments after a given one lie strictly after its last bound. *)
Lemma suffix_after pre r rest' lr :
  segments = pre ++ r :: rest' -> Last r = Some lr ->
  Forall (fun x => lr < x) (flat_map elements rest').
Proof using Hwf HI1.
  intros Heq Hlr. destruct rest' as [|r2 rest'']; [constructor|].
  assert (Heq2 : segments = (pre ++ [r]) ++ r2 :: rest'') by now rewrite <- app_assoc.
  assert (H1 := HI1). rewrite Heq in H1. apply I1_suffix in H1.
  cbn [I1] in H1. apply andb_true_iff in H1 as [Hlt _].
  rewrite Hlr in Hlt. destruct (First r2) as [f2|] eqn:Hf2; [|discriminate].
  cbn in Hlt. unfold Less in Hlt. apply Z.ltb_lt in Hlt.
  pose proof (suffix_lower (pre ++ [r]) r2 rest'' f2 Heq2 Hf2) as Hlow.
  eapply Forall_impl; [|exact Hlow]. cbn. intros; lia.
Qed.

Lemma scan_splits rest :
  forall pre l r,
    segments = pre ++ rest ->
    (o = LessOrEqualOrder ->
     Forall (fun x => holds o x p = true) (flat_map elements pre)) ->
    scan (disjointRanges (Some c) (Some lst) segments)
      (Some c) (Some lst) segments (Some p) o (length pre) rest = Ok (l, r) ->
    elements l ++ elements r = flat_map elements segments
    /\ (o = LessOrEqualOrder ->
        Forall (fun x => holds o x p = true) (elements l)
        /\ Forall (fun x => holds o x p = false) (elements r)).
Proof using Hwf HI1 IH.
  induction rest as [|r0 rest' IHrest]; intros pre l r Heq Hpre Hscan.
  - cbn [scan] in Hscan. injection Hscan as <- <-.
    rewrite app_nil_r in Heq. subst pre. cbn [elements]. rewrite app_nil_r.
    split; [reflexivity|]. intros Ho. split; [now apply Hpre | constructor].
  - assert (Hin : In r0 segments) by (rewrite Heq; apply in_elt).
    pose proof (segments_enclosed segments Hwf) as Henc.
    rewrite Forall_forall in Henc.
    destruct (Henc r0 Hin) as (fr & lr & Hfr & Hlr & Hle & Hel).
    assert (Hw0 : wellFormed r0 = true).
    { rewrite forallb_forall in Hwf. specialize (Hwf r0 Hin).
      now apply andb_true_iff in Hwf as [? _]. }
    assert (Hflat : flat_map elements segments
                    = flat_map elements pre ++ elements r0 ++ flat_map elements rest').
    { rewrite Heq, flat_map_app. reflexivity. }
    pose proof (suffix_lower pre r0 rest' fr Heq Hfr) as Hlow.
    pose proof (suffix_after pre r0 rest' lr Heq Hlr) as Hafter.
    cbn [scan] in Hscan. rewrite Hfr, Hlr in Hscan. cbn [isNil] in Hscan.
    rewrite (boundaryMatch_eq o p fr) in Hscan. cbn [bind] in Hscan.
    destruct (holds o p fr && negb (holds o fr p)) eqn:Hbm.
    + (* the pivot falls before segment [r0] *)
      apply boundary_lt in Hbm.
      destruct pre as [|y pre]; [discriminate|].
      cbn [length] in Hscan. unfold splitAt in Hscan.
      change (S (length pre)) with (length (y :: pre)) in Hscan.
      rewrite Heq, firstn_pre, skipn_pre in Hscan. injection Hscan as <- <-.
      cbn [elements].
      split; [now rewrite Heq, flat_map_app|].
      intros Ho. split; [now apply Hpre|]. subst o.
      eapply Forall_impl; [|exact Hlow]. cbn beta. intros x Hx.
      apply holdsLE_false. lia.
    + rewrite (insideMatch_eq o p fr lr) in Hscan. cbn [bind] in Hscan.
      destruct (holds o fr p && holds o p lr) eqn:Him.
      * (* the pivot falls inside segment [r0] *)
        destruct (Partition r0 (Some p) o) as [[p1 p2]|] eqn:HP; [|discriminate].
        cbn [bind] in Hscan.
        rewrite Forall_forall in IH.
        destruct (IH r0 Hin Hw0 p1 p2 HP) as (Hcat & Hord).
        apply andb_true_iff in Him as [_ Hplr].
        assert (Hright : o = LessOrEqualOrder ->
                         Forall (fun x => holds o x p = false) (flat_map elements rest')).
        { intros ->. apply holdsLE_true in Hplr.
          eapply Forall_impl; [|exact Hafter]. cbn beta. intros x Hx.
          apply holdsLE_false. lia. }
        unfold rebuild in Hscan.
        rewrite Heq, firstn_pre, skipn_S_pre, <- Heq in Hscan.
        destruct (Limit p2 =? 0) eqn:Hp2.
        -- apply Z.eqb_eq in Hp2. pose proof (Limit_zero_elements p2 Hp2) as He2.
           rewrite He2, app_nil_r in Hcat.
           destruct (isNil (Last p1)); [discriminate|].
           assert (Hl : forall r', 
                      elements r' = flat_map elements rest' ->
                      elements (disjointRanges (Some c) (Last p1) (pre ++ [p1])) ++ elements r'
                      = flat_map elements segments
                      /\ (o = LessOrEqualOrder ->
                          Forall (fun x => holds o x p = true)
                                 (elements (disjointRanges (Some c) (Last p1) (pre ++ [p1])))
                          /\ Forall (fun x => holds o x p = false) (elements r'))).
           { intros r' Hr'. cbn [elements]. rewrite Hr', flat_map_app. cbn [flat_map].
             rewrite app_nil_r, Hflat, Hcat, <- app_assoc. split; [reflexivity|].
             intros Ho. split; [|now apply Hright].
             apply Forall_app. split; [now apply Hpre|].
             rewrite <- Hcat. now apply Hord. }
           destruct (Z.of_nat (length pre) + 1 <? Z.of_nat (length segments)) eqn:Hlen;
             injection Hscan as <- <-; apply Hl.
           ++ reflexivity.
           ++ apply Z.ltb_ge in Hlen. rewrite Heq, length_app in Hlen. cbn in Hlen.
              destruct rest'; [reflexivity | cbn in Hlen; lia].
        -- destruct (isNil (Last p1)); [discriminate|].
           destruct (isNil (First p2)); [discriminate|].
           injection Hscan as <- <-. cbn [elements app flat_map].
           rewrite flat_map_app. cbn [flat_map]. rewrite app_nil_r, Hflat, <- Hcat.
           rewrite <- !app_assoc. split; [reflexivity|].
           intros Ho. destruct (Hord Ho) as [H1 H2]. split.
           ++ apply Forall_app. split; [now apply Hpre | assumption].
           ++ apply Forall_app. split; [assumption | now apply Hright].
      * (* next segment *)
        apply (IHrest (pre ++ [r0])).
        -- now rewrite <- app_assoc.
        -- intros ->. rewrite flat_map_app. cbn [flat_map]. rewrite app_nil_r.
           apply Forall_app. split; [now apply Hpre|].
           apply andb_false_iff in Hbm, Him.
           assert (Hlt : lr < p).
           { destruct Him as [Him|Him]; [|apply holdsLE_false in Him; lia].
             apply holdsLE_false in Him.
             destruct Hbm as [Hbm|Hbm].
             - apply holdsLE_false in Hbm. lia.
             - apply negb_false_iff, holdsLE_true in Hbm. lia. }
           eapply Forall_impl; [|exact Hel]. cbn beta. intros x Hx.
           apply holdsLE_true. lia.
        -- rewrite length_app. cbn [length]. now rewrite Nat.add_1_r.
Qed.
End ScanSplits.

(** When [Partition] returns on a well-formed range, the parts split its
    sequence. *)
Lemma Partition_splits d :
  forall o p l r,
    wellFormed d = true -> Partition d (Some p) o = Ok (l, r) -> splits d o p l r.
Proof.
  induction d as [| first last elems | first last segments IH]
    using SortedRange_nested_ind; intros o p l r Hwf HP.
  - cbn in HP. injection HP as <- <-. split; [reflexivity|]. intros _. split; constructor.
  - now apply leafPartition_splits.
  - destruct (wellFormed_segments _ _ _ Hwf) as (Hall & H2 & H1).
    destruct segments as [|s0 tl]; [discriminate|].
    pose proof (segments_enclosed _ Hall) as Henc.
    destruct (chain_enclosed s0 tl Henc H1) as (lo & hi & Hf & Hl & Hle & Hel).
    unfold I2 in H2. apply andb_true_iff in H2 as [Hf' Hl'].
    apply eqElement_eq in Hf', Hl'. subst first last. rewrite Hf, Hl in *.
    rewrite Partition_disjoint in HP. cbn [callOrder bind] in HP.
    destruct (holds o lo p) eqn:Hc; cbn [negb] in HP.
    + assert (IH' : Forall (fun s => wellFormed s = true -> forall l r,
                            Partition s (Some p) o = Ok (l, r) -> splits s o p l r)
                           (s0 :: tl)).
      { rewrite Forall_forall in *. intros s Hs Hw l' r'. now apply IH. }
      apply (scan_splits lo hi p o (s0 :: tl) Hall H1 IH' (s0 :: tl) [] l r eq_refl);
        [intros _; constructor | exact HP].
    + injection HP as <- <-. split; [reflexivity|].
      intros ->. apply holdsLE_false in Hc. split; [constructor|].
      cbn [elements]. eapply Forall_impl; [|exact Hel]. cbn beta. intros x Hx.
      apply holdsLE_false. lia.
Qed.

(** On a well-formed range [Partition] returns, and its parts are the
    sequence of the range in order; under the before-or-equal order the
    left part holds exactly the elements at or before the pivot. *)
Lemma Partition_wellFormed_splits d o p :
  wellFormed d = true ->
  exists l r, Partition d (Some p) o = Ok (l, r) /\ splits d o p l r.
Proof.
  intros Hwf.
  destruct (Partition_total d o p (wellFormed_inv d Hwf)) as (l & r & HP & _).
  exists l, r. split; [assumption|]. now apply (Partition_splits d).
Qed.

(** * The claims *)

(** C1 (code at the failing input): under the strict order, a composite
    whose second segment starts at the pivot is returned whole as the left
    part, so the left part holds elements that are not strictly before the
    pivot.  (What does hold is [Partition_wellFormed_splits]: the parts are
    the sequence in order, and under the before-or-equal order they are
    separated by the pivot.) *)
Theorem Partition_strict_pivot_on_bound :
  let d := disjointRanges (Some 1) (Some 6) [leafOf [1; 3]; leafOf [5; 6]] in
  merge mergeLists (leafOf [1; 3]) (leafOf [5; 6]) = Ok d
  /\ wellFormed d = true
  /\ Partition d (Some 5) LessOrder = Ok (d, EmptyRange)
  /\ elements d = [1; 3; 5; 6]
  /\ forallb (fun x => holds LessOrder x 5) (elements d) = false
  /\ Partition d (Some 3) LessOrder
     = Ok (disjointRanges (Some 1) (Some 3) [leafOf [1; 3]],
           disjointRanges (Some 5) (Some 6) [leafOf [5; 6]])
  /\ holds LessOrder 3 3 = false.
Proof. cbv zeta. repeat split. Qed.

(** C2 (code at the failing input): [d] is the composite published by
    [merge] for [{1,2,3}] and [{5,6}].  [d.Partition(2, LessOrEqualOrder)]
    returns the parts that [Partition] computes on values, but
    [append(d.segments[0:i], p1)] has written [p1] into the backing array of
    [d]: afterwards [d] shows the segments [{1,2}], [{5,6}], its limit has
    gone from 5 to 4 and the element 3 is lost from its sequence. *)
Theorem Partition_overwrites_published_segment :
  let d := fst publishedHeap in
  let h0 := snd publishedHeap in
  let before := disjointRanges (Some 1) (Some 6) [leafOf [1; 2; 3]; leafOf [5; 6]] in
  let after := disjointRanges (Some 1) (Some 6) [leafOf [1; 2]; leafOf [5; 6]] in
  merge mergeLists (leafOf [1; 2; 3]) (leafOf [5; 6]) = Ok before
  /\ Store.value 5 h0 d = Some (Ok before)
  /\ Store.Limit 5 h0 d = Some (Ok 5)
  /\ exists l r h1 vl vr,
       Store.Partition 5 h0 d (Some 2) LessOrEqualOrder = Some (Ok (l, r, h1))
       /\ Store.value 5 h1 l = Some (Ok vl) /\ Store.value 5 h1 r = Some (Ok vr)
       /\ Partition before (Some 2) LessOrEqualOrder = Ok (vl, vr)
       /\ Store.value 5 h1 d = Some (Ok after)
       /\ Store.Limit 5 h1 d = Some (Ok 4)
       /\ elements before = [1; 2; 3; 5; 6]
       /\ elements after = [1; 2; 5; 6].
Proof.
  cbv zeta. split; [reflexivity|]. split; [reflexivity|]. split; [reflexivity|].
  eexists _, _, _, _, _. split; [vm_compute; reflexivity|].
  repeat split.
Qed.

(** C3 (code at the failing input): the disjoint fast path of [merge] wraps
    its operands as they are, so merging a composite with a later range
    yields a composite that has a composite as a direct segment. *)
Theorem merge_fast_path_nests :
  let ab := disjointRanges (Some 1) (Some 6) [leafOf [1; 3]; leafOf [5; 6]] in
  let c := leafOf [10; 11] in
  merge mergeLists (leafOf [1; 3]) (leafOf [5; 6]) = Ok ab
  /\ wellFormed ab = true /\ wellFormed c = true
  /\ merge mergeLists ab c = Ok (disjointRanges (Some 1) (Some 11) [ab; c])
  /\ I3 [ab; c] = false.
Proof. cbv zeta. repeat split. Qed.

(** C4 (code at the failing input): merging a composite with a range that
    starts at the composite's last element leaves that element in the left
    part, so two adjacent segments of the result meet at the same element. *)
Theorem merge_breaks_I1 :
  let a := disjointRanges (Some 1) (Some 6) [leafOf [1; 3]; leafOf [5; 6]] in
  let b := leafOf [6; 7] in
  let segments := [leafOf [1; 3]; leafOf [5; 6]; leafOf [6]; leafOf [7]] in
  merge mergeLists (leafOf [1; 3]) (leafOf [5; 6]) = Ok a
  /\ wellFormed a = true /\ wellFormed b = true
  /\ Partition a (First b) LessOrder = Ok (a, EmptyRange)
  /\ merge mergeLists a b = Ok (disjointRanges (Some 1) (Some 7) segments)
  /\ I1 segments = false /\ I1elements segments = false.
Proof. cbv zeta. repeat split. Qed.

(** C5, as stated, fails when both operands are empty: [merge] tests [a]
    first and returns [b], not [a]. *)
Lemma merge_both_empty_returns_b :
  ~ (Limit (Leaf None None []) = 0 ->
     merge mergeLists EmptyRange (Leaf None None []) = Ok EmptyRange).
Proof. intros H. specialize (H eq_refl). discriminate. Qed.

(** C5 (amended): [merge] returns [r] itself when the other operand is empty
    and comes first, or comes second and [r] is not empty; when both are
    empty it returns the second.  In every case merging with [EmptyRange] on
    either side gives a range with exactly the element sequence of [r]. *)
Theorem merge_identity combine a b r :
  (Limit a = 0 -> merge combine a r = Ok r)
  /\ (Limit b = 0 -> Limit r <> 0 -> merge combine r b = Ok r)
  /\ (Limit b = 0 -> Limit r = 0 -> merge combine r b = Ok b)
  /\ exists r1 r2,
       merge combine EmptyRange r = Ok r1 /\ merge combine r EmptyRange = Ok r2
       /\ elements r1 = elements r /\ elements r2 = elements r.
Proof.
  unfold merge. repeat split.
  - intros ->. reflexivity.
  - intros -> Hr. apply Z.eqb_neq in Hr. now rewrite Hr.
  - intros _ ->. reflexivity.
  - exists r. destruct (Limit r =? 0) eqn:Hr.
    + exists EmptyRange. cbn. apply Z.eqb_eq in Hr.
      now rewrite (Limit_zero_elements r Hr).
    + exists r. now cbn.
Qed.

Lemma merge_identity_witness :
  merge mergeLists EmptyRange (leafOf [1; 2; 3]) = Ok (leafOf [1; 2; 3])
  /\ merge mergeLists (leafOf [1; 2; 3]) EmptyRange = Ok (leafOf [1; 2; 3]).
Proof.
  destruct (merge_identity mergeLists EmptyRange EmptyRange (leafOf [1; 2; 3]))
    as (H1 & H2 & _).
  split; [apply H1; reflexivity | apply H2; [reflexivity | discriminate]].
Defined.

(** C6: over a composite, a fresh cursor read by [Next] and a fresh cursor
    read by [Fill] with buffers of any sizes produce the same elements, which
    are the first elements of the composite's sequence; [Next] answers nil
    once they are used up; each [Fill] returns the number of slots it wrote
    and leaves the rest of its buffer alone; and once every element has been
    read [Fill] returns 0. *)
Theorem cursor_Next_Fill_agree first last segments sizes :
  let d := disjointRanges first last segments in
  segmentsOk d = true ->
  exists c0 xs cN outs cF,
    Open d = Ok c0
    /\ nextN (totalSize sizes) c0 = Some (Ok (xs, cN))
    /\ fillAll sizes c0 = Some (Ok (outs, cF))
    /\ written outs = nonNil xs
    /\ xs = map Some (firstn (totalSize sizes) (elements d))
              ++ repeat None (totalSize sizes - length (elements d))
    /\ Forall2 (fun size out =>
                  (fst out <= size)%nat
                  /\ snd out = firstn (fst out) (snd out) ++ repeat None (size - fst out))
               sizes outs
    /\ ((length (elements d) <= totalSize sizes)%nat ->
        written outs = map Some (elements d)
        /\ (exists c', Next cF = Some (Ok (None, c')))
        /\ forall buffer, exists c', Fill cF buffer = Some (Ok (O, buffer, c'))).
Proof.
  intros d Hok.
  destruct (Open_ok d Hok) as (c0 & Ho & Hr & Hc & _).
  destruct (nextN_spec (totalSize sizes) c0 Hc) as (cN & Hn & _ & _).
  destruct (fillAll_spec sizes c0 Hc) as (outs & cF & Hf & Hw & Hall & HrF & HcF).
  rewrite Hr in Hn, Hw, HrF.
  eexists c0, _, cN, outs, cF.
  split; [exact Ho|]. split; [exact Hn|]. split; [exact Hf|].
  split; [now rewrite nonNil_prefix|]. split; [reflexivity|]. split; [exact Hall|].
  intros Hlen. rewrite skipn_all2 in HrF by assumption.
  split; [now rewrite Hw, firstn_all2|]. split.
  - destruct (Next_spec cF HcF) as (c' & Hn' & _). rewrite HrF in Hn'. now exists c'.
  - intros buffer. destruct (Fill_spec cF buffer HcF) as (c' & Hf' & _).
    rewrite HrF in Hf'. cbn [length] in Hf'. rewrite Nat.min_0_r in Hf'.
    now exists c'.
Qed.

Lemma cursor_Next_Fill_agree_witness :
  segmentsOk (disjointRanges (Some 1) (Some 4) [leafOf [1; 2]; leafOf [3; 4]]) = true
  /\ exists c0 xs cN outs cF,
    Open (disjointRanges (Some 1) (Some 4) [leafOf [1; 2]; leafOf [3; 4]]) = Ok c0
    /\ nextN (totalSize [3; 3]%nat) c0 = Some (Ok (xs, cN))
    /\ fillAll [3; 3]%nat c0 = Some (Ok (outs, cF))
    /\ written outs = nonNil xs.
Proof.
  split; [reflexivity|].
  destruct (cursor_Next_Fill_agree (Some 1) (Some 4) [leafOf [1; 2]; leafOf [3; 4]]
              [3; 3]%nat eq_refl)
    as (c0 & xs & cN & outs & cF & H1 & H2 & H3 & H4 & _).
  exists c0, xs, cN, outs, cF. repeat split; assumption.
Defined.

(** C7 (code at the failing input): merging a composite with a range that
    starts at the first element of the composite's last segment keeps the
    whole composite as the left part; the cached [last] of the result is not
    the last bound of its last segment, and its sequence is not sorted. *)
Theorem merge_breaks_I2 :
  let a := disjointRanges (Some 1) (Some 8) [leafOf [1; 2]; leafOf [5; 8]] in
  let b := leafOf [5; 6] in
  let segments := [leafOf [1; 2]; leafOf [5; 8]; leafOf [5; 6]] in
  merge mergeLists (leafOf [1; 2]) (leafOf [5; 8]) = Ok a
  /\ wellFormed a = true /\ wellFormed b = true
  /\ Partition a (First b) LessOrder = Ok (a, EmptyRange)
  /\ merge mergeLists a b = Ok (disjointRanges (Some 1) (Some 8) segments)
  /\ I2 (Some 1) (Some 8) segments = false
  /\ Last (List.last segments EmptyRange) = Some 6
  /\ sorted (elements (disjointRanges (Some 1) (Some 8) segments)) = false.
Proof. cbv zeta. repeat split. Qed.

(** C8: in the overlapping case of [merge], on non-empty ranges of the core
    (well-formed ranges are such, [wellFormed_inv]), both partitions return,
    the left part of [b] is not empty, at least one part survives and
    [merge] returns: the panic on zero surviving parts is not reached.  The
    overlap-merge primitive is only assumed to give a non-empty sequence
    starting no later than its operands. *)
Theorem merge_overlap_has_survivor
    (combine : list Z -> list Z -> list Z)
    (combine_head : forall l1 l2 h1 h2,
        hd_error l1 = Some h1 -> hd_error l2 = Some h2 ->
        exists h, hd_error (combine l1 l2) = Some h /\ h <= h1 /\ h <= h2)
    (a b : SortedRange) :
  inv a = true -> inv b = true -> 0 < Limit a -> 0 < Limit b ->
  callLess (Last a) (First b) = Ok false ->
  exists p3 p4 survivors r,
    Partition b (Last a) LessOrEqualOrder = Ok (p3, p4)
    /\ 0 < Limit p3
    /\ assemble combine a b = Ok survivors
    /\ survivors <> []
    /\ merge combine a b = Ok r.
Proof.
  intros Hia Hib Hla Hlb Hover.
  destruct (inv_bounds a Hia Hla) as (ca & la & Hfa & Hlasta).
  destruct (inv_bounds b Hib Hlb) as (cb & lb & Hfb & Hlastb).
  assert (Hless : Less la cb = false).
  { unfold callLess in Hover. rewrite Hlasta, Hfb in Hover. cbn in Hover. congruence. }
  destruct (assemble_ok combine combine_head a b ca la cb lb Hia Hib Hfa Hlasta Hfb Hlastb Hless)
    as (p1 & p2 & p3 & p4 & s & tl & f & _ & HP3 & Hl3 & Hasm & _).
  destruct (merge_ok combine combine_head a b Hia Hib) as (r & Hm & _).
  exists p3, p4, (s :: tl), r. repeat split; try assumption. discriminate.
Qed.

Lemma merge_overlap_has_survivor_witness :
  exists p3 p4 survivors r,
    Partition (leafOf [2; 4; 6]) (Last (leafOf [1; 3; 5])) LessOrEqualOrder = Ok (p3, p4)
    /\ 0 < Limit p3
    /\ assemble mergeLists (leafOf [1; 3; 5]) (leafOf [2; 4; 6]) = Ok survivors
    /\ survivors <> []
    /\ merge mergeLists (leafOf [1; 3; 5]) (leafOf [2; 4; 6]) = Ok r.
Proof.
  apply (merge_overlap_has_survivor mergeLists mergeLists_head);
    reflexivity.
Defined.

(** C9: the invariant [inv] holds of well-formed ranges ([wellFormed_inv])
    and is kept by [merge] and [Partition], which both return on such
    ranges; so it holds of every range the core produces.  Under it no
    composite, at any depth, has zero segments, [Open] finds its first
    segment, and in [Partition] a boundary match at index 0 is excluded once
    [o(first, e)] has held: the access to [segments[i-1]] is in range. *)
Theorem no_composite_without_segments
    (combine : list Z -> list Z -> list Z)
    (combine_head : forall l1 l2 h1 h2,
        hd_error l1 = Some h1 -> hd_error l2 = Some h2 ->
        exists h, hd_error (combine l1 l2) = Some h /\ h <= h1 /\ h <= h2)
    (a b : SortedRange) (o : Order) (p : Z) :
  inv a = true -> inv b = true ->
  (exists r c, merge combine a b = Ok r /\ inv r = true
               /\ segmentsOk r = true /\ Open r = Ok c)
  /\ (exists l r cl cr,
        Partition a (Some p) o = Ok (l, r) /\ inv l = true /\ inv r = true
        /\ segmentsOk l = true /\ segmentsOk r = true
        /\ Open l = Ok cl /\ Open r = Ok cr)
  /\ (forall first last segments,
        a = disjointRanges first last segments ->
        segments <> []
        /\ (callOrder o first (Some p) = Ok true ->
            boundaryMatch o (Some p) (First (nth 0 segments EmptyRange)) = Ok false)).
Proof.
  intros Hia Hib. split; [|split].
  - destruct (merge_ok combine combine_head a b Hia Hib) as (r & Hm & Hir).
    pose proof (inv_segmentsOk r Hir) as Hsr.
    destruct (Open_ok r Hsr) as (c & Ho & _).
    now exists r, c.
  - destruct (Partition_total a o p Hia) as (l & r & HP & Hil & Hir).
    pose proof (inv_segmentsOk l Hil) as Hsl. pose proof (inv_segmentsOk r Hir) as Hsr.
    destruct (Open_ok l Hsl) as (cl & Hol & _). destruct (Open_ok r Hsr) as (cr & Hor & _).
    now exists l, r, cl, cr.
  - intros first last segments ->.
    apply inv_disjoint in Hia as (c & l & s0 & tl & c0 & -> & -> & -> & _ & Hf0 & Hc0).
    split; [discriminate|]. cbn [callOrder nth]. intros [= Hc].
    rewrite Hf0, (boundaryMatch_eq o p c0). f_equal.
    destruct (holds o p c0 && negb (holds o c0 p)) eqn:Hbm; [|reflexivity].
    apply boundary_lt in Hbm. apply holds_not_lt in Hc. lia.
Qed.

Lemma no_composite_without_segments_witness :
  exists l r cl cr,
    Partition (disjointRanges (Some 1) (Some 6) [leafOf [1; 3]; leafOf [5; 6]])
      (Some 4) LessOrder = Ok (l, r)
    /\ inv l = true /\ inv r = true
    /\ segmentsOk l = true /\ segmentsOk r = true
    /\ Open l = Ok cl /\ Open r = Ok cr.
Proof.
  apply (no_composite_without_segments mergeLists mergeLists_head
           (disjointRanges (Some 1) (Some 6) [leafOf [1; 3]; leafOf [5; 6]])
           EmptyRange LessOrder 4); reflexivity.
Defined.

(** C10: [selectFirst] returns the lesser first bound and [selectLast] the
    greater last bound; a nil bound defers to the other operand (nil when
    both are nil); when neither bound is less than the other, the bound of
    [b] is returned.  On the integer elements of the core two bounds that
    tie are equal; the last part states the choice for every type of
    elements and every [less], where a tie can be between different values:
    [selectFirstOf] returns the bound of [a] exactly when it is less than the
    bound of [b], [selectLastOf] returns the bound of [a] exactly when the
    bound of [b] is less than it, and on a tie both return the bound of
    [b]. *)
Theorem select_bounds a b :
  (First a = None -> selectFirst a b = First b)
  /\ (First b = None -> First a <> None -> selectFirst a b = First a)
  /\ (First a = None -> First b = None -> selectFirst a b = None)
  /\ (forall x y, First a = Some x -> First b = Some y ->
        selectFirst a b = Some (Z.min x y)
        /\ (Less x y = true -> selectFirst a b = First a)
        /\ (Less x y = false -> selectFirst a b = First b))
  /\ (Last a = None -> selectLast a b = Last b)
  /\ (Last b = None -> Last a <> None -> selectLast a b = Last a)
  /\ (Last a = None -> Last b = None -> selectLast a b = None)
  /\ (forall x y, Last a = Some x -> Last b = Some y ->
        selectLast a b = Some (Z.max x y)
        /\ (Less y x = true -> selectLast a b = Last a)
        /\ (Less y x = false -> selectLast a b = Last b))
  /\ selectFirst a b = selectFirstOf Less (First a) (First b)
  /\ selectLast a b = selectLastOf Less (Last a) (Last b)
  /\ (forall (E : Type) (less : E -> E -> bool) (ea eb : option E),
        (ea = None -> selectFirstOf less ea eb = eb /\ selectLastOf less ea eb = eb)
        /\ (eb = None -> ea <> None ->
            selectFirstOf less ea eb = ea /\ selectLastOf less ea eb = ea)
        /\ (forall x y, ea = Some x -> eb = Some y ->
              (less x y = true -> selectFirstOf less ea eb = ea)
              /\ (less x y = false -> selectFirstOf less ea eb = eb)
              /\ (less y x = true -> selectLastOf less ea eb = ea)
              /\ (less y x = false -> selectLastOf less ea eb = eb)
              /\ (less x y = false -> less y x = false ->
                  selectFirstOf less ea eb = eb /\ selectLastOf less ea eb = eb))).
Proof.
  unfold selectFirst, selectLast.
  split; [now intros ->|].
  split; [intros ->; destruct (First a); cbn; congruence|].
  split; [now intros -> ->|].
  split.
  { intros x y -> ->. unfold selectFirstOf, Less.
    destruct (x <? y) eqn:Hlt; [apply Z.ltb_lt in Hlt | apply Z.ltb_ge in Hlt].
    - split; [f_equal; lia|]. split; [reflexivity | discriminate].
    - split; [f_equal; lia|]. split; [discriminate | reflexivity]. }
  split; [now intros ->|].
  split; [intros ->; destruct (Last a); cbn; congruence|].
  split; [now intros -> ->|].
  split.
  { intros x y -> ->. unfold selectLastOf, Less.
    destruct (y <? x) eqn:Hlt; [apply Z.ltb_lt in Hlt | apply Z.ltb_ge in Hlt]; cbn [negb].
    - split; [f_equal; lia|]. split; [reflexivity | discriminate].
    - split; [f_equal; lia|]. split; [discriminate | reflexivity]. }
  split; [reflexivity|]. split; [reflexivity|].
  intros E less ea eb. split; [now intros ->|].
  split; [intros -> Hne; destruct ea; [now split | contradiction]|].
  intros x y -> ->. unfold selectFirstOf, selectLastOf.
  destruct (less x y), (less y x); cbn [negb]; repeat split; intros; congruence.
Qed.

Lemma select_bounds_witness :
  selectFirst (leafOf [1; 3; 5]) (leafOf [2; 4; 6]) = Some 1
  /\ selectLast (leafOf [1; 3; 5]) (leafOf [2; 4; 6]) = Some 6
  /\ selectFirst EmptyRange (leafOf [2; 4; 6]) = Some 2
  /\ keyLess (5, "a"%string) (5, "b"%string) = false
  /\ keyLess (5, "b"%string) (5, "a"%string) = false
  /\ selectFirstOf keyLess (Some (5, "a"%string)) (Some (5, "b"%string))
     = Some (5, "b"%string)
  /\ selectLastOf keyLess (Some (5, "a"%string)) (Some (5, "b"%string))
     = Some (5, "b"%string)
  /\ selectFirstOf keyLess (Some (4, "a"%string)) (Some (5, "b"%string))
     = Some (4, "a"%string)
  /\ selectLastOf keyLess (Some (6, "a"%string)) (Some (5, "b"%string))
     = Some (6, "a"%string).
Proof.
  destruct (select_bounds (leafOf [1; 3; 5]) (leafOf [2; 4; 6]))
    as (_ & _ & _ & HF & _ & _ & _ & HL & _ & _ & HG).
  destruct (select_bounds EmptyRange (leafOf [2; 4; 6])) as (HN & _).
  destruct (HG _ keyLess (Some (5, "a"%string)) (Some (5, "b"%string)))
    as (_ & _ & Htie).
  destruct (Htie _ _ eq_refl eq_refl) as (_ & _ & _ & _ & Hboth).
  destruct (HG _ keyLess (Some (4, "a"%string)) (Some (5, "b"%string)))
    as (_ & _ & Hlt).
  destruct (Hlt _ _ eq_refl eq_refl) as (Ha & _).
  destruct (HG _ keyLess (Some (6, "a"%string)) (Some (5, "b"%string)))
    as (_ & _ & Hgt).
  destruct (Hgt _ _ eq_refl eq_refl) as (_ & _ & Hb & _).
  split; [exact (proj1 (HF 1 2 eq_refl eq_refl))|].
  split; [exact (proj1 (HL 5 6 eq_refl eq_refl))|].
  split; [exact (HN eq_refl)|].
  split; [reflexivity|]. split; [reflexivity|].
  split; [exact (proj1 (Hboth eq_refl eq_refl))|].
  split; [exact (proj2 (Hboth eq_refl eq_refl))|].
  split; [exact (Ha eq_refl) | exact (Hb eq_refl)].
Defined.

(** * Further properties of the code *)

(** ** flatten *)

Lemma flat_map_elements_expand segments :
  flat_map elements (flat_map expand segments) = flat_map elements segments.
Proof.
  induction segments as [|s segs IH]; [reflexivity|].
  cbn [flat_map]. rewrite flat_map_app, IH. f_equal.
  destruct s; cbn [expand flat_map elements]; now rewrite ?app_nil_r.
Qed.

Lemma sumLimits_expand segments :
  sumLimits (flat_map expand segments) = sumLimits segments.
Proof.
  induction segments as [|s segs IH]; [reflexivity|].
  cbn [flat_map]. rewrite sumLimits_app, sumLimits_cons, IH. f_equal.
  destruct s as [| f l es | f l segs0]; cbn [expand];
    rewrite ?sumLimits_cons, ?Limit_disjoint; cbn [sumLimits fold_right]; lia.
Qed.

(** X1: [flatten] keeps the order of the list and replaces each composite by
    its own segments, one level deep; the flattened list stands for the same
    element sequence and has the same total limit. *)
Theorem flatten_keeps_sequence segments :
  flatten segments
  = flat_map (fun s => match s with
                       | disjointRanges _ _ segs => segs
                       | _ => [s]
                       end) segments
  /\ flat_map elements (flatten segments) = flat_map elements segments
  /\ sumLimits (flatten segments) = sumLimits segments.
Proof.
  rewrite flatten_expand. split; [reflexivity|]. split.
  - apply flat_map_elements_expand.
  - apply sumLimits_expand.
Qed.

Lemma I3_app xs ys : I3 (xs ++ ys) = I3 xs && I3 ys.
Proof. unfold I3. apply forallb_app. Qed.

Lemma I3_expand s : I3 (expand s) = flatSegment s.
Proof. destruct s; cbn; reflexivity. Qed.

Lemma I3_flatten segments : I3 (flatten segments) = forallb flatSegment segments.
Proof.
  rewrite flatten_expand. induction segments as [|s segs IH]; [reflexivity|].
  cbn [flat_map forallb]. now rewrite I3_app, I3_expand, IH.
Qed.

Lemma flatten_flat segments : I3 segments = true -> flatten segments = segments.
Proof.
  rewrite flatten_expand. induction segments as [|s segs IH]; [reflexivity|].
  unfold I3. cbn [forallb flat_map]. intros H. apply andb_true_iff in H as [Hs Hrest].
  rewrite (IH Hrest). destruct s; [reflexivity | reflexivity | discriminate].
Qed.

(** X2: [flatten] removes exactly one level of nesting: its result has no
    composite in it if and only if every composite of the input has no
    composite among its own segments; a list without composites is returned
    as it is, so in that case flattening twice changes nothing more. *)
Theorem flatten_one_level segments :
  I3 (flatten segments) = forallb flatSegment segments
  /\ (I3 segments = true -> flatten segments = segments)
  /\ (forallb flatSegment segments = true ->
      flatten (flatten segments) = flatten segments).
Proof.
  split; [apply I3_flatten|]. split; [apply flatten_flat|].
  intros H. apply flatten_flat. now rewrite I3_flatten.
Qed.

Lemma flatten_one_level_witness :
  flatten (flatten [disjointRanges (Some 1) (Some 6) [leafOf [1; 3]; leafOf [5; 6]];
                    leafOf [10; 11]])
  = flatten [disjointRanges (Some 1) (Some 6) [leafOf [1; 3]; leafOf [5; 6]];
             leafOf [10; 11]].
Proof.
  apply (flatten_one_level
           [disjointRanges (Some 1) (Some 6) [leafOf [1; 3]; leafOf [5; 6]];
            leafOf [10; 11]]).
  reflexivity.
Defined.

(** ** Limit *)

Lemma sumLimits_elements segments :
  Forall (fun r => Limit r = Z.of_nat (length (elements r))) segments ->
  sumLimits segments = Z.of_nat (length (flat_map elements segments)).
Proof.
  induction 1 as [|s segs Hs _ IH]; [reflexivity|].
  rewrite sumLimits_cons. cbn [flat_map]. rewrite length_app, Hs, IH. lia.
Qed.

Lemma Limit_length r : Limit r = Z.of_nat (length (elements r)).
Proof.
  induction r as [| first last elems | first last segments IH]
    using SortedRange_nested_ind; try reflexivity.
  rewrite Limit_disjoint. cbn [elements]. now apply sumLimits_elements.
Qed.

Lemma Limit_pos_elements r : 0 < Limit r <-> elements r <> [].
Proof.
  rewrite Limit_length. destruct (elements r); cbn [length]; split; intros H;
    try discriminate; try lia. now contradiction H.
Qed.

Lemma wrapInt_range z : minInt <= wrapInt z <= maxInt.
Proof.
  unfold wrapInt, minInt, maxInt.
  change (2 ^ 63) with 9223372036854775808. change (2 ^ 64) with 18446744073709551616.
  match goal with
  | |- context [?a mod ?b] => pose proof (Z.mod_pos_bound a b)
  end. lia.
Qed.

Lemma wrapInt_congruent z : exists k, wrapInt z = z + k * 2 ^ 64.
Proof.
  exists (- ((z - minInt) / 2 ^ 64)). unfold wrapInt.
  pose proof (Z.div_mod (z - minInt) (2 ^ 64)) as H.
  change (2 ^ 64) with 18446744073709551616 in *. lia.
Qed.

Lemma wrapInt_id z : minInt <= z <= maxInt -> wrapInt z = z.
Proof.
  unfold wrapInt, minInt, maxInt.
  change (2 ^ 63) with 9223372036854775808. change (2 ^ 64) with 18446744073709551616.
  intros H. rewrite Z.mod_small; lia.
Qed.

Lemma limit_range limits :
  forall acc, minInt <= acc <= maxInt ->
  minInt <= fold_left (fun limit n => wrapInt (limit + n)) limits acc <= maxInt.
Proof.
  induction limits as [|n limits IH]; intros acc Hacc; [exact Hacc|].
  cbn [fold_left]. apply IH, wrapInt_range.
Qed.

Lemma limit_congruent limits :
  forall acc, exists k,
    fold_left (fun limit n => wrapInt (limit + n)) limits acc
    = acc + sumZ limits + k * 2 ^ 64.
Proof.
  induction limits as [|n limits IH]; intros acc.
  - exists 0. cbn. lia.
  - cbn [fold_left sumZ fold_right]. fold (sumZ limits).
    destruct (IH (wrapInt (acc + n))) as [k Hk].
    destruct (wrapInt_congruent (acc + n)) as [k' Hk'].
    exists (k + k'). rewrite Hk, Hk'. lia.
Qed.

Lemma limit_exact limits :
  forall acc, Forall (fun n => 0 <= n) limits -> 0 <= acc ->
  acc + sumZ limits <= maxInt ->
  fold_left (fun limit n => wrapInt (limit + n)) limits acc = acc + sumZ limits.
Proof.
  induction limits as [|n limits IH]; intros acc Hall Hacc Hsum.
  - cbn. lia.
  - inversion Hall as [|? ? Hn Hrest]; subst.
    cbn [fold_left sumZ fold_right] in *. fold (sumZ limits) in *.
    assert (Hnn : 0 <= sumZ limits).
    { clear -Hrest. induction Hrest as [|x l Hx _ IHl]; cbn; [lia|].
      fold (sumZ l). lia. }
    rewrite wrapInt_id by (unfold minInt, maxInt in *; lia).
    rewrite IH; [lia | assumption | lia | lia].
Qed.

Lemma sumZ_le counts limits : Forall2 Z.le counts limits -> sumZ counts <= sumZ limits.
Proof.
  induction 1 as [|c n counts limits Hc _ IH]; [reflexivity|].
  cbn [sumZ fold_right]. fold (sumZ counts) (sumZ limits). lia.
Qed.

Lemma sumZ_Limit segments : sumZ (map Limit segments) = sumLimits segments.
Proof.
  induction segments as [|s segs IH]; [reflexivity|].
  cbn [map sumZ fold_right]. fold (sumZ (map Limit segs)).
  now rewrite sumLimits_cons, IH.
Qed.

(** X3: [Limit] of a composite in Go's [int] arithmetic.  Whatever the
    segments report, the sum that [Limit] returns is an [int] that differs
    from the sum of their limits by a multiple of 2^64.  When the limits of
    the segments are not negative and their sum is at most the greatest
    [int], no addition wraps around: [Limit] returns exactly their sum, and
    if each segment reports at least the number of its elements, so does the
    composite.  Then it is also the limit that this development computes on
    the integers for a composite over these segments. *)
Theorem Limit_as_int limits :
  minInt <= limitLoop limits <= maxInt
  /\ (exists k, limitLoop limits = sumZ limits + k * 2 ^ 64)
  /\ (Forall (fun n => 0 <= n) limits -> sumZ limits <= maxInt ->
      limitLoop limits = sumZ limits
      /\ forall counts, Forall2 Z.le counts limits -> sumZ counts <= limitLoop limits)
  /\ (forall first last segments,
        limits = map Limit segments ->
        Limit (disjointRanges first last segments) <= maxInt ->
        limitLoop limits = Limit (disjointRanges first last segments)).
Proof.
  unfold limitLoop. split; [|split; [|split]].
  - apply limit_range. unfold minInt, maxInt. lia.
  - destruct (limit_congruent limits 0) as [k Hk]. exists k. rewrite Hk. lia.
  - intros Hall Hsum.
    assert (E : fold_left (fun limit n => wrapInt (limit + n)) limits 0 = sumZ limits).
    { rewrite limit_exact; [lia | assumption | lia | lia]. }
    split; [exact E|]. intros counts Hc. rewrite E. now apply sumZ_le.
  - intros first last segments -> Hmax. rewrite Limit_disjoint in *.
    rewrite limit_exact; rewrite ?sumZ_Limit; try lia.
    apply Forall_forall. intros n Hn. apply in_map_iff in Hn as (s & <- & _).
    apply Limit_nonneg.
Qed.

Lemma Limit_as_int_witness :
  limitLoop [2; 3] = 5
  /\ 4 <= limitLoop [2; 3]
  /\ limitLoop (map Limit [leafOf [1; 3]; leafOf [5; 6; 7]])
     = Limit (disjointRanges (Some 1) (Some 7) [leafOf [1; 3]; leafOf [5; 6; 7]])
  /\ limitLoop [maxInt; maxInt] = -2
  /\ sumZ [maxInt; maxInt] = 2 ^ 64 - 2.
Proof.
  destruct (Limit_as_int [2; 3]) as (_ & _ & Hexact & _).
  destruct Hexact as [E Hup];
    [repeat constructor; lia | unfold maxInt; cbn; lia |].
  destruct (Limit_as_int (map Limit [leafOf [1; 3]; leafOf [5; 6; 7]]))
    as (_ & _ & _ & Hlink).
  split; [exact E|].
  split; [apply (Hup [1; 3]); repeat constructor; lia|].
  split; [apply (Hlink (Some 1) (Some 7) _ eq_refl); unfold maxInt; cbn; lia|].
  split; reflexivity.
Defined.

(** ** Cursors: mixing Next and Fill *)

Lemma runCalls_spec calls :
  forall c, cursorOk c = true ->
  exists c', runCalls calls c
             = Some (Ok (map Some (firstn (demand calls) (remaining c)), c'))
    /\ remaining c' = skipn (demand calls) (remaining c)
    /\ cursorOk c' = true.
Proof.
  induction calls as [|k calls IH]; intros c Hok.
  - exists c. cbn. now repeat split.
  - destruct k as [|size]; cbn [runCalls];
      [change (demand (CallNext :: calls)) with (1 + demand calls)%nat
      |change (demand (CallFill size :: calls)) with (size + demand calls)%nat].
    + destruct (Next_spec c Hok) as (c1 & Hn & Hr & Hc).
      destruct (IH c1 Hc) as (c2 & Hrun & Hr2 & Hc2).
      exists c2. rewrite Hn. cbn [fbind]. rewrite Hrun. cbn [fbind].
      rewrite Hr2, Hr.
      destruct (remaining c) as [|x xs]; cbn [hd_error isNil tl firstn skipn map app plus].
      * rewrite firstn_nil, skipn_nil. now repeat split.
      * now repeat split.
    + destruct (Fill_spec c (repeat None size) Hok) as (c1 & Hf & Hr & Hc).
      rewrite repeat_length in Hf, Hr.
      set (k := Nat.min size (length (remaining c))) in *.
      destruct (IH c1 Hc) as (c2 & Hrun & Hr2 & Hc2).
      exists c2. rewrite Hf. cbn [fbind]. rewrite Hrun. cbn [fbind].
      assert (Hk : length (firstn k (remaining c)) = k)
        by (rewrite length_firstn; unfold k; lia).
      assert (Hfront : firstn k (writeFront (firstn k (remaining c)) (repeat None size))
                       = map Some (firstn k (remaining c))).
      { unfold writeFront. rewrite firstn_app, length_map, Hk, Nat.sub_diag.
        cbn [firstn]. rewrite app_nil_r. apply firstn_all2. rewrite length_map. lia. }
      unfold Element in *. rewrite Hfront, Hr2, Hr, <- map_app, skipn_skipn.
      destruct (Nat.le_gt_cases size (length (remaining c))) as [Hle|Hgt].
      * assert (Hks : k = size) by (unfold k; lia). rewrite Hks.
        split; [|split; [f_equal; lia | assumption]].
        do 3 f_equal.
        rewrite <- (firstn_skipn size (firstn (size + demand calls) (remaining c))).
        rewrite firstn_firstn.
        replace (Nat.min size (size + demand calls)) with size by lia.
        f_equal. rewrite skipn_firstn_comm.
        now replace (size + demand calls - size)%nat with (demand calls) by lia.
      * assert (Hkl : k = length (remaining c)) by (unfold k; lia). rewrite Hkl.
        rewrite firstn_all, skipn_all, firstn_nil, app_nil_r.
        rewrite (firstn_all2 (n:=size + demand calls)) by lia.
        split; [reflexivity|]. split; [|assumption].
        rewrite !skipn_all2; [reflexivity | lia | lia].
Qed.

(** X4: on a cursor freshly opened on a range all of whose composites have a
    segment, [Next] and [Fill] calls may be mixed in any order: together they
    produce the elements of the range in order, as many as were asked for,
    and nothing else; the cursor is left at the first element not yet
    produced. *)
Theorem Next_and_Fill_interleave r calls :
  segmentsOk r = true ->
  exists c0 c',
    Open r = Ok c0
    /\ runCalls calls c0 = Some (Ok (map Some (firstn (demand calls) (elements r)), c'))
    /\ remaining c' = skipn (demand calls) (elements r).
Proof.
  intros Hok. destruct (Open_ok r Hok) as (c0 & Ho & Hr & Hc & _).
  destruct (runCalls_spec calls c0 Hc) as (c' & Hrun & Hr' & _).
  rewrite Hr in Hrun, Hr'. now exists c0, c'.
Qed.

Lemma Next_and_Fill_interleave_witness :
  exists c0 c',
    Open (disjointRanges (Some 1) (Some 4) [leafOf [1; 2]; leafOf [3; 4]]) = Ok c0
    /\ runCalls [CallNext; CallFill 2; CallNext; CallNext] c0
       = Some (Ok (map Some (firstn 5 [1; 2; 3; 4]), c'))
    /\ remaining c' = skipn 5 [1; 2; 3; 4].
Proof.
  apply (Next_and_Fill_interleave
           (disjointRanges (Some 1) (Some 4) [leafOf [1; 2]; leafOf [3; 4]])
           [CallNext; CallFill 2; CallNext; CallNext]).
  reflexivity.
Defined.


(** ** Partition: when the parts are separated by the pivot *)

Lemma holds_gt_false o x p : p < x -> holds o x p = false.
Proof.
  destruct o; cbn; unfold Less; intros H.
  - apply Z.ltb_ge. lia.
  - apply negb_false_iff, Z.ltb_lt. lia.
Qed.

Lemma holds_lt_true o x p : x < p -> holds o x p = true.
Proof.
  destruct o; cbn; unfold Less; intros H.
  - apply Z.ltb_lt. lia.
  - apply negb_true_iff, Z.ltb_ge. lia.
Qed.

Lemma holds_false_mono o x y p : x <= y -> holds o x p = false -> holds o y p = false.
Proof.
  intros Hxy Hx. destruct (holds o y p) eqn:Hy; [|reflexivity].
  now rewrite (holds_mono o x y p Hxy Hy) in Hx.
Qed.

Lemma eqElement_neq x p : negb (eqElement (Some x) (Some p)) = true -> x <> p.
Proof. cbn. intros H Heq. subst. now rewrite Z.eqb_refl in H. Qed.

Lemma clearOf_segment o p first last segments s :
  clearOf o p (disjointRanges first last segments) -> In s segments -> clearOf o p s.
Proof.
  intros [Ho|Hb] Hin; [now left | right].
  cbn [boundsAvoid] in Hb. rewrite forallb_forall in Hb. specialize (Hb s Hin).
  now apply andb_true_iff in Hb as [_ ?].
Qed.

(** A segment that the loop of [Partition] passes over lies before the
    pivot. *)
Lemma skipped_before o p first last segments s fr lr :
  clearOf o p (disjointRanges first last segments) -> In s segments ->
  First s = Some fr -> Last s = Some lr ->
  holds o p fr && negb (holds o fr p) = false ->
  holds o fr p && holds o p lr = false ->
  forall x, x <= lr -> holds o x p = true.
Proof.
  intros Hclear Hin Hfr Hlr Hbm Him x Hx.
  destruct Hclear as [->|Hb].
  - apply holdsLE_true. apply andb_false_iff in Hbm, Him.
    destruct Him as [Him|Him]; [|apply holdsLE_false in Him; lia].
    apply holdsLE_false in Him.
    destruct Hbm as [Hbm|Hbm].
    + apply holdsLE_false in Hbm. lia.
    + apply negb_false_iff, holdsLE_true in Hbm. lia.
  - cbn [boundsAvoid] in Hb. rewrite forallb_forall in Hb. specialize (Hb s Hin).
    apply andb_true_iff in Hb as [Hb _]. apply andb_true_iff in Hb as [Hnf Hnl].
    rewrite Hfr in Hnf. rewrite Hlr in Hnl.
    apply eqElement_neq in Hnf, Hnl.
    apply holds_lt_true.
    destruct o; cbn in Hbm, Him; unfold Less in Hbm, Him;
      apply andb_false_iff in Hbm, Him.
    + assert (Hfp : fr < p).
      { destruct Hbm as [Hbm|Hbm]; [apply Z.ltb_ge in Hbm; lia|].
        apply negb_false_iff, Z.ltb_lt in Hbm. lia. }
      destruct Him as [Him|Him]; apply Z.ltb_ge in Him; lia.
    + assert (Hfp : fr < p).
      { destruct Hbm as [Hbm|Hbm].
        - apply negb_false_iff, Z.ltb_lt in Hbm. lia.
        - apply negb_false_iff, negb_true_iff, Z.ltb_ge in Hbm. lia. }
      destruct Him as [Him|Him]; apply negb_false_iff, Z.ltb_lt in Him; lia.
Qed.

Section ScanSeparates.
Variables (c lst p : Z) (o : Order) (segments : list SortedRange).
Hypothesis Hwf : forallb (fun s => wellFormed s && (0 <? Limit s)) segments = true.
Hypothesis HI1 : I1 segments = true.
Hypothesis Hclear : clearOf o p (disjointRanges (Some c) (Some lst) segments).
Hypothesis IH :
  Forall (fun s => wellFormed s = true -> clearOf o p s ->
                   forall l r, Partition s (Some p) o = Ok (l, r) ->
                   Forall (fun x => holds o x p = true) (elements l)
                   /\ Forall (fun x => holds o x p = false) (elements r))
         segments.

Lemma scan_separates rest :
  forall pre l r,
    segments = pre ++ rest ->
    Forall (fun x => holds o x p = true) (flat_map elements pre) ->
    scan (disjointRanges (Some c) (Some lst) segments)
      (Some c) (Some lst) segments (Some p) o (length pre) rest = Ok (l, r) ->
    Forall (fun x => holds o x p = true) (elements l)
    /\ Forall (fun x => holds o x p = false) (elements r).
Proof using Hwf HI1 Hclear IH.
  induction rest as [|r0 rest' IHrest]; intros pre l r Heq Hpre Hscan.
  - cbn [scan] in Hscan. injection Hscan as <- <-.
    rewrite app_nil_r in Heq. subst pre. cbn [elements]. split; [assumption | constructor].
  - assert (Hin : In r0 segments) by (rewrite Heq; apply in_elt).
    pose proof (segments_enclosed segments Hwf) as Henc.
    rewrite Forall_forall in Henc.
    destruct (Henc r0 Hin) as (fr & lr & Hfr & Hlr & Hle & Hel).
    assert (Hw0 : wellFormed r0 = true).
    { rewrite forallb_forall in Hwf. specialize (Hwf r0 Hin).
      now apply andb_true_iff in Hwf as [? _]. }
    pose proof (suffix_lower segments Hwf HI1 pre r0 rest' fr Heq Hfr) as Hlow.
    pose proof (suffix_after segments Hwf HI1 pre r0 rest' lr Heq Hlr) as Hafter.
    cbn [scan] in Hscan. rewrite Hfr, Hlr in Hscan. cbn [isNil] in Hscan.
    rewrite (boundaryMatch_eq o p fr) in Hscan. cbn [bind] in Hscan.
    destruct (holds o p fr && negb (holds o fr p)) eqn:Hbm.
    + apply boundary_lt in Hbm.
      destruct pre as [|y pre]; [discriminate|].
      cbn [length] in Hscan. unfold splitAt in Hscan.
      change (S (length pre)) with (length (y :: pre)) in Hscan.
      rewrite Heq, firstn_pre, skipn_pre in Hscan. injection Hscan as <- <-.
      cbn [elements]. split; [assumption|].
      eapply Forall_impl; [|exact Hlow]. cbn beta. intros x Hx.
      apply holds_gt_false. lia.
    + rewrite (insideMatch_eq o p fr lr) in Hscan. cbn [bind] in Hscan.
      destruct (holds o fr p && holds o p lr) eqn:Him.
      * destruct (Partition r0 (Some p) o) as [[p1 p2]|] eqn:HP; [|discriminate].
        cbn [bind] in Hscan.
        rewrite Forall_forall in IH.
        destruct (IH r0 Hin Hw0 (clearOf_segment _ _ _ _ _ _ Hclear Hin) p1 p2 HP)
          as (H1 & H2).
        apply andb_true_iff in Him as [_ Hplr].
        assert (Hright : Forall (fun x => holds o x p = false) (flat_map elements rest')).
        { eapply Forall_impl; [|exact Hafter]. cbn beta. intros x Hx.
          apply holds_gt_false.
          destruct o; cbn in Hplr; unfold Less in Hplr.
          - apply Z.ltb_lt in Hplr. lia.
          - apply negb_true_iff, Z.ltb_ge in Hplr. lia. }
        assert (Hleft : Forall (fun x => holds o x p = true)
                               (flat_map elements (pre ++ [p1]))).
        { rewrite flat_map_app. cbn [flat_map]. rewrite app_nil_r.
          apply Forall_app. now split. }
        unfold rebuild in Hscan.
        rewrite Heq, firstn_pre, skipn_S_pre, <- Heq in Hscan.
        destruct (Limit p2 =? 0) eqn:Hp2.
        -- destruct (isNil (Last p1)); [discriminate|].
           destruct (Z.of_nat (length pre) + 1 <? Z.of_nat (length segments));
             injection Hscan as <- <-; cbn [elements]; split;
             try assumption; constructor.
        -- destruct (isNil (Last p1)); [discriminate|].
           destruct (isNil (First p2)); [discriminate|].
           injection Hscan as <- <-. cbn [elements app flat_map].
           split; [assumption|]. apply Forall_app. now split.
      * apply (IHrest (pre ++ [r0])).
        -- now rewrite <- app_assoc.
        -- rewrite flat_map_app. cbn [flat_map]. rewrite app_nil_r.
           apply Forall_app. split; [assumption|].
           eapply Forall_impl; [|exact Hel]. cbn beta. intros x Hx.
           apply (skipped_before o p (Some c) (Some lst) segments r0 fr lr
                    Hclear Hin Hfr Hlr Hbm Him). lia.
        -- rewrite length_app. cbn [length]. now rewrite Nat.add_1_r.
Qed.
End ScanSeparates.

Lemma Partition_separates d :
  forall o p l r,
    wellFormed d = true -> clearOf o p d -> Partition d (Some p) o = Ok (l, r) ->
    Forall (fun x => holds o x p = true) (elements l)
    /\ Forall (fun x => holds o x p = false) (elements r).
Proof.
  induction d as [| first last elems | first last segments IH]
    using SortedRange_nested_ind; intros o p l r Hwf Hclear HP.
  - cbn in HP. injection HP as <- <-. split; constructor.
  - cbn in HP. injection HP as <- <-. rewrite !leafOf_elements. split.
    + apply filter_Forall. trivial.
    + apply filter_Forall. intros x Hx. now apply negb_true_iff in Hx.
  - destruct (wellFormed_segments _ _ _ Hwf) as (Hall & H2 & H1).
    destruct segments as [|s0 tl]; [discriminate|].
    pose proof (segments_enclosed _ Hall) as Henc.
    destruct (chain_enclosed s0 tl Henc H1) as (lo & hi & Hf & Hl & Hle & Hel).
    unfold I2 in H2. apply andb_true_iff in H2 as [Hf' Hl'].
    apply eqElement_eq in Hf', Hl'. subst first last. rewrite Hf, Hl in *.
    rewrite Partition_disjoint in HP. cbn [callOrder bind] in HP.
    destruct (holds o lo p) eqn:Hc; cbn [negb] in HP.
    + assert (IH' : Forall (fun s => wellFormed s = true -> clearOf o p s ->
                            forall l r, Partition s (Some p) o = Ok (l, r) ->
                            Forall (fun x => holds o x p = true) (elements l)
                            /\ Forall (fun x => holds o x p = false) (elements r))
                           (s0 :: tl)).
      { rewrite Forall_forall in *. intros s Hs Hw Hcl l' r'. now apply IH. }
      apply (scan_separates lo hi p o (s0 :: tl) Hall H1 Hclear IH' (s0 :: tl) [] l r eq_refl);
        [constructor | exact HP].
    + injection HP as <- <-. split; [constructor|].
      cbn [elements]. eapply Forall_impl; [|exact Hel]. cbn beta. intros x Hx.
      apply (holds_false_mono o lo x p); [lia | assumption].
Qed.

Lemma filter_all {A} (f : A -> bool) (l : list A) :
  Forall (fun x => f x = true) l -> filter f l = l.
Proof.
  induction 1 as [|x l Hx _ IH]; [reflexivity|]. cbn. now rewrite Hx, IH.
Qed.

Lemma filter_nothing {A} (f : A -> bool) (l : list A) :
  Forall (fun x => f x = false) l -> filter f l = [].
Proof.
  induction 1 as [|x l Hx _ IH]; [reflexivity|]. cbn. now rewrite Hx.
Qed.

Lemma separated_filter {A} (f : A -> bool) (l r d : list A) :
  l ++ r = d ->
  Forall (fun x => f x = true) l -> Forall (fun x => f x = false) r ->
  l = filter f d /\ r = filter (fun x => negb (f x)) d.
Proof.
  intros <- Hl Hr. rewrite !filter_app. split.
  - rewrite (filter_all f l Hl), (filter_nothing f r Hr). now rewrite app_nil_r.
  - rewrite (filter_nothing (fun x => negb (f x)) l), (filter_all (fun x => negb (f x)) r).
    + reflexivity.
    + eapply Forall_impl; [|exact Hr]. cbn beta. now intros x ->.
    + eapply Forall_impl; [|exact Hl]. cbn beta. now intros x ->.
Qed.

(** X5: on a well-formed range [Partition] returns, under either order and at
    any pivot, and its two parts, left then right, stand for the sequence of
    the range: no element is lost, added or moved. *)
Theorem Partition_keeps_sequence d o p :
  wellFormed d = true ->
  exists l r, Partition d (Some p) o = Ok (l, r)
              /\ elements l ++ elements r = elements d.
Proof.
  intros Hwf.
  destruct (Partition_total d o p (wellFormed_inv d Hwf)) as (l & r & HP & _ & _).
  exists l, r. split; [exact HP|].
  now destruct (Partition_splits d o p l r Hwf HP) as [? _].
Qed.

Lemma Partition_keeps_sequence_witness :
  exists l r,
    Partition (disjointRanges (Some 1) (Some 6) [leafOf [1; 3]; leafOf [5; 6]])
              (Some 5) LessOrder = Ok (l, r)
    /\ elements l ++ elements r = [1; 3; 5; 6].
Proof.
  apply (Partition_keeps_sequence
           (disjointRanges (Some 1) (Some 6) [leafOf [1; 3]; leafOf [5; 6]])
           LessOrder 5).
  reflexivity.
Defined.

(** X6: on a well-formed range, when the order is before-or-equal, or when the
    pivot is not the first or last bound of any segment, [Partition] separates
    the sequence at the pivot: the left part is the elements for which
    [order(element, pivot)] holds and the right part the others, each in the
    order of the range. *)
Theorem Partition_separates_at_pivot d o p :
  wellFormed d = true -> clearOf o p d ->
  exists l r, Partition d (Some p) o = Ok (l, r)
              /\ elements l = filter (fun x => holds o x p) (elements d)
              /\ elements r = filter (fun x => negb (holds o x p)) (elements d).
Proof.
  intros Hwf Hclear.
  destruct (Partition_total d o p (wellFormed_inv d Hwf)) as (l & r & HP & _ & _).
  exists l, r. split; [exact HP|].
  destruct (Partition_splits d o p l r Hwf HP) as [Happ _].
  destruct (Partition_separates d o p l r Hwf Hclear HP) as [Hl Hr].
  now apply separated_filter.
Qed.

Lemma Partition_separates_at_pivot_witness :
  exists l r,
    Partition (disjointRanges (Some 1) (Some 9)
                 [leafOf [1; 3]; disjointRanges (Some 5) (Some 9) [leafOf [5; 7]; leafOf [8; 9]]])
              (Some 6) LessOrder = Ok (l, r)
    /\ elements l = [1; 3; 5]
    /\ elements r = [7; 8; 9].
Proof.
  apply (Partition_separates_at_pivot
           (disjointRanges (Some 1) (Some 9)
              [leafOf [1; 3]; disjointRanges (Some 5) (Some 9) [leafOf [5; 7]; leafOf [8; 9]]])
           LessOrder 6).
  - reflexivity.
  - right. reflexivity.
Defined.

(** ** Partition keeps ranges well-formed *)

Lemma eqElement_refl a : eqElement a a = true.
Proof. destruct a; cbn; [apply Z.eqb_refl | reflexivity]. Qed.

Lemma last_app_cons {A} (pre : list A) x rest d d' :
  List.last (pre ++ x :: rest) d = List.last (x :: rest) d'.
Proof.
  induction pre as [|y pre IH]; [apply last_default|].
  cbn [app]. destruct (pre ++ x :: rest) as [|a l] eqn:E.
  - now destruct pre.
  - exact IH.
Qed.

Lemma nth_last_pre {A} (y : A) pre rest d d' :
  nth (length pre) ((y :: pre) ++ rest) d = List.last (y :: pre) d'.
Proof.
  revert y. induction pre as [|z pre IH]; intros y; [reflexivity|].
  cbn [length app nth]. change (List.last (y :: z :: pre) d') with (List.last (z :: pre) d').
  apply (IH z).
Qed.

Lemma nth_S_pre {A} (pre : list A) x rest d :
  nth (S (length pre)) (pre ++ x :: rest) d = hd d rest.
Proof.
  induction pre as [|y pre IH]; [now destruct rest|]. exact IH.
Qed.

Lemma wellFormed_intro first last segs :
  segs <> [] ->
  forallb (fun s => wellFormed s && (0 <? Limit s)) segs = true ->
  first = First (hd EmptyRange segs) ->
  last = Last (List.last segs EmptyRange) ->
  I1 segs = true ->
  wellFormed (disjointRanges first last segs) = true.
Proof.
  intros Hne Hall -> -> H1. cbn [wellFormed]. rewrite Hall, H1.
  destruct segs as [|s0 tl]; [contradiction|].
  unfold I2. cbn [hd]. rewrite (last_default tl s0 EmptyRange s0), !eqElement_refl.
  reflexivity.
Qed.

Lemma wellFormed_elim first last segs :
  wellFormed (disjointRanges first last segs) = true ->
  segs <> []
  /\ forallb (fun s => wellFormed s && (0 <? Limit s)) segs = true
  /\ first = First (hd EmptyRange segs)
  /\ last = Last (List.last segs EmptyRange)
  /\ I1 segs = true.
Proof.
  intros H. destruct (wellFormed_segments _ _ _ H) as (Hall & H2 & H1).
  destruct segs as [|s0 tl]; [discriminate|].
  unfold I2 in H2. apply andb_true_iff in H2 as [Hf Hl]. apply eqElement_eq in Hf, Hl.
  rewrite (last_default tl s0 s0 EmptyRange) in Hl.
  repeat split; try assumption. discriminate.
Qed.

Lemma I1_prefix pre rest : I1 (pre ++ rest) = true -> I1 pre = true.
Proof.
  induction pre as [|s pre IH]; [reflexivity|].
  destruct pre as [|s' pre]; [reflexivity|].
  cbn [app I1] in *. intros H. apply andb_true_iff in H as [H1 H2].
  rewrite H1. now apply IH.
Qed.

Lemma I1_snoc_First pre a b :
  First a = First b -> I1 (pre ++ [a]) = I1 (pre ++ [b]).
Proof.
  intros H. induction pre as [|s pre IH]; [reflexivity|].
  destruct pre as [|s' pre]; cbn [app I1] in *; [now rewrite H | now rewrite IH].
Qed.

Lemma I1_cons_Last a b rest : Last a = Last b -> I1 (a :: rest) = I1 (b :: rest).
Proof. intros H. destruct rest; cbn [I1]; [reflexivity | now rewrite H]. Qed.

Lemma hd_snoc_First pre a b rest :
  First a = First b ->
  First (hd EmptyRange (pre ++ [a])) = First (hd EmptyRange (pre ++ b :: rest)).
Proof. intros H. destruct pre; cbn; [assumption | reflexivity]. Qed.

Lemma sorted_tail h t : sorted (h :: t) = true -> sorted t = true.
Proof.
  destruct t as [|y t]; [reflexivity|]. cbn [sorted]. intros H.
  now apply andb_true_iff in H as [_ ?].
Qed.

Lemma sorted_cons h t :
  Forall (fun x => h <= x) t -> sorted t = true -> sorted (h :: t) = true.
Proof.
  intros Hl Hs. destruct t as [|y t]; [reflexivity|]. cbn [sorted].
  inversion Hl; subst. apply andb_true_iff. split; [now apply Z.leb_le | assumption].
Qed.

Lemma sorted_filter (f : Z -> bool) es : sorted es = true -> sorted (filter f es) = true.
Proof.
  induction es as [|h t IH]; intros Hs; [reflexivity|].
  pose proof (sorted_lower h t Hs) as Hlow. inversion Hlow as [|? ? _ Hrest]; subst.
  pose proof (IH (sorted_tail h t Hs)) as Ht.
  cbn [filter]. destruct (f h); [|exact Ht].
  apply sorted_cons; [|exact Ht].
  apply Forall_forall. intros x Hx. apply filter_In in Hx as [Hx _].
  rewrite Forall_forall in Hrest. now apply Hrest.
Qed.

Lemma leafOf_wellFormed es : sorted es = true -> wellFormed (leafOf es) = true.
Proof.
  destruct es as [|h t]; [reflexivity|]. intros Hs.
  cbn [leafOf wellFormed]. now rewrite !eqElement_refl, Hs.
Qed.

Lemma leafPartition_form first last elems o p l r :
  wellFormed (Leaf first last elems) = true ->
  Partition (Leaf first last elems) (Some p) o = Ok (l, r) ->
  keepsForm (Leaf first last elems) l r.
Proof.
  intros Hwf HP. cbn in HP. injection HP as <- <-.
  cbn [wellFormed] in Hwf. destruct elems as [|h t]; [discriminate|].
  apply andb_true_iff in Hwf as [Hwf Hs]. apply andb_true_iff in Hwf as [Hf Hl].
  apply eqElement_eq in Hf, Hl. subst first last.
  pose proof (sorted_filter_split (fun x => holds o x p) (h :: t) Hs
                (fun x y Hxy Hy => holds_mono o x y p Hxy Hy)) as Hsplit.
  remember (filter (fun x => holds o x p) (h :: t)) as fl eqn:Efl.
  remember (filter (fun x => negb (holds o x p)) (h :: t)) as fr eqn:Efr.
  repeat split.
  - subst fl. now apply leafOf_wellFormed, sorted_filter.
  - subst fr. now apply leafOf_wellFormed, sorted_filter.
  - rewrite leafOf_Limit. intros Hpos. rewrite leafOf_First. cbn [First].
    destruct fl as [|x fl']; [cbn in Hpos; lia|].
    cbn [app] in Hsplit. injection Hsplit as -> _. reflexivity.
  - rewrite leafOf_Limit. intros Hpos. cbn [Last].
    destruct fr as [|x fr']; [cbn in Hpos; lia|].
    cbn [leafOf Last]. f_equal. rewrite <- Hsplit. symmetry. apply last_app_cons.
Qed.

Section ScanForm.
Variables (c lst p : Z) (o : Order) (segments : list SortedRange).
Hypothesis Hd : wellFormed (disjointRanges (Some c) (Some lst) segments) = true.
Hypothesis IH :
  Forall (fun s => wellFormed s = true ->
                   forall l r, Partition s (Some p) o = Ok (l, r) -> keepsForm s l r)
         segments.

Lemma scan_form rest :
  forall pre l r,
    segments = pre ++ rest ->
    scan (disjointRanges (Some c) (Some lst) segments)
      (Some c) (Some lst) segments (Some p) o (length pre) rest = Ok (l, r) ->
    wellFormed l = true /\ wellFormed r = true
    /\ First l = Some c /\ (0 < Limit r -> Last r = Some lst).
Proof using Hd IH.
  destruct (wellFormed_elim _ _ _ Hd) as (Hne & Hall & Hfirst & Hlast & HI1).
  induction rest as [|r0 rest' IHrest]; intros pre l r Heq Hscan.
  - cbn [scan] in Hscan. injection Hscan as <- <-.
    repeat split; try assumption; try reflexivity. cbn. lia.
  - assert (Hin : In r0 segments) by (rewrite Heq; apply in_elt).
    assert (Hparts : forallb (fun s => wellFormed s && (0 <? Limit s)) pre = true
                     /\ (wellFormed r0 = true /\ 0 < Limit r0)
                     /\ forallb (fun s => wellFormed s && (0 <? Limit s)) rest' = true).
    { rewrite Heq, forallb_app in Hall. cbn [forallb] in Hall.
      apply andb_true_iff in Hall as [Hp Hr]. apply andb_true_iff in Hr as [H0 Hr].
      apply andb_true_iff in H0 as [Hw Hl]. apply Z.ltb_lt in Hl. now repeat split. }
    destruct Hparts as (Hallpre & (Hw0 & Hl0) & Hallrest).
    destruct (wellFormed_enclosed r0 Hw0 Hl0) as (fr & lr & Hfr & Hlr & Hle & Hel).
    assert (Hsuffix : I1 (r0 :: rest') = true).
    { apply (I1_suffix pre). now rewrite <- Heq. }
    assert (Hprefix : I1 (pre ++ [r0]) = true).
    { apply (I1_prefix (pre ++ [r0]) rest'). rewrite <- app_assoc. cbn [app].
      now rewrite <- Heq. }
    assert (Hlast' : Some lst = Last (List.last (r0 :: rest') EmptyRange)).
    { rewrite Hlast, Heq. f_equal. apply last_app_cons. }
    cbn [scan] in Hscan. rewrite Hfr, Hlr in Hscan. cbn [isNil] in Hscan.
    rewrite (boundaryMatch_eq o p fr) in Hscan. cbn [bind] in Hscan.
    destruct (holds o p fr && negb (holds o fr p)) eqn:Hbm.
    + destruct pre as [|y pre]; [discriminate|].
      cbn [length] in Hscan. unfold splitAt in Hscan.
      change (S (length pre)) with (length (y :: pre)) in Hscan.
      rewrite Heq, firstn_pre, skipn_pre in Hscan.
      rewrite (nth_last_pre y pre (r0 :: rest') EmptyRange EmptyRange) in Hscan.
      injection Hscan as <- <-.
      split; [|split; [|split; [reflexivity | reflexivity]]].
      * apply wellFormed_intro; try assumption; try reflexivity; [discriminate | |].
        -- rewrite Hfirst, Heq. reflexivity.
        -- apply (I1_prefix (y :: pre) (r0 :: rest')). now rewrite <- Heq.
      * apply wellFormed_intro; try assumption; try reflexivity; [discriminate|].
        cbn [forallb]. rewrite Hw0, Hallrest.
        now replace (0 <? Limit r0) with true by (symmetry; apply Z.ltb_lt; lia).
    + rewrite (insideMatch_eq o p fr lr) in Hscan. cbn [bind] in Hscan.
      destruct (holds o fr p && holds o p lr) eqn:Him.
      * destruct (Partition r0 (Some p) o) as [[p1 p2]|] eqn:HP; [|discriminate].
        cbn [bind] in Hscan.
        rewrite Forall_forall in IH.
        destruct (IH r0 Hin Hw0 p1 p2 HP) as (Hw1 & Hw2 & Hf1 & Hl2).
        destruct (Partition_ok r0 o p fr (wellFormed_inv r0 Hw0) Hfr)
          as (l' & r' & HP' & _ & _ & _ & Hpos & _).
        rewrite HP in HP'. injection HP' as <- <-.
        apply andb_true_iff in Him as [Hfp _].
        destruct (Hpos Hfp) as [Hl1 _].
        pose proof (Limit_nonneg p2) as Hnn.
        assert (HL : wellFormed (disjointRanges (Some c) (Last p1) (pre ++ [p1])) = true).
        { apply wellFormed_intro.
          - now destruct pre.
          - rewrite forallb_app, Hallpre. cbn [forallb]. rewrite Hw1.
            now replace (0 <? Limit p1) with true by (symmetry; apply Z.ltb_lt; lia).
          - rewrite Hfirst, Heq. symmetry. apply hd_snoc_First. now apply Hf1.
          - now rewrite last_last.
          - rewrite (I1_snoc_First pre p1 r0) by (now apply Hf1). exact Hprefix. }
        unfold rebuild in Hscan.
        rewrite Heq, firstn_pre, skipn_S_pre, nth_S_pre, <- Heq in Hscan.
        destruct (Limit p2 =? 0) eqn:Hp2.
        -- destruct (isNil (Last p1)); [discriminate|].
           destruct (Z.of_nat (length pre) + 1 <? Z.of_nat (length segments)) eqn:Hlen;
             injection Hscan as <- <-.
           ++ split; [exact HL|]. split; [|split; [reflexivity | reflexivity]].
              destruct rest' as [|r1 rest''].
              { exfalso. apply Z.ltb_lt in Hlen. rewrite Heq, length_app in Hlen.
                cbn [length] in Hlen. lia. }
              apply wellFormed_intro; try assumption; try reflexivity; [discriminate|].
              now apply (I1_tail r0).
           ++ split; [exact HL|]. split; [reflexivity|]. split; [reflexivity|].
              cbn. lia.
        -- destruct (isNil (Last p1)); [discriminate|].
           destruct (isNil (First p2)); [discriminate|].
           injection Hscan as <- <-. cbn [app].
           apply Z.eqb_neq in Hp2.
           split; [exact HL|]. split; [|split; [reflexivity | reflexivity]].
           apply wellFormed_intro.
           ++ discriminate.
           ++ cbn [forallb]. rewrite Hw2, Hallrest.
              now replace (0 <? Limit p2) with true by (symmetry; apply Z.ltb_lt; lia).
           ++ reflexivity.
           ++ rewrite Hlast'. destruct rest' as [|r1 rest'']; [|reflexivity].
              cbn [List.last]. symmetry. apply Hl2. lia.
           ++ rewrite (I1_cons_Last p2 r0) by (apply Hl2; lia). exact Hsuffix.
      * apply (IHrest (pre ++ [r0])).
        -- now rewrite <- app_assoc.
        -- rewrite length_app. cbn [length]. now rewrite Nat.add_1_r.
Qed.
End ScanForm.

Lemma Partition_form d :
  forall o p l r,
    wellFormed d = true -> Partition d (Some p) o = Ok (l, r) -> keepsForm d l r.
Proof.
  induction d as [| first last elems | first last segments IH]
    using SortedRange_nested_ind; intros o p l r Hwf HP.
  - cbn in HP. injection HP as <- <-. now repeat split.
  - now apply (leafPartition_form first last elems o p).
  - destruct (wellFormed_segments _ _ _ Hwf) as (Hall & H2 & H1).
    destruct segments as [|s0 tl]; [discriminate|].
    pose proof (segments_enclosed _ Hall) as Henc.
    destruct (chain_enclosed s0 tl Henc H1) as (lo & hi & Hf & Hl & Hle & Hel).
    unfold I2 in H2. apply andb_true_iff in H2 as [Hf' Hl'].
    apply eqElement_eq in Hf', Hl'. subst first last. rewrite Hf, Hl in *.
    rewrite Partition_disjoint in HP. cbn [callOrder bind] in HP.
    destruct (holds o lo p) eqn:Hc; cbn [negb] in HP.
    + assert (IH' : Forall (fun s => wellFormed s = true ->
                            forall l r, Partition s (Some p) o = Ok (l, r) ->
                            keepsForm s l r) (s0 :: tl)).
      { rewrite Forall_forall in *. intros s Hs Hw l' r'. now apply IH. }
      destruct (scan_form lo hi p o (s0 :: tl) Hwf IH' (s0 :: tl) [] l r eq_refl HP)
        as (Hwl & Hwr & Hfl & Hlr).
      repeat split; try assumption. intros _. exact Hfl.
    + injection HP as <- <-. now repeat split.
Qed.

(** X7: [Partition] keeps ranges well-formed, under either order and at any
    pivot: on a well-formed range it returns two well-formed ranges; a
    non-empty left part has the first bound of the range and a non-empty
    right part its last bound. *)
Theorem Partition_keeps_wellFormed d o p :
  wellFormed d = true ->
  exists l r, Partition d (Some p) o = Ok (l, r)
              /\ wellFormed l = true /\ wellFormed r = true
              /\ (0 < Limit l -> First l = First d)
              /\ (0 < Limit r -> Last r = Last d).
Proof.
  intros Hwf.
  destruct (Partition_total d o p (wellFormed_inv d Hwf)) as (l & r & HP & _ & _).
  exists l, r. split; [exact HP|]. exact (Partition_form d o p l r Hwf HP).
Qed.

Lemma Partition_keeps_wellFormed_witness :
  exists l r,
    Partition (disjointRanges (Some 1) (Some 9)
                 [leafOf [1; 3]; disjointRanges (Some 5) (Some 9) [leafOf [5; 7]; leafOf [8; 9]]])
              (Some 7) LessOrder = Ok (l, r)
    /\ wellFormed l = true /\ wellFormed r = true
    /\ (0 < Limit l -> First l = Some 1)
    /\ (0 < Limit r -> Last r = Some 9).
Proof.
  apply (Partition_keeps_wellFormed
           (disjointRanges (Some 1) (Some 9)
              [leafOf [1; 3]; disjointRanges (Some 5) (Some 9) [leafOf [5; 7]; leafOf [8; 9]]])
           LessOrder 7).
  reflexivity.
Defined.

(** ** merge keeps the elements *)

Lemma useEmptyRangeIfEmpty_elements r : elements (useEmptyRangeIfEmpty r) = elements r.
Proof.
  unfold useEmptyRangeIfEmpty. destruct (Limit r =? 0) eqn:H; [|reflexivity].
  apply Z.eqb_eq in H. now rewrite (Limit_zero_elements r H).
Qed.

Lemma flat_map_elements_nonempty segments :
  flat_map elements (filter (fun r => 0 <? Limit r) segments) = flat_map elements segments.
Proof.
  induction segments as [|s segs IH]; [reflexivity|].
  cbn [filter flat_map]. destruct (0 <? Limit s) eqn:H.
  - cbn [flat_map]. now rewrite IH.
  - apply Z.ltb_ge in H. pose proof (Limit_nonneg s).
    rewrite (Limit_zero_elements s) by lia. now rewrite IH.
Qed.

Lemma flatten_elements segments :
  flat_map elements (flatten segments) = flat_map elements segments.
Proof. rewrite flatten_expand. apply flat_map_elements_expand. Qed.

(** The parts of the overlapping case of [merge], before the empty ones are
    dropped: the two partitions return, and the middle part stands for the
    combination of the inner parts, or for the one that is not empty. *)
Lemma assemble_parts combine a b fb la :
  wellFormed a = true -> wellFormed b = true ->
  First b = Some fb -> Last a = Some la ->
  exists p1 p2 p3 p4 m23,
    Partition a (Some fb) LessOrder = Ok (p1, p2)
    /\ Partition b (Some la) LessOrEqualOrder = Ok (p3, p4)
    /\ assemble combine a b = Ok (filter (fun r => 0 <? Limit r) [p1; m23; p4])
    /\ m23 = (if Limit p2 =? 0 then p3
              else if Limit p3 =? 0 then p2
              else useEmptyRangeIfEmpty
                     (newMergeableRange combine (selectFirst p2 p3) (selectLast p2 p3)
                        p2 p3)).
Proof.
  intros Ha Hb Hfb Hla.
  destruct (Partition_total a LessOrder fb (wellFormed_inv a Ha)) as (p1 & p2 & HP1 & _).
  destruct (Partition_total b LessOrEqualOrder la (wellFormed_inv b Hb))
    as (p3 & p4 & HP2 & _).
  exists p1, p2, p3, p4. eexists. split; [exact HP1|]. split; [exact HP2|].
  split; [|reflexivity].
  unfold assemble. rewrite Hfb, Hla, HP1. cbn [bind]. rewrite HP2. reflexivity.
Qed.

Lemma merge_elements combine a b :
  (forall x y, Permutation (combine x y) (x ++ y)) ->
  wellFormed a = true -> wellFormed b = true ->
  exists r, merge combine a b = Ok r
            /\ Permutation (elements r) (elements a ++ elements b).
Proof.
  intros Hperm Ha Hb. unfold merge.
  destruct (Limit a =? 0) eqn:Hla0.
  { apply Z.eqb_eq in Hla0. exists b. split; [reflexivity|].
    now rewrite (Limit_zero_elements a Hla0). }
  destruct (Limit b =? 0) eqn:Hlb0.
  { apply Z.eqb_eq in Hlb0. exists a. split; [reflexivity|].
    now rewrite (Limit_zero_elements b Hlb0), app_nil_r. }
  apply Z.eqb_neq in Hla0, Hlb0.
  pose proof (Limit_nonneg a) as Hna. pose proof (Limit_nonneg b) as Hnb.
  destruct (wellFormed_bounds a Ha) as (fa & la & Hfa & Hla); [lia|].
  destruct (wellFormed_bounds b Hb) as (fb & lb & Hfb & Hlb); [lia|].
  rewrite Hla, Hfb. cbn [callLess callOrder bind holds].
  destruct (Less la fb) eqn:Hlt.
  { eexists. split; [reflexivity|]. cbn [elements flat_map]. now rewrite app_nil_r. }
  destruct (assemble_parts combine a b fb la Ha Hb Hfb Hla)
    as (p1 & p2 & p3 & p4 & m23 & HP1 & HP2 & Hasm & Hm).
  rewrite Hasm. cbn [bind].
  destruct (Partition_splits a LessOrder fb p1 p2 Ha HP1) as [H12 _].
  destruct (Partition_splits b LessOrEqualOrder la p3 p4 Hb HP2) as [H34 _].
  assert (Hm23 : Permutation (elements m23) (elements p2 ++ elements p3)).
  { subst m23. destruct (Limit p2 =? 0) eqn:E2.
    - apply Z.eqb_eq in E2. now rewrite (Limit_zero_elements p2 E2).
    - destruct (Limit p3 =? 0) eqn:E3.
      + apply Z.eqb_eq in E3. now rewrite (Limit_zero_elements p3 E3), app_nil_r.
      + rewrite useEmptyRangeIfEmpty_elements. apply Hperm. }
  assert (Hall : Permutation
                   (flat_map elements (filter (fun r => 0 <? Limit r) [p1; m23; p4]))
                   (elements a ++ elements b)).
  { rewrite flat_map_elements_nonempty. cbn [flat_map]. rewrite app_nil_r.
    rewrite <- H12, <- H34, <- app_assoc. apply Permutation_app_head.
    rewrite app_assoc. apply Permutation_app_tail. exact Hm23. }
  destruct (filter (fun r => 0 <? Limit r) [p1; m23; p4]) as [|s [|s' tl]] eqn:Hsegs.
  - exfalso. cbn [flat_map] in Hall. apply Permutation_nil in Hall.
    apply app_eq_nil in Hall as [Hea _].
    apply (proj1 (Limit_pos_elements a)); [lia | exact Hea].
  - exists s. split; [reflexivity|]. cbn [flat_map] in Hall. now rewrite app_nil_r in Hall.
  - eexists. split; [reflexivity|]. cbn [elements]. now rewrite flatten_elements.
Qed.

Lemma mergeLists_nil_r l1 : mergeLists l1 [] = l1.
Proof. now destruct l1. Qed.

Lemma mergeLists_cons x l1 y l2 :
  mergeLists (x :: l1) (y :: l2)
  = if Less y x then y :: mergeLists (x :: l1) l2 else x :: mergeLists l1 (y :: l2).
Proof. reflexivity. Qed.

Lemma mergeLists_perm l1 : forall l2, Permutation (mergeLists l1 l2) (l1 ++ l2).
Proof.
  induction l1 as [|x l1 IH1]; intros l2; [now destruct l2|].
  induction l2 as [|y l2 IH2].
  - rewrite mergeLists_nil_r, app_nil_r. reflexivity.
  - rewrite mergeLists_cons. destruct (Less y x).
    + rewrite IH2. change ((x :: l1) ++ y :: l2) with (x :: l1 ++ y :: l2).
      rewrite <- Permutation_middle. cbn [app]. apply perm_swap.
    + cbn [app]. apply perm_skip. apply IH1.
Qed.

(** X8: when the overlap-merge primitive keeps every element of its two
    operands, so does [merge]: on well-formed operands it returns, whatever
    path it takes, a range whose sequence is a rearrangement of the elements
    of [a] followed by those of [b]; none is lost and none is added. *)
Theorem merge_keeps_elements combine a b :
  (forall x y, Permutation (combine x y) (x ++ y)) ->
  wellFormed a = true -> wellFormed b = true ->
  exists r, merge combine a b = Ok r
            /\ Permutation (elements r) (elements a ++ elements b)
            /\ Limit r = Limit a + Limit b.
Proof.
  intros Hperm Ha Hb.
  destruct (merge_elements combine a b Hperm Ha Hb) as (r & Hm & Hp).
  exists r. split; [exact Hm|]. split; [exact Hp|].
  rewrite !Limit_length, (Permutation_length Hp), length_app. lia.
Qed.

Lemma merge_keeps_elements_witness :
  exists r,
    merge mergeLists
      (disjointRanges (Some 1) (Some 8) [leafOf [1; 2]; leafOf [5; 8]]) (leafOf [5; 6]) = Ok r
    /\ Permutation (elements r) ([1; 2; 5; 8] ++ [5; 6])
    /\ Limit r = 4 + 2.
Proof.
  apply (merge_keeps_elements mergeLists
           (disjointRanges (Some 1) (Some 8) [leafOf [1; 2]; leafOf [5; 8]]) (leafOf [5; 6])).
  - intros x y. apply mergeLists_perm.
  - reflexivity.
  - reflexivity.
Defined.

(** ** flatten keeps a composite well-formed *)

Lemma I1_app xs ys :
  xs <> [] -> ys <> [] ->
  I1 (xs ++ ys)
  = I1 xs && ltElement (Last (List.last xs EmptyRange)) (First (hd EmptyRange ys)) && I1 ys.
Proof.
  intros Hx Hy. induction xs as [|x xs IH]; [contradiction|].
  destruct xs as [|x' xs].
  - destruct ys as [|y ys]; [contradiction|]. reflexivity.
  - change (I1 ((x :: x' :: xs) ++ ys))
      with (ltElement (Last x) (First x') && I1 ((x' :: xs) ++ ys)).
    rewrite IH by discriminate.
    change (I1 (x :: x' :: xs)) with (ltElement (Last x) (First x') && I1 (x' :: xs)).
    change (List.last (x :: x' :: xs) EmptyRange) with (List.last (x' :: xs) EmptyRange).
    now rewrite !andb_assoc.
Qed.

Lemma hd_app_nonempty {A} (xs ys : list A) d : xs <> [] -> hd d (xs ++ ys) = hd d xs.
Proof. destruct xs; [contradiction | reflexivity]. Qed.

Lemma last_app_nonempty {A} (xs ys : list A) d :
  ys <> [] -> List.last (xs ++ ys) d = List.last ys d.
Proof.
  destruct ys as [|y ys]; [contradiction|]. intros _. apply last_app_cons.
Qed.

Lemma expand_form s :
  wellFormed s = true -> 0 < Limit s ->
  expand s <> []
  /\ forallb (fun s => wellFormed s && (0 <? Limit s)) (expand s) = true
  /\ First (hd EmptyRange (expand s)) = First s
  /\ Last (List.last (expand s) EmptyRange) = Last s
  /\ I1 (expand s) = true.
Proof.
  intros Hw Hl.
  assert (Hself : wellFormed s && (0 <? Limit s) = true).
  { rewrite Hw. now apply Z.ltb_lt. }
  destruct s as [| f l es | f l segs]; cbn [expand].
  - cbn in Hl. lia.
  - cbn [forallb hd List.last I1]. rewrite Hself. repeat split. discriminate.
  - destruct (wellFormed_elim _ _ _ Hw) as (Hne & Hall & Hf & Hla & H1).
    cbn [First Last]. now repeat split.
Qed.

Lemma flatten_form segs :
  segs <> [] ->
  forallb (fun s => wellFormed s && (0 <? Limit s)) segs = true ->
  I1 segs = true ->
  flat_map expand segs <> []
  /\ forallb (fun s => wellFormed s && (0 <? Limit s)) (flat_map expand segs) = true
  /\ First (hd EmptyRange (flat_map expand segs)) = First (hd EmptyRange segs)
  /\ Last (List.last (flat_map expand segs) EmptyRange) = Last (List.last segs EmptyRange)
  /\ I1 (flat_map expand segs) = true.
Proof.
  induction segs as [|s segs IH]; [contradiction|]. intros _ Hall H1.
  cbn [forallb] in Hall. apply andb_true_iff in Hall as [Hs Hall].
  apply andb_true_iff in Hs as [Hw Hl]. apply Z.ltb_lt in Hl.
  destruct (expand_form s Hw Hl) as (Ene & Eall & Ef & El & E1).
  cbn [flat_map].
  destruct segs as [|s' segs].
  - cbn [flat_map]. rewrite app_nil_r. now repeat split.
  - destruct IH as (Fne & Fall & Ff & Fl & F1);
      [discriminate | exact Hall | now apply (I1_tail s) |].
    cbn [I1] in H1. apply andb_true_iff in H1 as [Hlt H1].
    repeat split.
    + intros H. apply app_eq_nil in H as [H _]. contradiction.
    + now rewrite forallb_app, Eall, Fall.
    + rewrite hd_app_nonempty by assumption. exact Ef.
    + rewrite last_app_nonempty by assumption. rewrite Fl.
      now change (List.last (s :: s' :: segs) EmptyRange)
        with (List.last (s' :: segs) EmptyRange).
    + rewrite I1_app by assumption. rewrite E1, F1, El, Ff. cbn [hd].
      now rewrite Hlt.
Qed.

Lemma flatten_wellFormed first last segs :
  wellFormed (disjointRanges first last segs) = true ->
  wellFormed (disjointRanges first last (flatten segs)) = true.
Proof.
  intros Hw. destruct (wellFormed_elim _ _ _ Hw) as (Hne & Hall & Hf & Hl & H1).
  destruct (flatten_form segs Hne Hall H1) as (Fne & Fall & Ff & Fl & F1).
  rewrite flatten_expand. apply wellFormed_intro; try assumption; congruence.
Qed.

(** X9: [flatten] keeps a composite well-formed: when a composite over a
    list of segments is well-formed, so is the composite with the same
    bounds over the flattened list, and it stands for the same sequence. *)
Theorem flatten_keeps_wellFormed first last segs :
  wellFormed (disjointRanges first last segs) = true ->
  wellFormed (disjointRanges first last (flatten segs)) = true
  /\ elements (disjointRanges first last (flatten segs))
     = elements (disjointRanges first last segs).
Proof.
  intros Hw. split; [now apply flatten_wellFormed|].
  cbn [elements]. apply flatten_elements.
Qed.

Lemma flatten_keeps_wellFormed_witness :
  wellFormed (disjointRanges (Some 1) (Some 11)
                (flatten [disjointRanges (Some 1) (Some 6) [leafOf [1; 3]; leafOf [5; 6]];
                          leafOf [10; 11]])) = true
  /\ elements (disjointRanges (Some 1) (Some 11)
                 (flatten [disjointRanges (Some 1) (Some 6) [leafOf [1; 3]; leafOf [5; 6]];
                           leafOf [10; 11]]))
     = [1; 3; 5; 6; 10; 11].
Proof.
  apply (flatten_keeps_wellFormed (Some 1) (Some 11)
           [disjointRanges (Some 1) (Some 6) [leafOf [1; 3]; leafOf [5; 6]];
            leafOf [10; 11]]).
  reflexivity.
Defined.

(** ** The sequence of a well-formed range *)

Lemma last_In {A} (l : list A) d : l <> [] -> In (List.last l d) l.
Proof.
  induction l as [|x l IH]; [contradiction|]. intros _.
  destruct l as [|y l]; [now left|]. right. apply IH. discriminate.
Qed.

Lemma wellFormed_First r h t :
  wellFormed r = true -> elements r = h :: t -> First r = Some h.
Proof.
  revert h t. induction r as [| first last elems | first last segments IH]
    using SortedRange_nested_ind; intros h t Hw He.
  - discriminate.
  - cbn [elements] in He. subst elems. cbn [wellFormed] in Hw.
    apply andb_true_iff in Hw as [Hw _]. apply andb_true_iff in Hw as [Hf _].
    now apply eqElement_eq in Hf.
  - destruct (wellFormed_elim _ _ _ Hw) as (Hne & Hall & Hf & _ & _).
    destruct segments as [|s0 tl]; [contradiction|].
    cbn [hd] in Hf. cbn [First]. rewrite Hf.
    cbn [forallb] in Hall. apply andb_true_iff in Hall as [Hs _].
    apply andb_true_iff in Hs as [Hw0 Hl0]. apply Z.ltb_lt in Hl0.
    apply Limit_pos_elements in Hl0.
    cbn [elements flat_map] in He.
    destruct (elements s0) as [|h0 t0] eqn:E0; [contradiction|].
    cbn [app] in He. injection He as -> _.
    inversion IH as [|? ? IH0 _]; subst. now apply (IH0 h t0).
Qed.

Lemma wellFormed_Last r d :
  wellFormed r = true -> elements r <> [] -> Last r = Some (List.last (elements r) d).
Proof.
  induction r as [| first last elems | first last segments IH]
    using SortedRange_nested_ind; intros Hw He.
  - now contradiction He.
  - cbn [elements] in *. destruct elems as [|h t]; [contradiction|].
    cbn [wellFormed] in Hw.
    apply andb_true_iff in Hw as [Hw _]. apply andb_true_iff in Hw as [_ Hl].
    apply eqElement_eq in Hl. cbn [Last]. rewrite Hl. f_equal. apply last_default.
  - destruct (wellFormed_elim _ _ _ Hw) as (Hne & Hall & _ & Hl & _).
    destruct (exists_last Hne) as (pre & sl & Heq). subst segments.
    rewrite last_last in Hl. cbn [Last]. rewrite Hl.
    rewrite forallb_app in Hall. apply andb_true_iff in Hall as [_ Hs].
    cbn [forallb] in Hs. rewrite andb_true_r in Hs.
    apply andb_true_iff in Hs as [Hwl Hll]. apply Z.ltb_lt in Hll.
    apply Limit_pos_elements in Hll.
    cbn [elements]. rewrite flat_map_app. cbn [flat_map]. rewrite app_nil_r.
    rewrite last_app_nonempty by assumption.
    rewrite Forall_forall in IH. apply IH; [|assumption|assumption].
    apply in_or_app. right. now left.
Qed.

Lemma sorted_app xs ys :
  sorted xs = true -> sorted ys = true ->
  (forall x y, In x xs -> In y ys -> x <= y) ->
  sorted (xs ++ ys) = true.
Proof.
  intros Hx Hy Hle. induction xs as [|x xs IH]; [exact Hy|].
  cbn [app]. apply sorted_cons.
  - apply Forall_forall. intros z Hz. apply in_app_or in Hz as [Hz|Hz].
    + pose proof (sorted_lower x xs Hx) as Hlow. rewrite Forall_forall in Hlow.
      apply Hlow. now right.
    + apply Hle; [now left | assumption].
  - apply IH; [now apply (sorted_tail x)|]. intros a b Ha Hb. apply Hle; [now right | assumption].
Qed.

Lemma chain_sorted segs :
  Forall (fun s => sorted (elements s) = true) segs ->
  forallb (fun s => wellFormed s && (0 <? Limit s)) segs = true ->
  I1 segs = true ->
  sorted (flat_map elements segs) = true.
Proof.
  induction segs as [|s0 tl IH]; intros Hs Hall H1; [reflexivity|].
  inversion Hs as [|? ? Hs0 Hstl]; subst.
  pose proof (segments_enclosed _ Hall) as Henc.
  cbn [forallb] in Hall. apply andb_true_iff in Hall as [_ Halltl].
  cbn [flat_map]. apply sorted_app; [exact Hs0 | |].
  - apply IH; [assumption | assumption | now apply (I1_tail s0)].
  - destruct tl as [|s1 tl']; [intros x y _ []|].
    inversion Henc as [|? ? (lo0 & hi0 & Hf0 & Hl0 & Hle0 & Hel0) Henctl]; subst.
    cbn [I1] in H1. apply andb_true_iff in H1 as [Hlt H1].
    destruct (chain_enclosed s1 tl' Henctl H1) as (lo1 & hi1 & Hf1 & _ & _ & Hel1).
    rewrite Hl0, Hf1 in Hlt. cbn in Hlt. unfold Less in Hlt. apply Z.ltb_lt in Hlt.
    intros x y Hx Hy. rewrite Forall_forall in Hel0, Hel1.
    specialize (Hel0 x Hx). specialize (Hel1 y Hy). lia.
Qed.

Lemma wellFormed_sorted r : wellFormed r = true -> sorted (elements r) = true.
Proof.
  induction r as [| first last elems | first last segments IH]
    using SortedRange_nested_ind; intros Hw.
  - reflexivity.
  - cbn [wellFormed] in Hw. destruct elems as [|h t]; [discriminate|].
    now apply andb_true_iff in Hw as [_ ?].
  - destruct (wellFormed_elim _ _ _ Hw) as (_ & Hall & _ & _ & H1).
    cbn [elements]. apply chain_sorted; try assumption.
    rewrite Forall_forall in *. intros s Hs. apply IH; [assumption|].
    rewrite forallb_forall in Hall. specialize (Hall s Hs).
    now apply andb_true_iff in Hall as [? _].
Qed.

(** ** The sorted combination of two sorted sequences *)

Lemma sorted_perm_hd l x y hx hy :
  sorted l = true -> Permutation l (x ++ y) ->
  sorted x = true -> sorted y = true ->
  hd_error x = Some hx -> hd_error y = Some hy ->
  hd_error l = Some (if hx <? hy then hx else hy).
Proof.
  intros Hl Hp Hx Hy Hhx Hhy.
  destruct x as [|hx' tx]; [discriminate|]. injection Hhx as ->.
  destruct y as [|hy' ty]; [discriminate|]. injection Hhy as ->.
  destruct l as [|h t]; [apply Permutation_nil in Hp; discriminate|].
  pose proof (sorted_lower h t Hl) as Hlow. rewrite Forall_forall in Hlow.
  pose proof (sorted_lower hx tx Hx) as Hlx. rewrite Forall_forall in Hlx.
  pose proof (sorted_lower hy ty Hy) as Hly. rewrite Forall_forall in Hly.
  assert (H1 : h <= hx).
  { apply Hlow. apply (Permutation_in hx (Permutation_sym Hp)). now left. }
  assert (H2 : h <= hy).
  { apply Hlow. apply (Permutation_in hy (Permutation_sym Hp)).
    apply in_or_app. right. now left. }
  assert (H3 : hx <= h \/ hy <= h).
  { assert (Hin : In h ((hx :: tx) ++ hy :: ty))
      by (apply (Permutation_in h Hp); now left).
    apply in_app_or in Hin as [Hin|Hin]; [left; now apply Hlx | right; now apply Hly]. }
  cbn [hd_error]. f_equal. destruct (hx <? hy) eqn:E;
    [apply Z.ltb_lt in E | apply Z.ltb_ge in E]; lia.
Qed.

Lemma sorted_last_max l d :
  sorted l = true -> l <> [] ->
  In (List.last l d) l /\ Forall (fun z => z <= List.last l d) l.
Proof.
  intros Hs Hne. split; [now apply last_In|].
  destruct l as [|h t]; [contradiction|].
  rewrite (last_default t h d h). now apply sorted_upper.
Qed.

Lemma sorted_perm_last l x y d :
  sorted l = true -> Permutation l (x ++ y) ->
  sorted x = true -> sorted y = true -> x <> [] -> y <> [] ->
  List.last l d
  = (if negb (List.last y d <? List.last x d) then List.last y d else List.last x d).
Proof.
  intros Hl Hp Hx Hy Hnx Hny.
  assert (Hnl : l <> []).
  { intros ->. apply Permutation_nil in Hp. apply app_eq_nil in Hp as [? _]. contradiction. }
  destruct (sorted_last_max l d Hl Hnl) as [Hil Hul].
  destruct (sorted_last_max x d Hx Hnx) as [Hix Hux].
  destruct (sorted_last_max y d Hy Hny) as [Hiy Huy].
  rewrite Forall_forall in Hul, Hux, Huy.
  assert (H1 : List.last x d <= List.last l d).
  { apply Hul. apply (Permutation_in _ (Permutation_sym Hp)). apply in_or_app. now left. }
  assert (H2 : List.last y d <= List.last l d).
  { apply Hul. apply (Permutation_in _ (Permutation_sym Hp)). apply in_or_app. now right. }
  assert (H3 : List.last l d <= List.last x d \/ List.last l d <= List.last y d).
  { apply (Permutation_in _ Hp) in Hil.
    apply in_app_or in Hil as [Hin|Hin]; [left; now apply Hux | right; now apply Huy]. }
  destruct (List.last y d <? List.last x d) eqn:E; cbn [negb];
    [apply Z.ltb_lt in E | apply Z.ltb_ge in E]; lia.
Qed.

Lemma mergeLists_sorted l1 :
  forall l2, sorted l1 = true -> sorted l2 = true -> sorted (mergeLists l1 l2) = true.
Proof.
  induction l1 as [|x l1 IH1]; intros l2 H1 H2; [now destruct l2|].
  induction l2 as [|y l2 IH2]; [now rewrite mergeLists_nil_r|].
  pose proof (sorted_lower x l1 H1) as Hlx. pose proof (sorted_lower y l2 H2) as Hly.
  rewrite Forall_forall in Hlx, Hly.
  rewrite mergeLists_cons. unfold Less. destruct (y <? x) eqn:E;
    [apply Z.ltb_lt in E | apply Z.ltb_ge in E].
  - apply sorted_cons; [|apply IH2; now apply (sorted_tail y)].
    apply Forall_forall. intros z Hz.
    apply (Permutation_in z (mergeLists_perm (x :: l1) l2)) in Hz.
    apply in_app_or in Hz as [Hz|Hz].
    + specialize (Hlx z Hz). lia.
    + apply Hly. now right.
  - apply sorted_cons; [|apply IH1; [now apply (sorted_tail x) | assumption]].
    apply Forall_forall. intros z Hz.
    apply (Permutation_in z (mergeLists_perm l1 (y :: l2))) in Hz.
    apply in_app_or in Hz as [Hz|Hz].
    + apply Hlx. now right.
    + specialize (Hly z Hz). lia.
Qed.

(** ** merge of well-formed ranges, when the pivot misses the segment bounds *)

Lemma selectLast_eq a b la lb :
  Last a = Some la -> Last b = Some lb ->
  selectLast a b = Some (if negb (lb <? la) then lb else la).
Proof.
  intros Ha Hb. unfold selectLast, selectLastOf, Less. rewrite Ha, Hb.
  now destruct (lb <? la).
Qed.

Lemma First_In r f :
  wellFormed r = true -> 0 < Limit r -> First r = Some f -> In f (elements r).
Proof.
  intros Hw Hl Hf. apply Limit_pos_elements in Hl.
  destruct (elements r) as [|h t] eqn:E; [contradiction|].
  rewrite (wellFormed_First r h t Hw E) in Hf. injection Hf as ->. now left.
Qed.

Lemma Last_In r l :
  wellFormed r = true -> 0 < Limit r -> Last r = Some l -> In l (elements r).
Proof.
  intros Hw Hl Hla. apply Limit_pos_elements in Hl.
  rewrite (wellFormed_Last r 0 Hw Hl) in Hla. injection Hla as <-. now apply last_In.
Qed.

Lemma Ok_inj {A} (x y : A) : Ok x = Ok y -> x = y.
Proof. now intros [= ->]. Qed.

Lemma ltb_true x y : x < y -> (x <? y) = true.
Proof. apply Z.ltb_lt. Qed.

Section MergeForm.
Variable combine : list Z -> list Z -> list Z.
Hypothesis combine_perm : forall x y, Permutation (combine x y) (x ++ y).
Hypothesis combine_sorted :
  forall x y, sorted x = true -> sorted y = true -> sorted (combine x y) = true.

Lemma merged_leaf p2 p3 m :
  wellFormed p2 = true -> wellFormed p3 = true -> 0 < Limit p2 -> 0 < Limit p3 ->
  m = useEmptyRangeIfEmpty
        (newMergeableRange combine (selectFirst p2 p3) (selectLast p2 p3) p2 p3) ->
  wellFormed m = true /\ 0 < Limit m
  /\ First m = selectFirst p2 p3 /\ Last m = selectLast p2 p3.
Proof using combine_perm combine_sorted.
  intros W2 W3 P2 P3 ->.
  pose proof (proj1 (Limit_pos_elements p2) P2) as N2.
  pose proof (proj1 (Limit_pos_elements p3) P3) as N3.
  destruct (elements p2) as [|h2 t2] eqn:E2; [contradiction|].
  destruct (elements p3) as [|h3 t3] eqn:E3; [contradiction|].
  pose proof (wellFormed_First p2 h2 t2 W2 E2) as F2.
  pose proof (wellFormed_First p3 h3 t3 W3 E3) as F3.
  assert (L2 : Last p2 = Some (List.last (h2 :: t2) 0)).
  { rewrite <- E2. apply wellFormed_Last; [assumption | now rewrite E2]. }
  assert (L3 : Last p3 = Some (List.last (h3 :: t3) 0)).
  { rewrite <- E3. apply wellFormed_Last; [assumption | now rewrite E3]. }
  pose proof (wellFormed_sorted p2 W2) as S2. rewrite E2 in S2.
  pose proof (wellFormed_sorted p3 W3) as S3. rewrite E3 in S3.
  pose proof (combine_perm (h2 :: t2) (h3 :: t3)) as Hp.
  pose proof (combine_sorted (h2 :: t2) (h3 :: t3) S2 S3) as Hs.
  pose proof (sorted_perm_hd _ _ _ h2 h3 Hs Hp S2 S3 eq_refl eq_refl) as Hhd.
  pose proof (sorted_perm_last _ _ _ 0 Hs Hp S2 S3 N2 N3) as Hlast.
  unfold newMergeableRange, useEmptyRangeIfEmpty. rewrite E2, E3.
  destruct (combine (h2 :: t2) (h3 :: t3)) as [|h t] eqn:Ec; [discriminate|].
  cbn [Limit length]. replace (Z.of_nat (S (length t)) =? 0) with false
    by (symmetry; apply Z.eqb_neq; lia).
  cbn [First Last Limit length wellFormed].
  rewrite (selectFirst_eq p2 p3 h2 h3 F2 F3), (selectLast_eq p2 p3 _ _ L2 L3).
  cbn [hd_error] in Hhd. injection Hhd as Hh.
  split; [|split; [lia | split; reflexivity]].
  rewrite Hs, <- Hh, <- Hlast, (last_default t h 0 h), !eqElement_refl. reflexivity.
Qed.

Lemma merge_form a b r :
  wellFormed a = true -> wellFormed b = true ->
  (forall fb, First b = Some fb -> boundsAvoid fb a = true) ->
  merge combine a b = Ok r -> wellFormed r = true.
Proof using combine_perm combine_sorted.
  intros Ha Hb Hclear Hm. unfold merge in Hm.
  destruct (Limit a =? 0) eqn:Hla0; [now injection Hm as <-|].
  destruct (Limit b =? 0) eqn:Hlb0; [now injection Hm as <-|].
  apply Z.eqb_neq in Hla0, Hlb0.
  pose proof (Limit_nonneg a) as Hna. pose proof (Limit_nonneg b) as Hnb.
  assert (Hpa : 0 < Limit a) by lia. assert (Hpb : 0 < Limit b) by lia.
  destruct (wellFormed_enclosed a Ha Hpa) as (fa & la & Hfa & Hla & Hlea & Hela).
  destruct (wellFormed_enclosed b Hb Hpb) as (fb & lb & Hfb & Hlb & Hleb & Helb).
  pose proof (selectFirst_eq a b fa fb Hfa Hfb) as HsF.
  pose proof (selectLast_eq a b la lb Hla Hlb) as HsL.
  rewrite Hla, Hfb in Hm. cbn [callLess callOrder bind holds] in Hm.
  unfold Less in Hm. destruct (la <? fb) eqn:Hlt.
  - injection Hm as <-. apply Z.ltb_lt in Hlt.
    apply wellFormed_intro.
    + discriminate.
    + cbn [forallb]. now rewrite Ha, Hb, !ltb_true.
    + reflexivity.
    + cbn [List.last]. rewrite HsL, Hlb. f_equal.
      destruct (lb <? la) eqn:E; [apply Z.ltb_lt in E; lia | reflexivity].
    + cbn [I1]. rewrite Hla, Hfb. cbn. unfold Less. now rewrite ltb_true.
  - apply Z.ltb_ge in Hlt.
    destruct (assemble_parts combine a b fb la Ha Hb Hfb Hla)
      as (p1 & p2 & p3 & p4 & m23 & HP1 & HP2 & Hasm & Hm23).
    rewrite Hasm in Hm. cbn [bind] in Hm.
    destruct (Partition_splits a LessOrder fb p1 p2 Ha HP1) as [H12 _].
    destruct (Partition_splits b LessOrEqualOrder la p3 p4 Hb HP2) as [H34 _].
    destruct (Partition_separates a LessOrder fb p1 p2 Ha (or_intror (Hclear fb Hfb)) HP1)
      as [S1 S2].
    destruct (Partition_separates b LessOrEqualOrder la p3 p4 Hb (or_introl eq_refl) HP2)
      as [S3 S4].
    destruct (Partition_form a LessOrder fb p1 p2 Ha HP1) as (W1 & W2 & F1 & L2).
    destruct (Partition_form b LessOrEqualOrder la p3 p4 Hb HP2) as (W3 & W4 & F3 & L4).
    rewrite Forall_forall in S1, S2, S3, S4.
    cbn [holds] in S1, S2, S3, S4. unfold Less in S1, S2, S3, S4.
    pose proof (First_In a fa Ha Hpa Hfa) as Ifa.
    pose proof (Last_In a la Ha Hpa Hla) as Ila.
    pose proof (First_In b fb Hb Hpb Hfb) as Ifb.
    pose proof (Last_In b lb Hb Hpb Hlb) as Ilb.
    assert (I2la : In la (elements p2)).
    { rewrite <- H12 in Ila. apply in_app_or in Ila as [Hin|Hin]; [|exact Hin].
      apply S1, Z.ltb_lt in Hin. lia. }
    assert (I3fb : In fb (elements p3)).
    { rewrite <- H34 in Ifb. apply in_app_or in Ifb as [Hin|Hin]; [exact Hin|].
      apply S4, negb_false_iff, Z.ltb_lt in Hin. lia. }
    assert (P2 : 0 < Limit p2).
    { apply Limit_pos_elements. intros E. now rewrite E in I2la. }
    assert (P3 : 0 < Limit p3).
    { apply Limit_pos_elements. intros E. now rewrite E in I3fb. }
    specialize (L2 P2). specialize (F3 P3). rewrite Hla in L2. rewrite Hfb in F3.
    replace (Limit p2 =? 0) with false in Hm23 by (symmetry; apply Z.eqb_neq; lia).
    replace (Limit p3 =? 0) with false in Hm23 by (symmetry; apply Z.eqb_neq; lia).
    destruct (merged_leaf p2 p3 m23 W2 W3 P2 P3 Hm23) as (Wm & Pm & Fm & Lm).
    destruct (wellFormed_bounds p2 W2 P2) as (f2 & l2 & Hf2 & _).
    destruct (wellFormed_bounds p3 W3 P3) as (f3 & l3 & _ & Hl3).
    pose proof (First_In p2 f2 W2 P2 Hf2) as If2.
    pose proof (Last_In p3 l3 W3 P3 Hl3) as Il3.
    apply S2, Z.ltb_ge in If2. apply S3, negb_true_iff, Z.ltb_ge in Il3.
    assert (HFm : First m23 = Some fb).
    { rewrite Fm, (selectFirst_eq p2 p3 f2 fb Hf2 F3). f_equal.
      destruct (f2 <? fb) eqn:E; [apply Z.ltb_lt in E; lia | reflexivity]. }
    assert (HLm : Last m23 = Some la).
    { rewrite Lm, (selectLast_eq p2 p3 la l3 L2 Hl3). f_equal.
      destruct (l3 <? la) eqn:E; cbn [negb]; [reflexivity | apply Z.ltb_ge in E; lia]. }
    assert (A1 : 0 < Limit p1 ->
                 selectFirst a b = First p1 /\ ltElement (Last p1) (First m23) = true).
    { intros P1. specialize (F1 P1). rewrite Hfa in F1.
      destruct (wellFormed_bounds p1 W1 P1) as (f1 & l1 & _ & Hl1).
      pose proof (First_In p1 fa W1 P1 F1) as If1.
      pose proof (Last_In p1 l1 W1 P1 Hl1) as Il1.
      apply S1, Z.ltb_lt in If1. apply S1, Z.ltb_lt in Il1.
      split.
      - rewrite HsF, F1. now rewrite ltb_true.
      - rewrite Hl1, HFm. cbn. unfold Less. now apply ltb_true. }
    assert (A2 : Limit p1 = 0 -> selectFirst a b = First m23).
    { intros Z1. rewrite (Limit_zero_elements p1 Z1) in H12. cbn [app] in H12.
      rewrite <- H12 in Ifa. apply S2, Z.ltb_ge in Ifa.
      rewrite HsF, HFm. f_equal.
      destruct (fa <? fb) eqn:E; [apply Z.ltb_lt in E; lia | reflexivity]. }
    assert (A3 : 0 < Limit p4 ->
                 selectLast a b = Last p4 /\ ltElement (Last m23) (First p4) = true).
    { intros P4. specialize (L4 P4). rewrite Hlb in L4.
      destruct (wellFormed_bounds p4 W4 P4) as (f4 & l4 & Hf4 & _).
      pose proof (First_In p4 f4 W4 P4 Hf4) as If4.
      pose proof (Last_In p4 lb W4 P4 L4) as Il4.
      apply S4, negb_false_iff, Z.ltb_lt in If4. apply S4, negb_false_iff, Z.ltb_lt in Il4.
      split.
      - rewrite HsL, L4. f_equal.
        destruct (lb <? la) eqn:E; [apply Z.ltb_lt in E; lia | reflexivity].
      - rewrite HLm, Hf4. cbn. unfold Less. now apply ltb_true. }
    assert (A4 : Limit p4 = 0 -> selectLast a b = Last m23).
    { intros Z4. rewrite (Limit_zero_elements p4 Z4), app_nil_r in H34.
      rewrite <- H34 in Ilb. apply S3, negb_true_iff, Z.ltb_ge in Ilb.
      rewrite HsL, HLm. f_equal.
      destruct (lb <? la) eqn:E; cbn [negb]; [reflexivity | apply Z.ltb_ge in E; lia]. }
    pose proof (Limit_nonneg p1) as Hn1. pose proof (Limit_nonneg p4) as Hn4.
    cbn [filter] in Hm. rewrite (ltb_true _ _ Pm) in Hm.
    destruct (0 <? Limit p1) eqn:E1; destruct (0 <? Limit p4) eqn:E4;
      try apply Z.ltb_lt in E1; try apply Z.ltb_ge in E1;
      try apply Z.ltb_lt in E4; try apply Z.ltb_ge in E4;
      apply Ok_inj in Hm; subst r.
    + destruct (A1 E1) as [B1 B2]. destruct (A3 E4) as [B3 B4].
      apply flatten_wellFormed, wellFormed_intro; try assumption; [discriminate | |].
      * cbn [forallb]. now rewrite W1, Wm, W4, !ltb_true.
      * cbn [I1]. now rewrite B2, B4.
    + destruct (A1 E1) as [B1 B2].
      apply flatten_wellFormed, wellFormed_intro; try assumption; [discriminate | | |].
      * cbn [forallb]. now rewrite W1, Wm, !ltb_true.
      * apply A4. lia.
      * cbn [I1]. now rewrite B2.
    + destruct (A3 E4) as [B3 B4].
      apply flatten_wellFormed, wellFormed_intro; try assumption; [discriminate | | |].
      * cbn [forallb]. now rewrite Wm, W4, !ltb_true.
      * apply A2. lia.
      * cbn [I1]. now rewrite B4.
    + exact Wm.
Qed.
End MergeForm.

(** X10: [merge] is right whenever the first bound of [b] is not the first
    or last bound of a segment of [a] (as when [a] is not a composite): for
    well-formed operands and an overlap-merge primitive that gives the sorted
    combination of two sorted sequences, [merge] returns a well-formed range
    whose sequence is sorted and holds exactly the elements of [a] and of
    [b]. *)
Theorem merge_sorted_when_clear combine a b :
  (forall x y, Permutation (combine x y) (x ++ y)) ->
  (forall x y, sorted x = true -> sorted y = true -> sorted (combine x y) = true) ->
  wellFormed a = true -> wellFormed b = true ->
  (forall fb, First b = Some fb -> boundsAvoid fb a = true) ->
  exists r, merge combine a b = Ok r
            /\ wellFormed r = true
            /\ sorted (elements r) = true
            /\ Permutation (elements r) (elements a ++ elements b).
Proof.
  intros Hperm Hsorted Ha Hb Hclear.
  destruct (merge_elements combine a b Hperm Ha Hb) as (r & Hm & Hp).
  pose proof (merge_form combine Hperm Hsorted a b r Ha Hb Hclear Hm) as Hw.
  exists r. repeat split; try assumption. now apply wellFormed_sorted.
Qed.

Lemma merge_sorted_when_clear_witness :
  exists r,
    merge mergeLists
      (disjointRanges (Some 1) (Some 8) [leafOf [1; 3]; leafOf [5; 8]])
      (leafOf [4; 6; 9]) = Ok r
    /\ wellFormed r = true
    /\ sorted (elements r) = true
    /\ Permutation (elements r) ([1; 3; 5; 8] ++ [4; 6; 9]).
Proof.
  apply (merge_sorted_when_clear mergeLists
           (disjointRanges (Some 1) (Some 8) [leafOf [1; 3]; leafOf [5; 8]])
           (leafOf [4; 6; 9])).
  - intros x y. apply mergeLists_perm.
  - intros x y. apply mergeLists_sorted.
  - reflexivity.
  - reflexivity.
  - intros fb H. injection H as <-. reflexivity.
Defined.

(** ** Nesting: where composites with composite segments come from *)

Lemma leafOf_leafy es : isDisjoint (leafOf es) = false.
Proof. now destruct es. Qed.

Lemma leafy_flat s : isDisjoint s = false -> flatSegment s = true.
Proof. now destruct s. Qed.

Lemma Partition_leafy d e o l r :
  isDisjoint d = false -> Partition d e o = Ok (l, r) ->
  isDisjoint l = false /\ isDisjoint r = false.
Proof.
  destruct d as [| first last elems | first last segments]; intros Hd HP;
    [| |discriminate].
  - cbn [Partition] in HP. apply Ok_inj in HP. injection HP as <- <-. now split.
  - cbn [Partition] in HP. unfold leafPartition in HP. destruct e as [p|]; [|discriminate].
    apply Ok_inj in HP. injection HP as <- <-. split; apply leafOf_leafy.
Qed.

Lemma scan_flat first last segments e o rest :
  I3 segments = true ->
  forall pre l r,
    segments = pre ++ rest ->
    scan (disjointRanges first last segments) first last segments e o (length pre) rest
    = Ok (l, r) ->
    flatSegment l = true /\ flatSegment r = true.
Proof.
  intros H3. induction rest as [|r0 rest' IH]; intros pre l r Heq Hscan.
  - cbn [scan] in Hscan. apply Ok_inj in Hscan. injection Hscan as <- <-. now split.
  - pose proof H3 as H3'. rewrite Heq, I3_app in H3'. apply andb_true_iff in H3' as [Hpre Hrest].
    assert (Hr0 : isDisjoint r0 = false /\ I3 rest' = true).
    { unfold I3 in Hrest. cbn [forallb] in Hrest. apply andb_true_iff in Hrest as [H0 ?].
      apply negb_true_iff in H0. now split. }
    destruct Hr0 as [Hr0 Hrest'].
    cbn [scan] in Hscan.
    destruct (isNil (First r0)); [discriminate|].
    destruct (isNil (Last r0)); [discriminate|].
    destruct (boundaryMatch o e (First r0)) as [bm|]; [|discriminate].
    cbn [bind] in Hscan. destruct bm.
    + unfold splitAt in Hscan. destruct (length pre) as [|n] eqn:El; [discriminate|].
      rewrite <- El in Hscan. rewrite Heq, firstn_pre, skipn_pre in Hscan.
      apply Ok_inj in Hscan. injection Hscan as <- <-. now split.
    + destruct (insideMatch o e (First r0) (Last r0)) as [im|]; [|discriminate].
      cbn [bind] in Hscan. destruct im.
      * destruct (Partition r0 e o) as [[p1 p2]|] eqn:HP; [|discriminate].
        cbn [bind] in Hscan.
        destruct (Partition_leafy r0 e o p1 p2 Hr0 HP) as [N1 N2].
        assert (Hleft : I3 (pre ++ [p1]) = true).
        { rewrite I3_app, Hpre. unfold I3. cbn [forallb]. now rewrite N1. }
        assert (Hright : I3 ([p2] ++ rest') = true).
        { rewrite I3_app, Hrest'. unfold I3. cbn [forallb]. now rewrite N2. }
        unfold rebuild in Hscan. rewrite Heq, firstn_pre, skipn_S_pre in Hscan.
        destruct (Limit p2 =? 0).
        -- destruct (isNil (Last p1)); [discriminate|].
           destruct (Z.of_nat (length pre) + 1 <? _);
             apply Ok_inj in Hscan; injection Hscan as <- <-; now split.
        -- destruct (isNil (Last p1)); [discriminate|].
           destruct (isNil (First p2)); [discriminate|].
           apply Ok_inj in Hscan. injection Hscan as <- <-. now split.
      * apply (IH (pre ++ [r0])).
        -- now rewrite <- app_assoc.
        -- rewrite length_app. cbn [length]. now rewrite Nat.add_1_r.
Qed.

Lemma Partition_flat d e o l r :
  flatSegment d = true -> Partition d e o = Ok (l, r) ->
  flatSegment l = true /\ flatSegment r = true.
Proof.
  intros Hd HP. destruct d as [| first last elems | first last segments].
  - destruct (Partition_leafy EmptyRange e o l r eq_refl HP).
    split; now apply leafy_flat.
  - destruct (Partition_leafy (Leaf first last elems) e o l r eq_refl HP).
    split; now apply leafy_flat.
  - rewrite Partition_disjoint in HP.
    destruct (callOrder o first e) as [c|]; [|discriminate].
    cbn [bind] in HP. destruct c; cbn [negb] in HP.
    + now apply (scan_flat first last segments e o segments Hd [] l r eq_refl).
    + apply Ok_inj in HP. injection HP as <- <-. now split.
Qed.

(** X11: [Partition] adds no nesting: on a range of the core that is not a
    composite, or is a composite none of whose segments is a composite, it
    returns two ranges of that kind. *)
Theorem Partition_keeps_flat d o p :
  inv d = true -> flatSegment d = true ->
  exists l r, Partition d (Some p) o = Ok (l, r)
              /\ flatSegment l = true /\ flatSegment r = true.
Proof.
  intros Hi Hd. destruct (Partition_total d o p Hi) as (l & r & HP & _).
  exists l, r. split; [exact HP|]. exact (Partition_flat d (Some p) o l r Hd HP).
Qed.

Lemma Partition_keeps_flat_witness :
  exists l r,
    Partition (disjointRanges (Some 1) (Some 9) [leafOf [1; 3]; leafOf [5; 7; 9]])
              (Some 7) LessOrEqualOrder = Ok (l, r)
    /\ flatSegment l = true /\ flatSegment r = true.
Proof.
  apply (Partition_keeps_flat
           (disjointRanges (Some 1) (Some 9) [leafOf [1; 3]; leafOf [5; 7; 9]])
           LessOrEqualOrder 7); reflexivity.
Defined.

Lemma forallb_filter {A} (f g : A -> bool) (l : list A) :
  forallb f l = true -> forallb f (filter g l) = true.
Proof.
  intros H. apply forallb_forall. intros x Hx. apply filter_In in Hx as [Hx _].
  rewrite forallb_forall in H. now apply H.
Qed.

Lemma merge_flat combine a b r :
  flatSegment a = true -> flatSegment b = true ->
  ltElement (Last a) (First b) = false ->
  merge combine a b = Ok r -> flatSegment r = true.
Proof.
  intros Fa Fb Hlt Hm. unfold merge in Hm.
  destruct (Limit a =? 0); [apply Ok_inj in Hm; now subst r|].
  destruct (Limit b =? 0); [apply Ok_inj in Hm; now subst r|].
  destruct (Last a) as [la|] eqn:Hla; [|discriminate].
  destruct (First b) as [fb|] eqn:Hfb; [|discriminate].
  cbn [callLess callOrder bind holds ltElement] in Hm, Hlt. rewrite Hlt in Hm.
  unfold assemble in Hm. rewrite Hla, Hfb in Hm.
  destruct (Partition a (Some fb) LessOrder) as [[p1 p2]|] eqn:HP1; [|discriminate].
  cbn [bind] in Hm.
  destruct (Partition b (Some la) LessOrEqualOrder) as [[p3 p4]|] eqn:HP2; [|discriminate].
  cbn [bind] in Hm.
  destruct (Partition_flat a _ _ p1 p2 Fa HP1) as [F1 F2].
  destruct (Partition_flat b _ _ p3 p4 Fb HP2) as [F3 F4].
  match type of Hm with
  | context [filter ?g [p1; ?m; p4]] =>
      assert (Hall : forallb flatSegment (filter g [p1; m; p4]) = true);
      [apply forallb_filter; cbn [forallb]; rewrite F1, F4, andb_true_r; cbn [andb]
      |destruct (filter g [p1; m; p4]) as [|s [|s' tl]]]
  end.
  - destruct (Limit p2 =? 0); [exact F3|]. destruct (Limit p3 =? 0); [exact F2|].
    unfold useEmptyRangeIfEmpty, newMergeableRange. now destruct (_ =? 0).
  - discriminate.
  - apply Ok_inj in Hm. subst r. cbn [forallb] in Hall. now apply andb_true_iff in Hall as [? _].
  - apply Ok_inj in Hm. subst r. cbn [flatSegment]. now rewrite I3_flatten.
Qed.

(** X12: where nesting comes from.  On ranges of the core, [merge] returns;
    when its operands have no nesting and overlap ([a.Last()] is not before
    [b.First()]), neither has its result; on the disjoint fast path the
    result is without nesting exactly when neither operand is a composite. *)
Theorem merge_nests_on_fast_path_only
    (combine : list Z -> list Z -> list Z)
    (combine_head : forall l1 l2 h1 h2,
        hd_error l1 = Some h1 -> hd_error l2 = Some h2 ->
        exists h, hd_error (combine l1 l2) = Some h /\ h <= h1 /\ h <= h2)
    (a b : SortedRange) :
  inv a = true -> inv b = true ->
  exists r, merge combine a b = Ok r
    /\ (flatSegment a = true -> flatSegment b = true ->
        ltElement (Last a) (First b) = false -> flatSegment r = true)
    /\ (0 < Limit a -> 0 < Limit b -> ltElement (Last a) (First b) = true ->
        flatSegment r = negb (isDisjoint a) && negb (isDisjoint b)).
Proof.
  intros Ia Ib. destruct (merge_ok combine combine_head a b Ia Ib) as (r & Hm & _).
  exists r. split; [exact Hm|]. split.
  - intros Fa Fb Hlt. exact (merge_flat combine a b r Fa Fb Hlt Hm).
  - intros Pa Pb Hlt. unfold merge in Hm.
    replace (Limit a =? 0) with false in Hm by (symmetry; apply Z.eqb_neq; lia).
    replace (Limit b =? 0) with false in Hm by (symmetry; apply Z.eqb_neq; lia).
    destruct (Last a) as [la|]; [|discriminate].
    destruct (First b) as [fb|]; [|discriminate].
    cbn [callLess callOrder bind holds ltElement] in Hm, Hlt. rewrite Hlt in Hm.
    apply Ok_inj in Hm. subst r. cbn [flatSegment]. unfold I3. cbn [forallb].
    now rewrite andb_true_r.
Qed.

Lemma merge_nests_on_fast_path_only_witness :
  exists r,
    merge mergeLists
      (disjointRanges (Some 1) (Some 8) [leafOf [1; 3]; leafOf [5; 8]]) (leafOf [4; 6; 9])
    = Ok r
    /\ flatSegment r = true.
Proof.
  destruct (merge_nests_on_fast_path_only mergeLists mergeLists_head
              (disjointRanges (Some 1) (Some 8) [leafOf [1; 3]; leafOf [5; 8]])
              (leafOf [4; 6; 9]) eq_refl eq_refl) as (r & Hm & Hflat & _).
  exists r. split; [exact Hm|]. now apply Hflat.
Defined.

(** ** What [Partition] writes in the store *)

Lemma setNth_length {A} n (x : A) l : length (Store.setNth n x l) = length l.
Proof. revert n. induction l as [|y l IH]; intros [|n]; cbn; auto. Qed.

Lemma nth_error_setNth_eq {A} n (x : A) l :
  (n < length l)%nat -> nth_error (Store.setNth n x l) n = Some x.
Proof.
  revert n. induction l as [|y l IH]; intros [|n] H; cbn in *; try lia; [reflexivity|].
  apply IH. lia.
Qed.

Lemma nth_error_setNth_neq {A} n m (x : A) l :
  n <> m -> nth_error (Store.setNth n x l) m = nth_error l m.
Proof.
  revert n m. induction l as [|y l IH]; intros [|n] [|m] H; cbn;
    try reflexivity; try congruence.
  apply IH. congruence.
Qed.

Lemma nth_setNth_eq {A} n (x : A) l d :
  (n < length l)%nat -> nth n (Store.setNth n x l) d = x.
Proof.
  revert n. induction l as [|y l IH]; intros [|n] H; cbn in *; try lia; [reflexivity|].
  apply IH. lia.
Qed.

Lemma nth_setNth_neq {A} n m (x : A) l d :
  n <> m -> nth m (Store.setNth n x l) d = nth m l d.
Proof.
  revert n m. induction l as [|y l IH]; intros [|n] [|m] H; cbn;
    try reflexivity; try congruence.
  apply IH. congruence.
Qed.

Lemma rebuild_arrays h d i p1 p2 limit2 r1 r2 h' :
  (i < Store.len (Store.segments d))%nat ->
  (Store.len (Store.segments d) <= Store.cap (Store.segments d))%nat ->
  (Store.array (Store.segments d) < length (Store.arrays h))%nat ->
  Store.rebuild h d i p1 p2 limit2 = Ok (r1, r2, h') ->
  nth (Store.array (Store.segments d)) (Store.arrays h') []
  = Store.setNth (Store.offset (Store.segments d) + i) p1
      (nth (Store.array (Store.segments d)) (Store.arrays h) [])
  /\ (forall a, a <> Store.array (Store.segments d) -> (a < length (Store.arrays h))%nat ->
      nth a (Store.arrays h') [] = nth a (Store.arrays h) [])
  /\ exists extra, Store.objects h' = Store.objects h ++ extra.
Proof.
  destruct d as [f l [A off n c]]. cbn [Store.segments Store.len Store.cap Store.array
                                        Store.offset Store.first Store.last].
  intros Hi Hn HA Hr. unfold Store.rebuild in Hr.
  cbn [Store.segments Store.len Store.cap Store.array Store.offset Store.first Store.last] in Hr.
  set (arr := nth A (Store.arrays h) []) in *.
  assert (E1 : Store.reslice (Store.mkSlice A off n c) 0 i
               = Ok (Store.mkSlice A (off + 0) (i - 0) (c - 0))).
  { unfold Store.reslice. cbn [Store.cap Store.array Store.offset].
    replace (Nat.leb 0 i && Nat.leb i c) with true; [reflexivity|].
    symmetry. apply andb_true_iff. split; apply Nat.leb_le; lia. }
  assert (E2 : exists s1,
             Store.append h (Store.mkSlice A (off + 0) (i - 0) (c - 0)) [p1]
             = (s1, Store.mkHeap (Store.setNth A (Store.setNth (off + i) p1 arr)
                                    (Store.arrays h))
                      (Store.objects h))).
  { unfold Store.append. cbn [Store.len Store.cap Store.array Store.offset length].
    replace (Nat.leb (i - 0 + 1) (c - 0)) with true by (symmetry; apply Nat.leb_le; lia).
    eexists. f_equal. f_equal. f_equal. cbn [Store.writeAt]. f_equal. lia. }
  destruct E2 as [s1 E2].
  assert (HA' : (A < length (Store.setNth A (Store.setNth (off + i) p1 arr) (Store.arrays h)))%nat)
    by now rewrite setNth_length.
  destruct (limit2 =? 0).
  - destruct (Store.Last h p1) as [l1|]; [|discriminate]. cbn [bind] in Hr.
    destruct (isNil l1); [discriminate|].
    rewrite E1 in Hr. cbn [bind] in Hr. rewrite E2 in Hr.
    unfold Store.new in Hr. cbv beta iota in Hr. cbn [Store.arrays Store.objects] in Hr.
    destruct (i + 1 <? n)%nat.
    + destruct (Store.index _ _ _) as [rn|]; [|discriminate]. cbn [bind] in Hr.
      destruct (Store.First _ rn) as [fn|]; [|discriminate]. cbn [bind] in Hr.
      destruct (Store.reslice _ _ _) as [s2|]; [|discriminate]. cbn [bind] in Hr.
      apply Ok_inj in Hr. injection Hr as <- <- <-. cbn [Store.arrays Store.objects].
      split; [now apply nth_setNth_eq|]. split.
      * intros a Ha _. now apply nth_setNth_neq.
      * rewrite <- app_assoc. eauto.
    + apply Ok_inj in Hr. injection Hr as <- <- <-. cbn [Store.arrays Store.objects].
      split; [now apply nth_setNth_eq|]. split.
      * intros a Ha _. now apply nth_setNth_neq.
      * eauto.
  - destruct (Store.Last h p1) as [l1|]; [|discriminate]. cbn [bind] in Hr.
    destruct (isNil l1); [discriminate|].
    destruct (Store.First h p2) as [f2|]; [|discriminate]. cbn [bind] in Hr.
    destruct (isNil f2); [discriminate|].
    rewrite E1 in Hr. cbn [bind] in Hr. rewrite E2 in Hr.
    unfold Store.new, Store.makeSlice in Hr. cbv beta iota in Hr.
    cbn [Store.arrays Store.objects] in Hr.
    destruct (Store.reslice _ _ _) as [tail|]; [|discriminate]. cbn [bind] in Hr.
    unfold Store.append in Hr. cbn [Store.len Store.cap Store.array Store.offset] in Hr.
    assert (Hlen : length (Store.setNth A (Store.setNth (off + i) p1 arr) (Store.arrays h))
                   = length (Store.arrays h)) by apply setNth_length.
    destruct (Nat.leb _ _); unfold Store.makeSlice in Hr; cbv beta iota in Hr;
      cbn [Store.arrays Store.objects] in Hr;
      apply Ok_inj in Hr; injection Hr as <- <- <-; cbn [Store.arrays Store.objects].
    + split; [|split].
      * rewrite nth_setNth_neq by lia. rewrite app_nth1 by assumption.
        now apply nth_setNth_eq.
      * intros a Ha Hlt. rewrite nth_setNth_neq by lia. rewrite app_nth1 by lia.
        now apply nth_setNth_neq.
      * rewrite <- app_assoc. eauto.
    + split; [|split].
      * rewrite app_nth1 by (rewrite length_app; lia). rewrite app_nth1 by assumption.
        now apply nth_setNth_eq.
      * intros a Ha Hlt. rewrite app_nth1 by (rewrite length_app; lia).
        rewrite app_nth1 by lia. now apply nth_setNth_neq.
      * rewrite <- app_assoc. eauto.
Qed.

(** X13: the write of [append(d.segments[0:i], p1)] (merge.go lines 75 and
    96).  For a composite whose slice of segments lies within its backing
    array, whenever the rebuilding step of [Partition] for a split inside
    segment [i] returns, slot [i] of the composite's own backing array holds
    [p1], the left part of the segment; every other slot of the composite is
    as before, and no struct of the store has been changed. *)
Theorem rebuild_overwrites_slot h d i p1 p2 limit2 r1 r2 h' :
  (i < Store.len (Store.segments d))%nat ->
  (Store.len (Store.segments d) <= Store.cap (Store.segments d))%nat ->
  (Store.array (Store.segments d) < length (Store.arrays h))%nat ->
  (Store.offset (Store.segments d) + Store.len (Store.segments d)
   <= length (nth (Store.array (Store.segments d)) (Store.arrays h) []))%nat ->
  Store.rebuild h d i p1 p2 limit2 = Ok (r1, r2, h') ->
  Store.index h' (Store.segments d) i = Ok p1
  /\ (forall j, j <> i ->
      Store.index h' (Store.segments d) j = Store.index h (Store.segments d) j)
  /\ (forall q obj, Store.deref h q = Ok obj -> Store.deref h' q = Ok obj).
Proof.
  intros Hi Hn HA Hoff Hr.
  destruct (rebuild_arrays h d i p1 p2 limit2 r1 r2 h' Hi Hn HA Hr)
    as (Hslot & _ & extra & Hobj).
  split; [|split].
  - unfold Store.index. rewrite Hslot.
    replace (Nat.ltb i (Store.len (Store.segments d))) with true
      by (symmetry; now apply Nat.ltb_lt).
    rewrite nth_error_setNth_eq by lia. reflexivity.
  - intros j Hj. unfold Store.index. rewrite Hslot.
    now rewrite nth_error_setNth_neq by lia.
  - intros q obj. unfold Store.deref. rewrite Hobj.
    destruct (nth_error (Store.objects h) q) as [x|] eqn:E; [|discriminate].
    intros [= <-]. rewrite nth_error_app1; [now rewrite E|].
    apply nth_error_Some. now rewrite E.
Qed.

Lemma rebuild_overwrites_slot_witness :
  let h := snd publishedHeap in
  let d := Store.mkObject (Some 1) (Some 6) (Store.mkSlice 0 0 2 2) in
  let p1 := Store.iLeaf (Some 1) (Some 2) [1; 2] in
  let p2 := Store.iLeaf (Some 3) (Some 3) [3] in
  exists r1 r2 h',
    Store.rebuild h d 0 p1 p2 1 = Ok (r1, r2, h')
    /\ Store.index h (Store.segments d) 0 = Ok (Store.iLeaf (Some 1) (Some 3) [1; 2; 3])
    /\ Store.index h' (Store.segments d) 0 = Ok p1.
Proof.
  intros h d p1 p2. eexists _, _, _. split; [vm_compute; reflexivity|].
  split; [reflexivity|].
  eapply proj1, (rebuild_overwrites_slot h d 0 p1 p2 1); cbn; try lia. reflexivity.
Defined.

(** ** The structs of the store are never changed *)

Lemma append_objects h s xs : Store.objects (snd (Store.append h s xs)) = Store.objects h.
Proof. unfold Store.append. now destruct (Nat.leb _ _). Qed.

Lemma splitAt_objects h d i fr r1 r2 h' :
  Store.splitAt h d i fr = Ok (r1, r2, h') ->
  exists extra, Store.objects h' = Store.objects h ++ extra.
Proof.
  unfold Store.splitAt. destruct i as [|j]; [discriminate|].
  destruct (Store.index _ _ _) as [rj|]; [|discriminate]. cbn [bind].
  destruct (Store.Last _ _) as [lj|]; [|discriminate]. cbn [bind].
  destruct (Store.reslice _ _ _) as [s1|]; [|discriminate]. cbn [bind].
  unfold Store.new. cbv beta iota. cbn [Store.arrays Store.objects].
  destruct (Store.reslice _ _ _) as [s2|]; [|discriminate]. cbn [bind].
  intros H. apply Ok_inj in H. injection H as _ _ <-. cbn [Store.objects].
  rewrite <- app_assoc. eauto.
Qed.

Lemma rebuild_objects h d i p1 p2 limit2 r1 r2 h' :
  Store.rebuild h d i p1 p2 limit2 = Ok (r1, r2, h') ->
  exists extra, Store.objects h' = Store.objects h ++ extra.
Proof.
  unfold Store.rebuild. intros Hr.
  destruct (limit2 =? 0).
  - destruct (Store.Last h p1) as [l1|]; [|discriminate]. cbn [bind] in Hr.
    destruct (isNil l1); [discriminate|].
    destruct (Store.reslice _ _ _) as [s0i|]; [|discriminate]. cbn [bind] in Hr.
    pose proof (append_objects h s0i [p1]) as Ha.
    destruct (Store.append h s0i [p1]) as [s1 h1]. cbn [snd] in Ha.
    unfold Store.new in Hr. cbv beta iota in Hr. cbn [Store.arrays Store.objects] in Hr.
    destruct (Nat.ltb _ _).
    + destruct (Store.index _ _ _) as [rn|]; [|discriminate]. cbn [bind] in Hr.
      destruct (Store.First _ rn) as [fn|]; [|discriminate]. cbn [bind] in Hr.
      destruct (Store.reslice _ _ _) as [s2|]; [|discriminate]. cbn [bind] in Hr.
      apply Ok_inj in Hr. injection Hr as _ _ <-. cbn [Store.objects].
      rewrite Ha, <- app_assoc. eauto.
    + apply Ok_inj in Hr. injection Hr as _ _ <-. cbn [Store.objects].
      rewrite Ha. eauto.
  - destruct (Store.Last h p1) as [l1|]; [|discriminate]. cbn [bind] in Hr.
    destruct (isNil l1); [discriminate|].
    destruct (Store.First h p2) as [f2|]; [|discriminate]. cbn [bind] in Hr.
    destruct (isNil f2); [discriminate|].
    destruct (Store.reslice _ _ _) as [s0i|]; [|discriminate]. cbn [bind] in Hr.
    pose proof (append_objects h s0i [p1]) as Ha.
    destruct (Store.append h s0i [p1]) as [s1 h1]. cbn [snd] in Ha.
    unfold Store.new, Store.makeSlice in Hr. cbv beta iota in Hr.
    cbn [Store.arrays Store.objects] in Hr.
    destruct (Store.reslice _ _ _) as [tail|]; [|discriminate]. cbn [bind] in Hr.
    match type of Hr with
    | context [Store.append ?hh ?ss ?xx] =>
        pose proof (append_objects hh ss xx) as Hb;
        destruct (Store.append hh ss xx) as [s2 h4]
    end.
    cbn [snd Store.objects] in Hb.
    apply Ok_inj in Hr. injection Hr as _ _ <-. cbn [Store.objects].
    rewrite Hb, Ha, <- app_assoc. eauto.
Qed.

Lemma Partition_objects fuel :
  forall h d e o l r h',
    Store.Partition fuel h d e o = Some (Ok (l, r, h')) ->
    exists extra, Store.objects h' = Store.objects h ++ extra.
Proof.
  induction fuel as [|fuel IH]; intros h d e o l r h' HP; [discriminate|].
  cbn [Store.Partition] in HP. destruct d as [| f la es | p].
  - injection HP as _ _ <-. exists []. now rewrite app_nil_r.
  - destruct (leafPartition es e o) as [[l0 r0]|]; cbn [lift fbind] in HP; [|discriminate].
    injection HP as _ _ <-. exists []. now rewrite app_nil_r.
  - destruct (Store.deref h p) as [obj|]; cbn [lift fbind] in HP; [|discriminate].
    destruct (callOrder o (Store.first obj) e) as [c|]; cbn [lift fbind] in HP;
      [|discriminate].
    destruct c; cbn [negb] in HP;
      [|injection HP as _ _ <-; exists []; now rewrite app_nil_r].
    match type of HP with
    | ?f (Store.len (Store.segments obj)) O = _ =>
        assert (Hzero : forall i,
                   f O i = Some (Ok (Store.iDisjoint p, Store.iEmpty, h)))
          by (intros; reflexivity);
        assert (Hstep : forall k i,
                   f (S k) i
                   = (r <~ lift (Store.index h (Store.segments obj) i) ;;
                      fr <~ lift (Store.First h r) ;;
                      lr <~ lift (Store.Last h r) ;;
                      if isNil fr then Some (Panic "r.First() is nil!"%string) else
                      if isNil lr then Some (Panic "r.Last() is nil!"%string) else
                      bm <~ lift (boundaryMatch o e fr) ;;
                      if bm then lift (Store.splitAt h obj i fr) else
                      im <~ lift (insideMatch o e fr lr) ;;
                      if im then
                        '(p1, p2, h1) <~ Store.Partition fuel h r e o ;;
                        limit2 <~ Store.Limit fuel h1 p2 ;;
                        lift (Store.rebuild h1 obj i p1 p2 limit2)
                      else f k (S i)))
          by (intros; reflexivity);
        revert HP; generalize O as i; generalize (Store.len (Store.segments obj)) as k;
        induction k as [|k IHk]; intros i HP; [rewrite ?Hzero in HP | rewrite Hstep in HP]
    end.
    + injection HP as _ _ <-. exists []. now rewrite app_nil_r.
    + destruct (Store.index h (Store.segments obj) i) as [r0|]; cbn [lift fbind] in HP;
        [|discriminate].
      destruct (Store.First h r0) as [fr|]; cbn [lift fbind] in HP; [|discriminate].
      destruct (Store.Last h r0) as [lr|]; cbn [lift fbind] in HP; [|discriminate].
      destruct (isNil fr); [discriminate|]. destruct (isNil lr); [discriminate|].
      destruct (boundaryMatch o e fr) as [bm|]; cbn [lift fbind] in HP; [|discriminate].
      destruct bm.
      * injection HP as HP. now apply splitAt_objects in HP.
      * destruct (insideMatch o e fr lr) as [im|]; cbn [lift fbind] in HP; [|discriminate].
        destruct im; [|now apply (IHk (S i))].
        destruct (Store.Partition fuel h r0 e o) as [[[[p1 p2] h1]|]|] eqn:HP1;
          cbn [fbind] in HP; try discriminate.
        destruct (Store.Limit fuel h1 p2) as [[limit2|]|]; cbn [fbind] in HP;
          try discriminate.
        unfold lift in HP. injection HP as HP.
        destruct (IH _ _ _ _ _ _ _ HP1) as [ex1 E1].
        destruct (rebuild_objects _ _ _ _ _ _ _ _ _ HP) as [ex2 E2].
        exists (ex1 ++ ex2). now rewrite E2, E1, app_assoc.
Qed.

(** X14: [Partition] never changes a struct of the store: whatever it
    returns, every [*disjointRanges] that existed before the call has the
    cached bounds and the slice header ([first], [last], [segments]) it had;
    what changes of a published composite is only in a backing array. *)
Theorem Partition_keeps_structs fuel h d e o l r h' :
  Store.Partition fuel h d e o = Some (Ok (l, r, h')) ->
  forall q obj, Store.deref h q = Ok obj -> Store.deref h' q = Ok obj.
Proof.
  intros HP q obj. destruct (Partition_objects fuel h d e o l r h' HP) as [extra Hobj].
  unfold Store.deref. rewrite Hobj.
  destruct (nth_error (Store.objects h) q) as [x|] eqn:E; [|discriminate].
  intros [= <-]. rewrite nth_error_app1; [now rewrite E|].
  apply nth_error_Some. now rewrite E.
Qed.

Lemma Partition_keeps_structs_witness :
  exists l r h',
    Store.Partition 5 (snd publishedHeap) (fst publishedHeap) (Some 2) LessOrEqualOrder
    = Some (Ok (l, r, h'))
    /\ Store.deref h' 0
       = Ok (Store.mkObject (Some 1) (Some 6) (Store.mkSlice 0 0 2 2)).
Proof.
  eexists _, _, _. split; [vm_compute; reflexivity|].
  eapply (Partition_keeps_structs 5 (snd publishedHeap) (fst publishedHeap)
            (Some 2) LessOrEqualOrder); reflexivity.
Defined.

(** ** Empty results are the sentinel *)

Lemma inv_empty r : inv r = true -> Limit r = 0 -> r = EmptyRange.
Proof.
  destruct r as [| first last elems | first last segments]; intros Hi Hl.
  - reflexivity.
  - cbn in Hi. destruct first, last, elems; discriminate.
  - apply inv_disjoint in Hi as (c & l & s0 & tl & c0 & -> & -> & -> & Hall & _).
    rewrite Limit_disjoint in Hl.
    assert (0 < sumLimits (s0 :: tl)) by (apply sumLimits_pos; [discriminate | exact Hall]).
    lia.
Qed.

(** X15: an empty result is always the sentinel.  On ranges of the core,
    when the range returned by [merge] or a part returned by [Partition] has
    limit 0, it is [EmptyRange] itself. *)
Theorem empty_result_is_EmptyRange
    (combine : list Z -> list Z -> list Z)
    (combine_head : forall l1 l2 h1 h2,
        hd_error l1 = Some h1 -> hd_error l2 = Some h2 ->
        exists h, hd_error (combine l1 l2) = Some h /\ h <= h1 /\ h <= h2)
    (a b : SortedRange) (o : Order) (p : Z) :
  inv a = true -> inv b = true ->
  (exists r, merge combine a b = Ok r /\ (Limit r = 0 -> r = EmptyRange))
  /\ (exists l r, Partition a (Some p) o = Ok (l, r)
                  /\ (Limit l = 0 -> l = EmptyRange)
                  /\ (Limit r = 0 -> r = EmptyRange)).
Proof.
  intros Ia Ib. split.
  - destruct (merge_ok combine combine_head a b Ia Ib) as (r & Hm & Hi).
    exists r. split; [exact Hm | now apply inv_empty].
  - destruct (Partition_total a o p Ia) as (l & r & HP & Hl & Hr).
    exists l, r. split; [exact HP|]. split; now apply inv_empty.
Qed.

Lemma empty_result_is_EmptyRange_witness :
  exists l r,
    Partition (disjointRanges (Some 1) (Some 6) [leafOf [1; 3]; leafOf [5; 6]])
              (Some 6) LessOrEqualOrder = Ok (l, r)
    /\ (Limit l = 0 -> l = EmptyRange)
    /\ (Limit r = 0 -> r = EmptyRange).
Proof.
  apply (empty_result_is_EmptyRange mergeLists mergeLists_head
           (disjointRanges (Some 1) (Some 6) [leafOf [1; 3]; leafOf [5; 6]])
           EmptyRange LessOrEqualOrder 6); reflexivity.
Defined.

(** ** Partitioning a part again *)

Lemma avoid_elements p r :
  wellFormed r = true -> (forall x, In x (elements r) -> x <> p) ->
  boundsAvoid p r = true.
Proof.
  induction r as [| first last elems | first last segments IH]
    using SortedRange_nested_ind; intros Hw Hne; try reflexivity.
  destruct (wellFormed_elim _ _ _ Hw) as (_ & Hall & _ & _ & _).
  cbn [boundsAvoid]. apply forallb_forall. intros s Hs.
  rewrite forallb_forall in Hall. specialize (Hall s Hs).
  apply andb_true_iff in Hall as [Hws Hls]. apply Z.ltb_lt in Hls.
  assert (Hsub : forall x, In x (elements s) -> x <> p).
  { intros x Hx. apply Hne. cbn [elements]. apply in_flat_map. now exists s. }
  destruct (wellFormed_bounds s Hws Hls) as (f & l & Hf & Hl).
  pose proof (First_In s f Hws Hls Hf) as If. pose proof (Last_In s l Hws Hls Hl) as Il.
  apply Hsub in If, Il.
  rewrite Hf, Hl. cbn [eqElement].
  rewrite (proj2 (Z.eqb_neq f p) If), (proj2 (Z.eqb_neq l p) Il). cbn [negb andb].
  rewrite Forall_forall in IH. now apply IH.
Qed.

Lemma Partition_all_right r o p :
  wellFormed r = true ->
  Forall (fun x => holds o x p = false) (elements r) ->
  exists r', Partition r (Some p) o = Ok (EmptyRange, r') /\ elements r' = elements r.
Proof.
  intros Hw Hall. destruct r as [| first last elems | first last segments].
  - now exists EmptyRange.
  - exists (leafOf elems). cbn [Partition elements] in *. unfold leafPartition.
    rewrite (filter_nothing _ _ Hall).
    rewrite (filter_all (fun x => negb (holds o x p)) elems).
    + split; [reflexivity | apply leafOf_elements].
    + eapply Forall_impl; [|exact Hall]. cbn beta. now intros x ->.
  - exists (disjointRanges first last segments). split; [|reflexivity].
    assert (Hpos : 0 < Limit (disjointRanges first last segments)).
    { apply wellFormed_inv in Hw.
      apply inv_disjoint in Hw as (c & l & s0 & tl & c0 & -> & -> & -> & Hok & _).
      rewrite Limit_disjoint. apply sumLimits_pos; [discriminate | exact Hok]. }
    destruct (wellFormed_bounds _ Hw Hpos) as (f & l & Hf & _).
    pose proof (First_In _ f Hw Hpos Hf) as If.
    rewrite Forall_forall in Hall. apply Hall in If.
    cbn [First] in Hf. subst first.
    rewrite Partition_disjoint. cbn [callOrder bind]. now rewrite If.
Qed.

Lemma Partition_all_left l o p :
  wellFormed l = true ->
  Forall (fun x => holds o x p = true) (elements l) ->
  exists l', Partition l (Some p) o = Ok (l', EmptyRange) /\ elements l' = elements l.
Proof.
  intros Hw Hall.
  assert (Hclear : clearOf o p l).
  { destruct o; [right | now left]. apply avoid_elements; [exact Hw|].
    intros x Hx. rewrite Forall_forall in Hall. apply Hall in Hx.
    cbn in Hx. unfold Less in Hx. apply Z.ltb_lt in Hx. lia. }
  destruct (Partition_total l o p (wellFormed_inv l Hw)) as (l' & r' & HP & _ & Hir).
  destruct (Partition_splits l o p l' r' Hw HP) as [Happ _].
  destruct (Partition_separates l o p l' r' Hw Hclear HP) as [_ Hr].
  assert (Hnil : elements r' = []).
  { destruct (elements r') as [|x t] eqn:E; [reflexivity|]. exfalso.
    inversion Hr as [|? ? Hx _]; subst.
    rewrite Forall_forall in Hall. rewrite (Hall x) in Hx; [discriminate|].
    rewrite <- Happ. apply in_or_app. right. now left. }
  assert (r' = EmptyRange).
  { apply inv_empty; [exact Hir|]. now rewrite Limit_length, Hnil. }
  subst r'. exists l'. split; [exact HP|]. rewrite <- Happ. cbn [elements].
  now rewrite app_nil_r.
Qed.

(** X16: the parts of a partition stay put.  On a well-formed range, when the
    order is before-or-equal or the pivot is not a segment bound, partitioning
    the left part again at the same pivot leaves its whole sequence on the
    left and returns [EmptyRange] on the right, and partitioning the right
    part again returns [EmptyRange] on the left and its whole sequence on the
    right. *)
Theorem Partition_of_a_part d o p :
  wellFormed d = true -> clearOf o p d ->
  exists l r,
    Partition d (Some p) o = Ok (l, r)
    /\ (exists l', Partition l (Some p) o = Ok (l', EmptyRange)
                   /\ elements l' = elements l)
    /\ (exists r', Partition r (Some p) o = Ok (EmptyRange, r')
                   /\ elements r' = elements r).
Proof.
  intros Hw Hclear.
  destruct (Partition_total d o p (wellFormed_inv d Hw)) as (l & r & HP & _).
  destruct (Partition_form d o p l r Hw HP) as (Wl & Wr & _).
  destruct (Partition_separates d o p l r Hw Hclear HP) as [Sl Sr].
  exists l, r. split; [exact HP|]. split.
  - now apply Partition_all_left.
  - now apply Partition_all_right.
Qed.

Lemma Partition_of_a_part_witness :
  exists l r,
    Partition (disjointRanges (Some 1) (Some 9) [leafOf [1; 3]; leafOf [5; 7; 9]])
              (Some 6) LessOrder = Ok (l, r)
    /\ (exists l', Partition l (Some 6) LessOrder = Ok (l', EmptyRange)
                   /\ elements l' = elements l)
    /\ (exists r', Partition r (Some 6) LessOrder = Ok (EmptyRange, r')
                   /\ elements r' = elements r).
Proof.
  apply (Partition_of_a_part
           (disjointRanges (Some 1) (Some 9) [leafOf [1; 3]; leafOf [5; 7; 9]])
           LessOrder 6).
  - reflexivity.
  - right. reflexivity.
Defined.

(** ** The cached bounds of a merged range *)

Lemma same_elements_bounds r r' :
  wellFormed r = true -> wellFormed r' = true -> elements r = elements r' ->
  elements r <> [] -> First r = First r' /\ Last r = Last r'.
Proof.
  intros W W' E N. split.
  - destruct (elements r) as [|h t] eqn:Er; [contradiction|].
    rewrite (wellFormed_First r h t W Er). symmetry.
    now apply (wellFormed_First r' h t W').
  - rewrite (wellFormed_Last r 0 W N), (wellFormed_Last r' 0 W'); [now rewrite E|].
    now rewrite <- E.
Qed.

Lemma select_same a b a' b' :
  First a = First a' -> First b = First b' -> Last a = Last a' -> Last b = Last b' ->
  selectFirst a b = selectFirst a' b' /\ selectLast a b = selectLast a' b'.
Proof.
  intros H1 H2 H3 H4. unfold selectFirst, selectLast. now rewrite H1, H2, H3, H4.
Qed.

Lemma merge_bounds combine a b r :
  (forall x y, Permutation (combine x y) (x ++ y)) ->
  wellFormed a = true -> wellFormed b = true -> 0 < Limit a -> 0 < Limit b ->
  merge combine a b = Ok r ->
  First r = selectFirst a b /\ Last r = selectLast a b.
Proof.
  intros Hperm Ha Hb Hpa Hpb Hm. unfold merge in Hm.
  replace (Limit a =? 0) with false in Hm by (symmetry; apply Z.eqb_neq; lia).
  replace (Limit b =? 0) with false in Hm by (symmetry; apply Z.eqb_neq; lia).
  destruct (wellFormed_enclosed a Ha Hpa) as (fa & la & Hfa & Hla & Hlea & _).
  destruct (wellFormed_enclosed b Hb Hpb) as (fb & lb & Hfb & Hlb & Hleb & _).
  rewrite Hla, Hfb in Hm. cbn [callLess callOrder bind holds] in Hm. unfold Less in Hm.
  destruct (la <? fb) eqn:Hlt.
  - apply Ok_inj in Hm. subst r. cbn [First Last]. split; [|reflexivity].
    apply Z.ltb_lt in Hlt. rewrite (selectFirst_eq a b fa fb Hfa Hfb), Hfa.
    now rewrite ltb_true by lia.
  - apply Z.ltb_ge in Hlt.
    destruct (assemble_parts combine a b fb la Ha Hb Hfb Hla)
      as (p1 & p2 & p3 & p4 & m23 & HP1 & HP2 & Hasm & Hm23).
    rewrite Hasm in Hm. cbn [bind] in Hm.
    destruct (Partition_splits a LessOrder fb p1 p2 Ha HP1) as [H12 _].
    destruct (Partition_splits b LessOrEqualOrder la p3 p4 Hb HP2) as [H34 _].
    destruct (Partition_separates b LessOrEqualOrder la p3 p4 Hb (or_introl eq_refl) HP2)
      as [_ S4].
    destruct (Partition_form a LessOrder fb p1 p2 Ha HP1) as (_ & W2 & _ & _).
    destruct (Partition_form b LessOrEqualOrder la p3 p4 Hb HP2) as (W3 & _ & _ & _).
    rewrite Forall_forall in S4. cbn [holds] in S4. unfold Less in S4.
    assert (P3 : 0 < Limit p3).
    { pose proof (First_In b fb Hb Hpb Hfb) as Ifb.
      rewrite <- H34 in Ifb. apply in_app_or in Ifb as [Hin|Hin].
      - apply Limit_pos_elements. intros E. now rewrite E in Hin.
      - apply S4, negb_false_iff, Z.ltb_lt in Hin. lia. }
    assert (Pm : 0 < Limit m23).
    { subst m23. destruct (Limit p2 =? 0) eqn:E2; [exact P3|].
      destruct (Limit p3 =? 0) eqn:E3; [apply Z.eqb_eq in E3; lia|].
      unfold useEmptyRangeIfEmpty, newMergeableRange. cbn [Limit].
      pose proof (Permutation_length (Hperm (elements p2) (elements p3))) as Hlen.
      rewrite length_app in Hlen. rewrite Limit_length in P3.
      destruct (Z.of_nat (length (combine (elements p2) (elements p3))) =? 0) eqn:E;
        [apply Z.eqb_eq in E; lia | cbn [Limit]; lia]. }
    pose proof (Limit_nonneg p1) as Hn1. pose proof (Limit_nonneg p4) as Hn4.
    cbn [filter] in Hm. rewrite (ltb_true _ _ Pm) in Hm.
    destruct (0 <? Limit p1) eqn:E1; destruct (0 <? Limit p4) eqn:E4;
      apply Ok_inj in Hm; subst r; try (split; reflexivity).
    apply Z.ltb_ge in E1, E4.
    rewrite (Limit_zero_elements p1) in H12 by lia. cbn [app] in H12.
    rewrite (Limit_zero_elements p4), app_nil_r in H34 by lia.
    assert (Na : elements p2 <> []).
    { rewrite H12. now apply Limit_pos_elements. }
    assert (Nb : elements p3 <> []) by now apply Limit_pos_elements.
    destruct (same_elements_bounds p2 a W2 Ha H12 Na) as [F2 L2].
    destruct (same_elements_bounds p3 b W3 Hb H34 Nb) as [F3 L3].
    replace (Limit p2 =? 0) with false in Hm23
      by (symmetry; apply Z.eqb_neq; apply Limit_pos_elements in Na; lia).
    replace (Limit p3 =? 0) with false in Hm23 by (symmetry; apply Z.eqb_neq; lia).
    unfold useEmptyRangeIfEmpty in Hm23.
    destruct (Limit (newMergeableRange combine (selectFirst p2 p3) (selectLast p2 p3) p2 p3)
              =? 0) eqn:E; [subst m23; cbn in Pm; lia|].
    subst m23. cbn [newMergeableRange First Last]. now apply select_same.
Qed.

(** X17: the bounds of a merged range.  For well-formed non-empty operands
    and an overlap-merge primitive that keeps every element, [merge] returns
    a range whose [First()] is what [selectFirst] picks from the operands and
    whose [Last()] is what [selectLast] picks, on every path, also when the
    pivot of the inner partition is a segment bound. *)
Theorem merge_result_bounds combine a b :
  (forall x y, Permutation (combine x y) (x ++ y)) ->
  wellFormed a = true -> wellFormed b = true -> 0 < Limit a -> 0 < Limit b ->
  exists r, merge combine a b = Ok r
            /\ First r = selectFirst a b /\ Last r = selectLast a b.
Proof.
  intros Hperm Ha Hb Hpa Hpb.
  destruct (merge_elements combine a b Hperm Ha Hb) as (r & Hm & _).
  exists r. split; [exact Hm|].
  exact (merge_bounds combine a b r Hperm Ha Hb Hpa Hpb Hm).
Qed.

Lemma merge_result_bounds_witness :
  exists r,
    merge mergeLists
      (disjointRanges (Some 1) (Some 8) [leafOf [1; 2]; leafOf [5; 8]]) (leafOf [5; 6]) = Ok r
    /\ First r = Some 1 /\ Last r = Some 8.
Proof.
  apply (merge_result_bounds mergeLists
           (disjointRanges (Some 1) (Some 8) [leafOf [1; 2]; leafOf [5; 8]]) (leafOf [5; 6])).
  - intros x y. apply mergeLists_perm.
  - reflexivity.
  - reflexivity.
  - reflexivity.
  - reflexivity.
Defined.

(** ** Reading a merged range *)

(** X18: merging and then reading.  For well-formed operands, a primitive
    that gives the sorted combination of two sorted sequences, and a first
    bound of [b] that is no segment bound of [a], the range returned by
    [merge] can be opened, and any mix of [Next] and [Fill] calls on the
    cursor produces, in order, the first elements of a sorted sequence that
    holds exactly the elements of [a] and of [b]. *)
Theorem merge_then_read combine a b calls :
  (forall x y, Permutation (combine x y) (x ++ y)) ->
  (forall x y, sorted x = true -> sorted y = true -> sorted (combine x y) = true) ->
  wellFormed a = true -> wellFormed b = true ->
  (forall fb, First b = Some fb -> boundsAvoid fb a = true) ->
  exists r c0 c' es,
    merge combine a b = Ok r
    /\ Open r = Ok c0
    /\ runCalls calls c0 = Some (Ok (map Some (firstn (demand calls) es), c'))
    /\ sorted es = true
    /\ Permutation es (elements a ++ elements b).
Proof.
  intros Hperm Hsorted Ha Hb Hclear.
  destruct (merge_elements combine a b Hperm Ha Hb) as (r & Hm & Hp).
  pose proof (merge_form combine Hperm Hsorted a b r Ha Hb Hclear Hm) as Hw.
  destruct (Open_ok r (inv_segmentsOk r (wellFormed_inv r Hw))) as (c0 & Ho & Hr & Hc & _).
  destruct (runCalls_spec calls c0 Hc) as (c' & Hrun & _).
  rewrite Hr in Hrun.
  exists r, c0, c', (elements r). repeat split; try assumption.
  now apply wellFormed_sorted.
Qed.

Lemma merge_then_read_witness :
  exists r c0 c' es,
    merge mergeLists (leafOf [1; 3; 5]) (leafOf [2; 4; 6]) = Ok r
    /\ Open r = Ok c0
    /\ runCalls [CallFill 4; CallNext] c0 = Some (Ok (map Some (firstn 5 es), c'))
    /\ sorted es = true
    /\ Permutation es ([1; 3; 5] ++ [2; 4; 6]).
Proof.
  apply (merge_then_read mergeLists (leafOf [1; 3; 5]) (leafOf [2; 4; 6])
           [CallFill 4; CallNext]).
  - intros x y. apply mergeLists_perm.
  - intros x y. apply mergeLists_sorted.
  - reflexivity.
  - reflexivity.
  - intros fb _. reflexivity.
Defined.

(** ** [Partition] on the store and on values *)

Lemma leafy_bounds h x :
  leafy x = true ->
  Store.First h x = Ok (First (ofIface x)) /\ Store.Last h x = Ok (Last (ofIface x)).
Proof. destruct x; [now split | now split | discriminate]. Qed.

Lemma leafy_value fuel h x :
  leafy x = true -> Store.value (S fuel) h x = Some (Ok (ofIface x)).
Proof. destruct x; [reflexivity | reflexivity | discriminate]. Qed.

Lemma leafy_Limit fuel h x :
  leafy x = true -> Store.Limit (S fuel) h x = Some (Ok (Limit (ofIface x))).
Proof. destruct x; [reflexivity | reflexivity | discriminate]. Qed.

Lemma ofLeaf_leafy es :
  leafy (Store.ofLeaf (leafOf es)) = true /\ ofIface (Store.ofLeaf (leafOf es)) = leafOf es.
Proof. destruct es; now split. Qed.

Lemma leafy_Partition fuel h x e o :
  leafy x = true ->
  match Partition (ofIface x) e o with
  | Ok (vl, vr) =>
      exists l r, Store.Partition (S fuel) h x e o = Some (Ok (l, r, h))
                  /\ leafy l = true /\ leafy r = true
                  /\ ofIface l = vl /\ ofIface r = vr
  | Panic msg => Store.Partition (S fuel) h x e o = Some (Panic msg)
  end.
Proof.
  destruct x as [| f l es | q]; intros Hx; [| |discriminate].
  - cbn. now exists Store.iEmpty, Store.iEmpty.
  - cbn [ofIface Partition Store.Partition]. unfold leafPartition.
    destruct e as [p|]; [|reflexivity]. cbn [lift fbind].
    destruct (ofLeaf_leafy (filter (fun x => holds o x p) es)) as [A1 A2].
    destruct (ofLeaf_leafy (filter (fun x => negb (holds o x p)) es)) as [B1 B2].
    eexists _, _. split; [reflexivity|]. now repeat split.
Qed.

Lemma value_composite h q ob :
  Store.deref h q = Ok ob ->
  forallb leafy (Store.contents h (Store.segments ob)) = true ->
  Store.value 2 h (Store.iDisjoint q)
  = Some (Ok (disjointRanges (Store.first ob) (Store.last ob)
                (map ofIface (Store.contents h (Store.segments ob))))).
Proof.
  intros Hd Hall. cbn [Store.value]. rewrite Hd. cbn [lift fbind].
  match goal with
  | |- fbind (?f ?cs) _ = _ =>
      assert (H : forall xs, forallb leafy xs = true -> f xs = Some (Ok (map ofIface xs)))
  end.
  { induction xs as [|x xs IH]; intros Hxs; [reflexivity|].
    cbn [forallb] in Hxs. apply andb_true_iff in Hxs as [Hx Hxs]. specialize (IH Hxs).
    destruct x as [| f0 l0 es | q0]; [| |discriminate]; cbn [fbind map ofIface];
      cbn [fbind map ofIface] in IH; now rewrite IH. }
  rewrite (H _ Hall). reflexivity.
Qed.

Lemma index_contents h s i :
  Store.index h s i
  = match nth_error (Store.contents h s) i with
    | Some x => Ok x
    | None => Panic indexOutOfRange
    end.
Proof.
  unfold Store.index, Store.contents. rewrite nth_error_firstn, nth_error_skipn.
  now destruct (i <? Store.len s)%nat.
Qed.

Lemma contents_length h s :
  sliceOk h s -> length (Store.contents h s) = Store.len s.
Proof.
  intros (_ & Hn & Hc). unfold Store.contents. rewrite length_firstn, length_skipn. lia.
Qed.

Lemma sub_window {A} (arr : list A) off n lo hi :
  (lo <= hi)%nat -> (hi <= n)%nat ->
  firstn (hi - lo) (skipn (off + lo) arr)
  = firstn (hi - lo) (skipn lo (firstn n (skipn off arr))).
Proof.
  intros H1 H2. rewrite skipn_firstn_comm, skipn_skipn, firstn_firstn.
  replace (Nat.min (hi - lo) (n - lo)) with (hi - lo)%nat by lia.
  now rewrite (Nat.add_comm lo off).
Qed.

Lemma skipn_nth_cons {A} (l : list A) i d :
  (i < length l)%nat -> skipn i l = nth i l d :: skipn (S i) l.
Proof.
  revert i. induction l as [|x l IH]; intros [|i] H; cbn in *; try lia; [reflexivity|].
  apply IH. lia.
Qed.

Lemma forallb_firstn {A} (f : A -> bool) n l :
  forallb f l = true -> forallb f (firstn n l) = true.
Proof.
  intros H. apply forallb_forall. intros x Hx. rewrite forallb_forall in H.
  rewrite <- (firstn_skipn n l) in H. apply H. apply in_or_app. now left.
Qed.

Lemma forallb_skipn {A} (f : A -> bool) n l :
  forallb f l = true -> forallb f (skipn n l) = true.
Proof.
  intros H. apply forallb_forall. intros x Hx. rewrite forallb_forall in H.
  rewrite <- (firstn_skipn n l) in H. apply H. apply in_or_app. now right.
Qed.

Lemma forallb_nth {A} (f : A -> bool) (l : list A) i d :
  forallb f l = true -> f d = true -> f (nth i l d) = true.
Proof.
  intros H Hd. destruct (Nat.lt_ge_cases i (length l)) as [Hi|Hi].
  - rewrite forallb_forall in H. apply H. now apply nth_In.
  - now rewrite nth_overflow.
Qed.

Lemma skipn_setNth {A} k i (x : A) l :
  skipn k (Store.setNth (k + i) x l) = Store.setNth i x (skipn k l).
Proof.
  revert l. induction k as [|k IH]; intros l; [reflexivity|].
  destruct l as [|y l]; cbn [Nat.add Store.setNth skipn]; [now destruct i|]. apply IH.
Qed.

Lemma skipn_setNth_lt {A} k i (x : A) l :
  (i < k)%nat -> skipn k (Store.setNth i x l) = skipn k l.
Proof.
  revert i l. induction k as [|k IH]; intros i l H; [lia|].
  destruct l as [|y l]; destruct i as [|i]; cbn [Store.setNth skipn]; try reflexivity.
  apply IH. lia.
Qed.

Lemma firstn_setNth {A} n i (x : A) l :
  firstn n (Store.setNth i x l) = Store.setNth i x (firstn n l).
Proof.
  revert i l. induction n as [|n IH]; intros i l; [now destruct i, l|].
  destruct l as [|y l]; destruct i as [|i]; cbn [Store.setNth firstn]; try reflexivity.
  f_equal. apply IH.
Qed.

Lemma firstn_S_setNth {A} i (x : A) l :
  (i < length l)%nat -> firstn (S i) (Store.setNth i x l) = firstn i l ++ [x].
Proof.
  revert l. induction i as [|i IH]; intros l H; destruct l as [|y l]; cbn in *; try lia.
  - reflexivity.
  - f_equal. apply IH. lia.
Qed.

Lemma nth_error_snoc {A} (l : list A) x : nth_error (l ++ [x]) (length l) = Some x.
Proof. rewrite nth_error_app2 by lia. now rewrite Nat.sub_diag. Qed.

Lemma value_at h' q f l s xs :
  nth_error (Store.objects h') q = Some (Store.mkObject f l s) ->
  Store.contents h' s = xs ->
  forallb leafy xs = true ->
  Store.value 2 h' (Store.iDisjoint q)
  = Some (Ok (disjointRanges f l (map ofIface xs))).
Proof.
  intros H1 <- H3.
  apply (value_composite h' q (Store.mkObject f l s)); [|assumption].
  unfold Store.deref. now rewrite H1.
Qed.

Lemma window_left h' A off n c' m arr :
  nth A (Store.arrays h') [] = arr -> (m <= n)%nat ->
  Store.contents h' (Store.mkSlice A off m c') = firstn m (firstn n (skipn off arr)).
Proof.
  intros <- Hm. unfold Store.contents. cbn [Store.array Store.len Store.offset].
  rewrite firstn_firstn. now replace (Nat.min m n) with m by lia.
Qed.

Lemma window_right h' A off n c' m arr :
  nth A (Store.arrays h') [] = arr -> (m <= n)%nat ->
  Store.contents h' (Store.mkSlice A (off + m) (n - m) c')
  = skipn m (firstn n (skipn off arr)).
Proof.
  intros <- Hm. unfold Store.contents. cbn [Store.array Store.len Store.offset].
  now rewrite skipn_firstn_comm, skipn_skipn, (Nat.add_comm m off).
Qed.

Lemma splitAt_refines h f l A off n c i :
  sliceOk h (Store.mkSlice A off n c) ->
  forallb leafy (Store.contents h (Store.mkSlice A off n c)) = true ->
  (i < n)%nat ->
  refines
    (Some (Store.splitAt h (Store.mkObject f l (Store.mkSlice A off n c)) i
             (First (ofIface (nth i (Store.contents h (Store.mkSlice A off n c))
                                Store.iEmpty)))))
    (splitAt f l (map ofIface (Store.contents h (Store.mkSlice A off n c))) i
       (ofIface (nth i (Store.contents h (Store.mkSlice A off n c)) Store.iEmpty))).
Proof.
  intros Hs Hall Hi. pose proof (contents_length h _ Hs) as Hlen.
  destruct Hs as (HA & Hn & Hc).
  cbn [Store.array Store.len Store.cap Store.offset] in HA, Hn, Hc, Hlen.
  assert (Hcs : Store.contents h (Store.mkSlice A off n c)
                = firstn n (skipn off (nth A (Store.arrays h) []))) by reflexivity.
  set (cs := Store.contents h (Store.mkSlice A off n c)) in *.
  destruct i as [|j]; [reflexivity|].
  unfold splitAt, refines, Store.splitAt.
  cbn [Store.segments Store.first Store.last Store.len].
  rewrite index_contents. fold cs.
  rewrite (nth_error_nth' cs Store.iEmpty) by lia. cbn [bind].
  destruct (leafy_bounds h (nth j cs Store.iEmpty)) as [_ HL];
    [now apply forallb_nth|].
  rewrite HL. cbn [bind]. unfold Store.reslice.
  cbn [Store.array Store.len Store.cap Store.offset].
  replace (Nat.leb 0 (S j) && Nat.leb (S j) c) with true
    by (symmetry; apply andb_true_iff; split; apply Nat.leb_le; lia).
  replace (Nat.leb (S j) n && Nat.leb n c) with true
    by (symmetry; apply andb_true_iff; split; apply Nat.leb_le; lia).
  cbn [bind]. unfold Store.new. cbv beta iota. cbn [Store.arrays Store.objects].
  change (nth j (map ofIface cs) EmptyRange)
    with (nth j (map ofIface cs) (ofIface Store.iEmpty)).
  rewrite map_nth, firstn_map, skipn_map, !Nat.sub_0_r, Nat.add_0_r.
  eexists _, _, _. split; [reflexivity|]. split.
  - eapply value_at.
    + cbn [Store.objects]. rewrite nth_error_app1 by (rewrite length_app; cbn; lia).
      apply nth_error_snoc.
    + rewrite (window_left _ A off n c (S j) _ eq_refl) by lia.
      cbn [Store.arrays]. now rewrite <- Hcs.
    + now apply forallb_firstn.
  - eapply value_at.
    + cbn [Store.objects]. apply nth_error_snoc.
    + rewrite (window_right _ A off n (c - S j) (S j) _ eq_refl) by lia.
      cbn [Store.arrays]. now rewrite <- Hcs.
    + now apply forallb_skipn.
Qed.

Lemma rebuild_refines h f l A off n c i p1 p2 :
  sliceOk h (Store.mkSlice A off n c) ->
  forallb leafy (Store.contents h (Store.mkSlice A off n c)) = true ->
  (i < n)%nat -> leafy p1 = true -> leafy p2 = true ->
  refines
    (Some (Store.rebuild h (Store.mkObject f l (Store.mkSlice A off n c)) i p1 p2
             (Limit (ofIface p2))))
    (rebuild f l (map ofIface (Store.contents h (Store.mkSlice A off n c))) i
       (ofIface p1) (ofIface p2)).
Proof.
  intros Hs Hall Hi H1 H2. pose proof (contents_length h _ Hs) as Hlen.
  destruct Hs as (HA & Hn & Hc).
  cbn [Store.array Store.len Store.cap Store.offset] in HA, Hn, Hc, Hlen.
  assert (Hcs : Store.contents h (Store.mkSlice A off n c)
                = firstn n (skipn off (nth A (Store.arrays h) []))) by reflexivity.
  set (cs := Store.contents h (Store.mkSlice A off n c)) in *.
  set (arr := nth A (Store.arrays h) []) in *.
  set (arr' := Store.setNth (off + i) p1 arr).
  assert (Hcs' : firstn n (skipn off arr') = Store.setNth i p1 cs).
  { unfold arr'. now rewrite skipn_setNth, firstn_setNth, Hcs. }
  assert (Hleft : firstn (i + 1) (firstn n (skipn off arr')) = firstn i cs ++ [p1]).
  { rewrite Hcs', Nat.add_1_r. apply firstn_S_setNth. lia. }
  assert (Hright : skipn (i + 1) (firstn n (skipn off arr')) = skipn (i + 1) cs).
  { rewrite Hcs'. apply skipn_setNth_lt. lia. }
  assert (Hleafl : forallb leafy (firstn i cs ++ [p1]) = true).
  { rewrite forallb_app, (forallb_firstn _ _ _ Hall). cbn. now rewrite H1. }
  assert (Hleafr : forallb leafy (skipn (i + 1) cs) = true) by now apply forallb_skipn.
  destruct (leafy_bounds h p1 H1) as [_ HL1].
  destruct (leafy_bounds h p2 H2) as [HF2 _].
  assert (E1 : Store.reslice (Store.mkSlice A off n c) 0 i
               = Ok (Store.mkSlice A off i c)).
  { unfold Store.reslice. cbn [Store.cap Store.array Store.offset].
    replace (Nat.leb 0 i && Nat.leb i c) with true
      by (symmetry; apply andb_true_iff; split; apply Nat.leb_le; lia).
    now rewrite Nat.add_0_r, !Nat.sub_0_r. }
  assert (E2 : Store.append h (Store.mkSlice A off i c) [p1]
               = (Store.mkSlice A off (i + 1) c,
                  Store.mkHeap (Store.setNth A arr' (Store.arrays h)) (Store.objects h))).
  { unfold Store.append. cbn [Store.len Store.cap Store.array Store.offset length].
    replace (Nat.leb (i + 1) c) with true by (symmetry; apply Nat.leb_le; lia).
    reflexivity. }
  assert (E3 : Store.reslice (Store.mkSlice A off n c) (i + 1) n
               = Ok (Store.mkSlice A (off + (i + 1)) (n - (i + 1)) (c - (i + 1)))).
  { unfold Store.reslice. cbn [Store.cap Store.array Store.offset].
    now replace (Nat.leb (i + 1) n && Nat.leb n c) with true
      by (symmetry; apply andb_true_iff; split; apply Nat.leb_le; lia). }
  assert (HA' : nth A (Store.setNth A arr' (Store.arrays h)) [] = arr')
    by now apply nth_setNth_eq.
  unfold rebuild, refines, Store.rebuild.
  cbn [Store.segments Store.first Store.last Store.len].
  fold cs. rewrite length_map, Hlen, HL1, HF2, E1, E3. cbn [bind].
  change (nth (S i) (map ofIface cs) EmptyRange)
    with (nth (S i) (map ofIface cs) (ofIface Store.iEmpty)).
  rewrite map_nth, firstn_map, skipn_map, <- !(Nat.add_1_r i).
  change [ofIface p1] with (map ofIface [p1]).
  change [ofIface p2] with (map ofIface [p2]).
  rewrite <- !map_app.
  destruct (Limit (ofIface p2) =? 0) eqn:Elim.
  - destruct (isNil (Last (ofIface p1))); [reflexivity|].
    rewrite E2. unfold Store.new. cbv beta iota. cbn [Store.arrays Store.objects].
    assert (Hcond : (Z.of_nat i + 1 <? Z.of_nat n) = (i + 1 <? n)%nat).
    { destruct (i + 1 <? n)%nat eqn:E;
        [apply Nat.ltb_lt in E; apply Z.ltb_lt | apply Nat.ltb_ge in E; apply Z.ltb_ge]; lia. }
    rewrite Hcond. destruct (i + 1 <? n)%nat eqn:El.
    + apply Nat.ltb_lt in El. rewrite index_contents.
      unfold Store.contents at 1.
      cbn [Store.array Store.len Store.offset Store.arrays].
      rewrite HA', Hcs', nth_error_setNth_neq by lia.
      rewrite (nth_error_nth' cs Store.iEmpty) by lia. cbn [bind].
      match goal with
      | |- context [Store.First ?hh (nth (i + 1) cs Store.iEmpty)] =>
          destruct (leafy_bounds hh (nth (i + 1) cs Store.iEmpty)) as [HFn _];
          [now apply forallb_nth | rewrite HFn]
      end.
      cbn [bind].
      eexists _, _, _. split; [reflexivity|]. split.
      * eapply value_at.
        -- cbn [Store.objects]. rewrite nth_error_app1 by (rewrite length_app; cbn; lia).
           apply nth_error_snoc.
        -- rewrite (window_left _ A off n c (i + 1) _ eq_refl) by lia.
           cbn [Store.arrays]. rewrite HA'. exact Hleft.
        -- exact Hleafl.
      * eapply value_at.
        -- cbn [Store.objects]. apply nth_error_snoc.
        -- rewrite (window_right _ A off n (c - (i + 1)) (i + 1) _ eq_refl) by lia.
           cbn [Store.arrays]. rewrite HA'. exact Hright.
        -- exact Hleafr.
    + eexists _, _, _. split; [reflexivity|]. split; [|reflexivity].
      eapply value_at.
      * cbn [Store.objects]. apply nth_error_snoc.
      * rewrite (window_left _ A off n c (i + 1) _ eq_refl) by lia.
        cbn [Store.arrays]. rewrite HA'. exact Hleft.
      * exact Hleafl.
  - destruct (isNil (Last (ofIface p1))); [reflexivity|].
    destruct (isNil (First (ofIface p2))); [reflexivity|].
    rewrite E2. unfold Store.new, Store.makeSlice. cbv beta iota.
    cbn [Store.arrays Store.objects].
    set (arrs1 := Store.setNth A arr' (Store.arrays h)) in *.
    assert (Hlen1 : length arrs1 = length (Store.arrays h)) by apply setNth_length.
    assert (Hlit : nth (length arrs1) (arrs1 ++ [[p2]]) [] = [p2]) by apply nth_middle.
    rewrite (window_right _ A off n (c - (i + 1)) (i + 1) _ eq_refl) by lia.
    cbn [Store.arrays]. rewrite app_nth1 by lia. rewrite HA', Hright.
    unfold Store.append, Store.makeSlice, Store.contents.
    cbn [Store.len Store.cap Store.array Store.offset Store.arrays Store.objects length].
    rewrite Hlit. cbn [skipn firstn].
    destruct (skipn (i + 1) cs) as [|y ys] eqn:Esk; cbn [length Nat.add Nat.leb];
      cbv beta iota; cbn [Store.arrays Store.objects Store.writeAt].
    + eexists _, _, _. split; [reflexivity|]. split.
      * eapply value_at.
        -- cbn [Store.objects]. rewrite nth_error_app1 by (rewrite length_app; cbn; lia).
           apply nth_error_snoc.
        -- rewrite (window_left _ A off n c (i + 1) _ eq_refl) by lia.
           cbn [Store.arrays]. rewrite nth_setNth_neq by lia.
           rewrite app_nth1 by lia. rewrite HA'. exact Hleft.
        -- exact Hleafl.
      * eapply value_at.
        -- cbn [Store.objects]. apply nth_error_snoc.
        -- unfold Store.contents.
           cbn [Store.len Store.array Store.offset Store.arrays skipn].
           rewrite nth_setNth_eq by (rewrite length_app; cbn; lia). reflexivity.
        -- cbn. now rewrite H2.
    + eexists _, _, _. split; [reflexivity|]. split.
      * eapply value_at.
        -- cbn [Store.objects]. rewrite nth_error_app1 by (rewrite length_app; cbn; lia).
           apply nth_error_snoc.
        -- rewrite (window_left _ A off n c (i + 1) _ eq_refl) by lia.
           cbn [Store.arrays]. rewrite app_nth1 by (rewrite length_app; lia).
           rewrite app_nth1 by lia. rewrite HA'. exact Hleft.
        -- exact Hleafl.
      * eapply value_at.
        -- cbn [Store.objects]. apply nth_error_snoc.
        -- unfold Store.contents.
           cbn [Store.len Store.array Store.offset Store.arrays skipn].
           rewrite nth_middle. apply firstn_all.
        -- cbn [forallb app]. rewrite H2. exact Hleafr.
Qed.

Lemma Partition_refines_flat fuel h p f l A off n c e o :
  Store.deref h p = Ok (Store.mkObject f l (Store.mkSlice A off n c)) ->
  sliceOk h (Store.mkSlice A off n c) ->
  forallb leafy (Store.contents h (Store.mkSlice A off n c)) = true ->
  refines (Store.Partition (S (S fuel)) h (Store.iDisjoint p) e o)
    (Partition (disjointRanges f l
                  (map ofIface (Store.contents h (Store.mkSlice A off n c)))) e o).
Proof.
  intros Hd Hs Hall. pose proof (contents_length h _ Hs) as Hlen.
  cbn [Store.len] in Hlen.
  set (cs := Store.contents h (Store.mkSlice A off n c)) in *.
  assert (Hval : Store.value 2 h (Store.iDisjoint p)
                 = Some (Ok (disjointRanges f l (map ofIface cs)))).
  { apply (value_at h p f l (Store.mkSlice A off n c) cs); [|reflexivity|exact Hall].
    unfold Store.deref in Hd. destruct (nth_error (Store.objects h) p); [|discriminate].
    now injection Hd as ->. }
  rewrite Partition_disjoint.
  remember (S fuel) as fuel1 eqn:Hfuel.
  cbn [Store.Partition]. rewrite Hd. cbn [lift fbind Store.first Store.segments Store.len].
  destruct (callOrder o f e) as [c0|]; [|reflexivity]. cbn [bind fbind].
  destruct c0; cbn [negb];
    [|unfold refines; eexists _, _, _; split; [reflexivity|]; split; [reflexivity | exact Hval]].
  match goal with
  | |- refines (?F n O) _ =>
      assert (Hzero : forall i,
                 F O i = Some (Ok (Store.iDisjoint p, Store.iEmpty, h)))
        by (intros; reflexivity);
      assert (Hstep : forall k i,
                 F (S k) i
                 = (r <~ lift (Store.index h (Store.mkSlice A off n c) i) ;;
                    fr <~ lift (Store.First h r) ;;
                    lr <~ lift (Store.Last h r) ;;
                    if isNil fr then Some (Panic "r.First() is nil!"%string) else
                    if isNil lr then Some (Panic "r.Last() is nil!"%string) else
                    bm <~ lift (boundaryMatch o e fr) ;;
                    if bm
                    then lift (Store.splitAt h (Store.mkObject f l (Store.mkSlice A off n c))
                                 i fr)
                    else
                    im <~ lift (insideMatch o e fr lr) ;;
                    if im then
                      '(p1, p2, h1) <~ Store.Partition fuel1 h r e o ;;
                      limit2 <~ Store.Limit fuel1 h1 p2 ;;
                      lift (Store.rebuild h1 (Store.mkObject f l (Store.mkSlice A off n c))
                              i p1 p2 limit2)
                    else F k (S i)))
        by (intros; reflexivity);
      enough (H : forall k i, (i + k = n)%nat ->
                  refines (F k i)
                    (scan (disjointRanges f l (map ofIface cs)) f l (map ofIface cs) e o i
                       (skipn i (map ofIface cs))))
        by (apply (H n O); lia);
      induction k as [|k IHk]; intros i Hik; [try rewrite Hzero | try rewrite Hstep]
  end.
  - rewrite skipn_all2 by (rewrite length_map; lia). cbn [scan].
    unfold refines. eexists _, _, _. split; [reflexivity|]. now split.
  - rewrite index_contents. fold cs.
    rewrite (nth_error_nth' cs Store.iEmpty) by lia. cbn [lift fbind].
    assert (Hx : leafy (nth i cs Store.iEmpty) = true) by now apply forallb_nth.
    destruct (leafy_bounds h _ Hx) as [HF HL]. rewrite HF, HL. cbn [fbind].
    rewrite (skipn_nth_cons (map ofIface cs) i (ofIface Store.iEmpty))
      by (rewrite length_map; lia).
    rewrite map_nth. cbn [scan].
    destruct (isNil (First (ofIface (nth i cs Store.iEmpty)))); [reflexivity|].
    destruct (isNil (Last (ofIface (nth i cs Store.iEmpty)))); [reflexivity|].
    destruct (boundaryMatch o e (First (ofIface (nth i cs Store.iEmpty)))) as [bm|];
      [|reflexivity].
    cbn [bind fbind]. destruct bm.
    + apply splitAt_refines; [assumption | assumption | lia].
    + destruct (insideMatch o e _ _) as [im|]; [|reflexivity].
      cbn [bind fbind]. destruct im; [|apply IHk; lia].
      pose proof (leafy_Partition fuel h (nth i cs Store.iEmpty) e o Hx) as HPx.
      rewrite <- Hfuel in HPx.
      destruct (Partition (ofIface (nth i cs Store.iEmpty)) e o) as [[v1 v2]|msg].
      * destruct HPx as (l1 & r1 & HPs & L1 & L2 & <- & <-).
        rewrite HPs. cbn [fbind bind].
        rewrite Hfuel, (leafy_Limit fuel h r1 L2). cbn [fbind].
        apply rebuild_refines; [assumption | assumption | lia | assumption | assumption].
      * rewrite HPx. reflexivity.
Qed.

(** X19: the two models of [Partition] agree on composites that have no
    composite among their segments.  When the slice of segments lies within
    its backing array, [Partition] run on the store (slices over backing
    arrays, [append] in place when the capacity suffices) ends as
    [Partition] run on values does: with the same panic, or with two
    references that stand, in the store returned, for the two ranges
    returned on values. *)
Theorem Partition_store_agrees fuel h p obj e o :
  Store.deref h p = Ok obj ->
  sliceOk h (Store.segments obj) ->
  forallb leafy (Store.contents h (Store.segments obj)) = true ->
  Store.value 2 h (Store.iDisjoint p)
  = Some (Ok (disjointRanges (Store.first obj) (Store.last obj)
                (map ofIface (Store.contents h (Store.segments obj)))))
  /\ refines (Store.Partition (S (S fuel)) h (Store.iDisjoint p) e o)
       (Partition (disjointRanges (Store.first obj) (Store.last obj)
                     (map ofIface (Store.contents h (Store.segments obj)))) e o).
Proof.
  intros Hd Hs Hall. split; [now apply value_composite|].
  destruct obj as [f l [A off n c]].
  now apply Partition_refines_flat.
Qed.

Lemma Partition_store_agrees_witness :
  refines
    (Store.Partition 2 (snd publishedHeap) (Store.iDisjoint 0) (Some 2) LessOrEqualOrder)
    (Partition (disjointRanges (Some 1) (Some 6) [leafOf [1; 2; 3]; leafOf [5; 6]])
       (Some 2) LessOrEqualOrder).
Proof.
  apply (Partition_store_agrees 0 (snd publishedHeap) 0
           (Store.mkObject (Some 1) (Some 6) (Store.mkSlice 0 0 2 2))
           (Some 2) LessOrEqualOrder).
  - reflexivity.
  - repeat split; cbn; lia.
  - reflexivity.
Defined.
